(** * CAD Sketcher operators: trimming, dependency queries and deletion

    A shallow embedding of [operators_temp.py]: the [Intersection] and
    [TrimSegment] classes, the dependency walkers ([get_flat_deps],
    [get_entity_deps], [is_entity_referenced], [get_constraint_local_indices])
    and the operators that trim a segment, delete entities, add constraints,
    merge coincident points and tweak a constraint.

    The scene is passed explicitly.  Python object references become
    indices into the store that owns the object: an entity is referred to by
    its [slvs_index], a constraint by a unique identifier, an [Intersection]
    by its position in the append-only list [_intersections] of its
    [TrimSegment].  An exception raised by the Python code is [None].

    The entity and constraint classes and their stores live in
    [class_defines], which is not among the sources: what the operators
    need of them is modelled from the specification, and each such
    definition says so. *)

From Stdlib Require Import ZArith List Lia Bool.
From stdpp Require Import base option list sorting gmap strings.

Open Scope Z_scope.

Set Default Proof Using "Type".

(** ** Entities *)

(** The concrete entity classes of [class_defines] the operators dispatch on:
    [is_point()], [isinstance(_, SlvsCircle)], [isinstance(_, SlvsSketch)]
    and membership in [class_defines.segment]. *)
Inductive EntityKind : Set :=
  | SlvsPoint2D
  | SlvsLine2D
  | SlvsArc
  | SlvsCircle
  | SlvsSketch
  | SlvsOther.

Global Instance EntityKind_eq_dec : EqDecision EntityKind.
Proof. solve_decision. Defined.

Section Sketcher.

(** [mathutils.Vector]: coordinates are carried around, never computed with,
    by the code embedded here. *)
Context {Vector : Type}.

(** Modelled from the spec: the entity classes of [class_defines] are
    missing.  An entity has a kind, a name, a position [co], the flag
    [selected], the sketch it belongs to, the entities its [dependencies()]
    lists and its [connection_points()].  [dependencies] is [None] for a
    class without a [dependencies] method (the walker tests [hasattr]);
    [sketch_i] is [None] for a class without that attribute. *)
Record Entity : Type := mkEntity {
  kind : EntityKind;
  name : string;
  co : Vector;
  selected : bool;
  sketch_i : option Z;
  dependencies : option (list Z);
  connection_points : list Z;
}.

(** [e.is_point()] *)
Definition Entity_is_point (e : Entity) : bool :=
  bool_decide (kind e = SlvsPoint2D).

(** Modelled from the spec: [is_closed()] of [class_defines] is missing; a
    segment is closed when it is a circle, open otherwise. *)
Definition Entity_is_closed (e : Entity) : bool :=
  bool_decide (kind e = SlvsCircle).

(** [isinstance(e, class_defines.SlvsCircle)] *)
Definition Entity_is_circle (e : Entity) : bool :=
  bool_decide (kind e = SlvsCircle).

(** [isinstance(e, class_defines.SlvsSketch)] *)
Definition Entity_is_sketch (e : Entity) : bool :=
  bool_decide (kind e = SlvsSketch).

(** [type(e) in class_defines.segment] *)
Definition Entity_is_segment (e : Entity) : bool :=
  match kind e with
  | SlvsLine2D | SlvsArc | SlvsCircle => true
  | _ => false
  end.

(** ** Constraints *)

(** Modelled from the spec: the constraint classes of [class_defines] are
    missing.  [uid] stands for the identity of the Python object, [type] is
    the type tag, [entities] holds the fields [entity1_i] ... in order, as
    [entities()] lists them, and [sketch] is the sketch the constraint
    belongs to. *)
Record Constraint : Type := mkConstraint {
  uid : nat;
  type : string;
  entities : list Z;
  sketch : option Z;
}.

(** Modelled from the spec: [GenericConstraint.dependencies] of
    [class_defines] is missing; a constraint depends on the entities it
    references and on its sketch. *)
Definition Constraint_dependencies (c : Constraint) : list Z :=
  entities c ++ option_list (sketch c).

(** ** The scene *)

(** [context.scene.sketcher]: the entity store indexed by [slvs_index], the
    constraint collections grouped by type in the order of [get_lists()],
    and the active sketch ([-1] when there is none). *)
Record Scene : Type := mkScene {
  sc_entities : gmap Z Entity;
  sc_constraints : list (string * list Constraint);
  active_sketch_i : Z;
}.

Definition active_sketch (sc : Scene) : option Z :=
  if bool_decide (active_sketch_i sc = -1) then None else Some (active_sketch_i sc).

Definition set_entities (sc : Scene) (m : gmap Z Entity) : Scene :=
  mkScene m (sc_constraints sc) (active_sketch_i sc).

Definition set_constraints (sc : Scene) (cs : list (string * list Constraint)) : Scene :=
  mkScene (sc_entities sc) cs (active_sketch_i sc).

(** [entities.get(index)] *)
Definition entities_get (sc : Scene) (i : Z) : option Entity :=
  sc_entities sc !! i.

(** Modelled from the spec: [entities.remove(index)] of [class_defines] is
    missing; the store forgets the entity held at [index]. *)
Definition entities_remove (sc : Scene) (i : Z) : Scene :=
  set_entities sc (delete i (sc_entities sc)).

(** [entities.all], in the order of the store, as [get_scene_entities]
    returns it. *)
Definition get_scene_entities (sc : Scene) : list Z :=
  map fst (map_to_list (sc_entities sc)).

Definition entity_selected (sc : Scene) (i : Z) : bool :=
  match entities_get sc i with
  | Some e => selected e
  | None => false
  end.

(** Modelled from the spec: [entities.selected_entities] of [class_defines]
    is missing; the entities whose flag [selected] is set. *)
Definition selected_entities (sc : Scene) : list Z :=
  filter (λ i, entity_selected sc i = true) (get_scene_entities sc).

(** Modelled from the spec: [entities.add_point_2d(co, sketch)] of
    [class_defines] is missing; it stores a new point at [co] in [sketch]
    under an index no entity holds and returns that index. *)
Definition new_index (sc : Scene) : Z :=
  fresh (dom (sc_entities sc)).

Definition add_point_2d (sc : Scene) (c : Vector) (sk : option Z)
  : Z * Scene :=
  let i := new_index sc in
  let p := mkEntity SlvsPoint2D "" c false sk (Some (option_list sk)) [] in
  (i, set_entities sc (<[i := p]> (sc_entities sc))).

(** [constraints.all]: every constraint, collection after collection. *)
Definition constraints_all (sc : Scene) : list Constraint :=
  concat (map snd (sc_constraints sc)).

(** [constraints.get_lists()] *)
Definition get_lists (sc : Scene) : list (list Constraint) :=
  map snd (sc_constraints sc).

(** The collection of one type, [constraints.coincident] and the like. *)
Fixpoint get_list_in (cs : list (string * list Constraint)) (t : string)
  : list Constraint :=
  match cs with
  | [] => []
  | (t', l) :: cs' => if bool_decide (t' = t) then l else get_list_in cs' t
  end.

Definition get_list (sc : Scene) (t : string) : list Constraint :=
  get_list_in (sc_constraints sc) t.

(** The live constraint object behind a reference. *)
Definition find_constraint (sc : Scene) (u : nat) : option Constraint :=
  head (filter (λ c, uid c = u) (constraints_all sc)).

(** Position of the first constraint named [u] in a collection. *)
Definition index_of_uid (l : list Constraint) (u : nat) : option nat :=
  fst <$> list_find (λ c, uid c = u) l.

(** Modelled from the spec: [constraints.get_index(c)] of [class_defines]
    is missing; the index of [c] in the collection of its type.  [None]
    when [c] is in no such collection. *)
Definition get_index (sc : Scene) (c : Constraint) : option nat :=
  index_of_uid (get_list sc (type c)) (uid c).

(** Appends [c] to the collection of its type, opening the collection when
    the scene has none for that type yet. *)
Fixpoint append_constraint (cs : list (string * list Constraint)) (c : Constraint)
  : list (string * list Constraint) :=
  match cs with
  | [] => [(type c, [c])]
  | (t, l) :: cs' =>
      if bool_decide (t = type c) then (t, l ++ [c]) :: cs'
      else (t, l) :: append_constraint cs' c
  end.

(** The identity of a new constraint object: one no constraint of the
    scene has. *)
Definition new_uid (sc : Scene) : nat :=
  S (max_list (uid <$> constraints_all sc)).

(** Modelled from the spec: [constraints.new_from_type] and the [add_*]
    helpers of [class_defines] are missing; a new constraint object of type
    [t] over [ents] joins the collection of its type. *)
Definition add_constraint (sc : Scene) (t : string) (ents : list Z) (sk : option Z)
  : Constraint * Scene :=
  let c := mkConstraint (new_uid sc) t ents sk in
  (c, set_constraints sc (append_constraint (sc_constraints sc) c)).

Definition add_coincident (sc : Scene) (p e : Z) (sk : option Z)
  : Constraint * Scene :=
  add_constraint sc "COINCIDENT" [p; e] sk.

(** ** Intersection *)

(** What an [Intersection] stands on: an entity of the scene (a crossing
    segment or a connection point), a constraint, or any other object. *)
Inductive Element : Type :=
  | ElEntity (i : Z)
  | ElConstraint (c : nat)
  | ElOther.

(** The fields of an [Intersection]; [intr_co] is the field [co] of the
    source. *)
Record Intersection : Type := mkIntersection {
  element : Element;
  intr_co : Vector;
  index : Z;
  _is_endpoint : bool;
  _point : option Z;
}.

(** [Intersection.__init__] *)
Definition Intersection_init (el : Element) (c : Vector) : Intersection :=
  mkIntersection el c (-1) false None.

Definition Intersection_is_entity (intr : Intersection) : bool :=
  match element intr with ElEntity _ => true | _ => false end.

Definition Intersection_is_constraint (intr : Intersection) : bool :=
  match element intr with ElConstraint _ => true | _ => false end.

Definition Intersection_is_endpoint (intr : Intersection) : bool :=
  _is_endpoint intr.

Definition set_index (i : Z) (intr : Intersection) : Intersection :=
  mkIntersection (element intr) (intr_co intr) i (_is_endpoint intr) (_point intr).

Definition set_is_endpoint (b : bool) (intr : Intersection) : Intersection :=
  mkIntersection (element intr) (intr_co intr) (index intr) b (_point intr).

Definition set_point (p : option Z) (intr : Intersection) : Intersection :=
  mkIntersection (element intr) (intr_co intr) (index intr) (_is_endpoint intr) p.

(** [element.is_point()] on the entity a reference resolves to. *)
Definition is_point_at (sc : Scene) (i : Z) : bool :=
  match entities_get sc i with
  | Some e => Entity_is_point e
  | None => false
  end.

(** [Intersection.get_point]: the point, the scene and the intersection
    after the call.  [None] is the [IndexError] of [entities()[0]] on a
    constraint that references nothing, or an element that is not in the
    scene. *)
Definition Intersection_get_point (sc : Scene) (intr : Intersection)
  : option (Z * Scene * Intersection) :=
  match element intr with
  | ElEntity e =>
      ent ← entities_get sc e;
      if Entity_is_point ent then Some (e, sc, intr)
      else
        match _point intr with
        | Some p => Some (p, sc, intr)
        | None =>
            let sk := active_sketch sc in
            let '(p, sc1) := add_point_2d sc (intr_co intr) sk in
            let '(_, sc2) := add_coincident sc1 p e sk in
            Some (p, sc2, set_point (Some p) intr)
        end
  | ElConstraint u =>
      c ← find_constraint sc u;
      p ← head (entities c);
      Some (p, sc, intr)
  | ElOther =>
      match _point intr with
      | Some p => Some (p, sc, intr)
      | None =>
          let sk := active_sketch sc in
          let '(p, sc1) := add_point_2d sc (intr_co intr) sk in
          Some (p, sc1, set_point (Some p) intr)
      end
  end.

(** ** TrimSegment *)

(** [float] and its [<], and the geometry of [class_defines]:
    [segment.distance_along_segment(pos, co)] on the segment a reference
    resolves to in a scene. *)
Context {Dist : Type}.
Variable dist_lt : Dist → Dist → bool.
Variable distance_along_segment : Scene → Z → Vector → Vector → Dist.

(** The fields of a [TrimSegment]; [ts_connection_points] is the field
    [connection_points] of the source, and [obsolete_intersections] holds
    references into [_intersections]. *)
Record TrimSegment : Type := mkTrimSegment {
  segment : Z;
  pos : Vector;
  _intersections : list Intersection;
  _is_closed : bool;
  ts_connection_points : list Z;
  obsolete_intersections : list nat;
  reuse_segment : bool;
}.

Definition set_intersections (ts : TrimSegment) (l : list Intersection) : TrimSegment :=
  mkTrimSegment (segment ts) (pos ts) l (_is_closed ts) (ts_connection_points ts)
                (obsolete_intersections ts) (reuse_segment ts).

Definition set_obsolete (ts : TrimSegment) (l : list nat) : TrimSegment :=
  mkTrimSegment (segment ts) (pos ts) (_intersections ts) (_is_closed ts)
                (ts_connection_points ts) l (reuse_segment ts).

Definition set_reuse_segment (ts : TrimSegment) (b : bool) : TrimSegment :=
  mkTrimSegment (segment ts) (pos ts) (_intersections ts) (_is_closed ts)
                (ts_connection_points ts) (obsolete_intersections ts) b.

(** [TrimSegment.add]: the reference to the new intersection and the
    segment holder after the append. *)
Definition TrimSegment_add (ts : TrimSegment) (el : Element) (c : Vector)
  : nat * TrimSegment :=
  (length (_intersections ts),
   set_intersections ts (_intersections ts ++ [Intersection_init el c])).

(** The loop of [__init__] over the connection points; [p.co] is read from
    the scene, and [None] when a connection point is not in the scene. *)
Fixpoint add_endpoints (sc : Scene) (ts : TrimSegment) (ps : list Z)
  : option TrimSegment :=
  match ps with
  | [] => Some ts
  | p :: ps' =>
      e ← entities_get sc p;
      let '(r, ts1) := TrimSegment_add ts (ElEntity p) (co e) in
      add_endpoints sc
        (set_intersections ts1 (alter (set_is_endpoint true) r (_intersections ts1)))
        ps'
  end.

(** [TrimSegment.__init__]; [None] when [segment] is not in the scene. *)
Definition TrimSegment_init (sc : Scene) (seg : Z) (p : Vector) : option TrimSegment :=
  e ← entities_get sc seg;
  let ts := mkTrimSegment seg p [] (Entity_is_closed e) (connection_points e) [] false in
  if _is_closed ts then Some ts else add_endpoints sc ts (ts_connection_points ts).

(** [sorted(l, key=...)]: a stable sort, here by insertion: each element in
    turn goes before the first element its key is less than. *)
Fixpoint insert_sorted {A} (key : A → Dist) (x : A) (l : list A) : list A :=
  match l with
  | [] => [x]
  | y :: l' =>
      if dist_lt (key x) (key y) then x :: y :: l'
      else y :: insert_sorted key x l'
  end.

Definition sorted {A} (key : A → Dist) (l : list A) : list A :=
  fold_left (λ acc x, insert_sorted key x acc) l [].

(** [TrimSegment._sorted]: the references to the intersections, ordered by
    distance along the segment from [pos]. *)
Definition TrimSegment__sorted (sc : Scene) (ts : TrimSegment) : list nat :=
  map fst
    (sorted (λ p : nat * Intersection,
               distance_along_segment sc (segment ts) (pos ts) (intr_co p.2))
            (imap pair (_intersections ts))).

(** The loop [for i, intr in enumerate(...): intr.index = i]. *)
Fixpoint assign_indices (i : Z) (refs : list nat) (l : list Intersection)
  : list Intersection :=
  match refs with
  | [] => l
  | r :: refs' => assign_indices (i + 1) refs' (alter (set_index i) r l)
  end.

(** [TrimSegment.get_intersections] *)
Definition TrimSegment_get_intersections (sc : Scene) (ts : TrimSegment)
  : list nat * TrimSegment :=
  let sorted_intersections := TrimSegment__sorted sc ts in
  (sorted_intersections,
   set_intersections ts (assign_indices 0 sorted_intersections (_intersections ts))).

(** [i in closest] *)
Definition in_closest (closest : Z * Z) (i : Z) : bool :=
  bool_decide (i = closest.1) || bool_decide (i = closest.2).

(** [if intr not in self.obsolete_intersections: ....append(intr)] *)
Definition mark_obsolete (r : nat) (obsolete : list nat) : list nat :=
  if bool_decide (r ∈ obsolete) then obsolete else obsolete ++ [r].

(** The body of the loop of [relevant_intersections] for one intersection:
    the lists [relevant] and [obsolete_intersections] after it. *)
Definition relevant_step (closest : Z * Z) (r : nat) (intr : Intersection)
    (acc : list nat * list nat) : list nat * list nat :=
  let '(relevant, obsolete) := acc in
  let second (relevant : list nat) :=
    if in_closest closest (index intr) then
      (relevant ++ [r],
       if Intersection_is_constraint intr then mark_obsolete r obsolete else obsolete)
    else (relevant, obsolete) in
  if Intersection_is_endpoint intr then
    if in_closest closest (index intr) then (relevant, mark_obsolete r obsolete)
    else second (relevant ++ [r])
  else second relevant.

Fixpoint relevant_loop (closest : Z * Z) (l : list Intersection)
    (ordered : list nat) (acc : list nat * list nat) : option (list nat * list nat) :=
  match ordered with
  | [] => Some acc
  | r :: ordered' =>
      intr ← l !! r;
      relevant_loop closest l ordered' (relevant_step closest r intr acc)
  end.

(** [TrimSegment.relevant_intersections]: the references to the relevant
    intersections and the segment holder after the call.  [None] is the
    [IndexError] of [ordered[0]] when no intersection was collected. *)
Definition TrimSegment_relevant_intersections (sc : Scene) (ts : TrimSegment)
  : option (list nat * TrimSegment) :=
  let '(ordered, ts1) := TrimSegment_get_intersections sc ts in
  first ← head ordered ≫= (_intersections ts1 !!.);
  final ← last ordered ≫= (_intersections ts1 !!.);
  let closest := (index first, index final) in
  '(relevant, obsolete) ←
    relevant_loop closest (_intersections ts1) ordered ([], obsolete_intersections ts1);
  Some (relevant, set_obsolete ts1 obsolete).

(** [TrimSegment.check] *)
Definition TrimSegment_check (sc : Scene) (ts : TrimSegment) : option bool :=
  '(relevant, _) ← TrimSegment_relevant_intersections sc ts;
  Some (bool_decide (length relevant = 2%nat) || bool_decide (length relevant = 4%nat)).

(** ** Dependency queries *)

(** [entity.dependencies()] behind a reference; [None] when the object has
    no such method. *)
Definition dependencies_at (sc : Scene) (i : Z) : option (list Z) :=
  entities_get sc i ≫= dependencies.

(** The loop [for e in entity.dependencies(): if e in list: continue;
    walker(e)] of [get_flat_deps], over a walker for one entity; [lst] is
    the list the source names [list]. *)
Fixpoint walk_dependencies (walk : Z → list Z → option (list Z))
    (deps : list Z) (lst : list Z) : option (list Z) :=
  match deps with
  | [] => Some lst
  | e :: deps' =>
      if bool_decide (e ∈ lst) then walk_dependencies walk deps' lst
      else lst' ← walk e lst; walk_dependencies walk deps' lst'
  end.

(** The inner function [walker] of [get_flat_deps], threading the list it
    appends to; [fuel] bounds the depth of the recursion. *)
Fixpoint walker (fuel : nat) (sc : Scene) (entity : Z) (is_root : bool)
    (lst : list Z) : option (list Z) :=
  match fuel with
  | O => None
  | S fuel' =>
      if bool_decide (entity ∈ lst) then Some lst
      else
        let lst := if is_root then lst else lst ++ [entity] in
        match dependencies_at sc entity with
        | None => Some lst
        | Some deps => walk_dependencies (λ e l, walker fuel' sc e false l) deps lst
        end
  end.

(** Every reference some entity of the scene depends on. *)
Definition all_dependencies (sc : Scene) : list Z :=
  map_to_list (sc_entities sc) ≫= λ p : Z * Entity, default [] (dependencies p.2).

(** A depth no walk of the scene reaches: see [walker_total]. *)
Definition walker_fuel (sc : Scene) : nat :=
  S (S (length (all_dependencies sc))).

Definition get_flat_deps_opt (sc : Scene) (entity : Z) : option (list Z) :=
  walker (walker_fuel sc) sc entity true [].

(** [get_flat_deps] *)
Definition get_flat_deps (sc : Scene) (entity : Z) : list Z :=
  default [] (get_flat_deps_opt sc entity).

(** [get_entity_deps]: the generator, as the list of what it yields. *)
Definition get_entity_deps (sc : Scene) (entity : Z) : list Z :=
  filter (λ scene_entity, entity ∈ get_flat_deps sc scene_entity)
         (get_scene_entities sc).

(** [is_entity_referenced]: whether [next(deps)] yields. *)
Definition is_entity_referenced (sc : Scene) (entity : Z) : bool :=
  match get_entity_deps sc entity with
  | [] => false
  | _ :: _ => true
  end.

(** [get_sketch_deps_indicies] *)
Definition get_sketch_deps_indicies (sc : Scene) (sk : Z) : list Z :=
  filter (λ i, (entities_get sc i ≫= sketch_i) = Some sk) (get_scene_entities sc).

(** The indices one collection contributes to
    [get_constraint_local_indices]; [None] when [get_index] fails. *)
Fixpoint local_indices (sc : Scene) (entity : Z) (data_coll : list Constraint)
  : option (list nat) :=
  match data_coll with
  | [] => Some []
  | c :: data_coll' =>
      if bool_decide (entity ∈ Constraint_dependencies c) then
        i ← get_index sc c;
        indices ← local_indices sc entity data_coll';
        Some (i :: indices)
      else local_indices sc entity data_coll'
  end.

Fixpoint constraint_local_indices_from (sc : Scene) (entity : Z) (k : nat)
    (lists : list (list Constraint)) : option (list (nat * list nat)) :=
  match lists with
  | [] => Some []
  | data_coll :: lists' =>
      indices ← local_indices sc entity data_coll;
      ret_list ← constraint_local_indices_from sc entity (S k) lists';
      Some ((k, indices) :: ret_list)
  end.

(** [get_constraint_local_indices]: each collection, named by its position
    in [get_lists()], with the local indices of the constraints that depend
    on [entity]. *)
Definition get_constraint_local_indices (sc : Scene) (entity : Z)
  : option (list (nat * list nat)) :=
  constraint_local_indices_from sc entity 0 (get_lists sc).

(** ** Deleting entities *)

(** [data_coll.remove(i)] on the collection at position [k] of
    [get_lists()]: the later constraints of that collection move one index
    down, as the items of a property collection of the host do. *)
Definition collection_remove (sc : Scene) (k i : nat) : Scene :=
  set_constraints sc
    (alter (λ p : string * list Constraint, (p.1, delete i p.2)) k (sc_constraints sc)).

(** The loop [for i in indices: data_coll[i]; data_coll.remove(i)];
    [None] is the [IndexError] of [data_coll[i]]. *)
Fixpoint remove_indices (sc : Scene) (k : nat) (indices : list nat) : option Scene :=
  match indices with
  | [] => Some sc
  | i :: indices' =>
      data_coll ← sc_constraints sc !! k;
      _ ← data_coll.2 !! i;
      remove_indices (collection_remove sc k i) k indices'
  end.

Fixpoint remove_collected (sc : Scene) (ret_list : list (nat * list nat))
  : option Scene :=
  match ret_list with
  | [] => Some sc
  | (k, indices) :: ret_list' =>
      sc1 ← remove_indices sc k indices;
      remove_collected sc1 ret_list'
  end.

Definition set_selected (b : bool) (e : Entity) : Entity :=
  mkEntity (kind e) (name e) (co e) b (sketch_i e) (dependencies e)
           (connection_points e).

(** [View3D_OT_slvs_delete_entity.delete]; [None] when [entity] is not in
    the scene or a collected index is out of range. *)
Definition delete_entity_delete (sc : Scene) (entity : Z) : option Scene :=
  _ ← entities_get sc entity;
  let sc1 := set_entities sc (alter (set_selected false) entity (sc_entities sc)) in
  ret_list ← get_constraint_local_indices sc1 entity;
  sc2 ← remove_collected sc1 (reverse ret_list);
  Some (entities_remove sc2 entity).

(** What an operator returns and what it tells the user. *)
Inductive OpResult : Set := CANCELLED | FINISHED | NoReturn.

Inductive Report : Type :=
  | Popup (entity : Z) (deps : list Z)
  | Warning (entity : Z).

(** Modelled from the spec: [activate_sketch] of [operators.utilities] is
    missing; with index [-1] no sketch is active afterwards. *)
Definition activate_sketch (sc : Scene) (i : Z) : Scene :=
  mkScene (sc_entities sc) (sc_constraints sc) i.

(** The loop [for i in reversed(deps): operator.delete(entities.get(i), ...)] *)
Fixpoint delete_all (sc : Scene) (indices : list Z) : option Scene :=
  match indices with
  | [] => Some sc
  | i :: indices' => sc1 ← delete_entity_delete sc i; delete_all sc1 indices'
  end.

(** [View3D_OT_slvs_delete_entity.main] *)
Definition delete_entity_main (sc : Scene) (i : Z)
  : option (OpResult * Scene * list Report) :=
  match entities_get sc i with
  | None => Some (CANCELLED, sc, [])
  | Some entity =>
      if Entity_is_sketch entity then
        let sc1 := if bool_decide (active_sketch_i sc ≠ -1)
                   then activate_sketch sc (-1) else sc in
        let deps := get_sketch_deps_indicies sc1 i in
        sc2 ← delete_all sc1 (reverse deps);
        sc3 ← delete_entity_delete sc2 i;
        Some (NoReturn, sc3, [])
      else if is_entity_referenced sc i then
        let deps := get_entity_deps sc i in
        Some (CANCELLED, sc, [Popup i deps; Warning i])
      else
        sc1 ← delete_entity_delete sc i;
        Some (NoReturn, sc1, [])
  end.

(** The batch loop of [execute]: referenced entities are passed over. *)
Fixpoint delete_batch (sc : Scene) (indices : list Z) : option Scene :=
  match indices with
  | [] => Some sc
  | i :: indices' =>
      if is_entity_referenced sc i then delete_batch sc indices'
      else sc1 ← delete_entity_delete sc i; delete_batch sc1 indices'
  end.

(** [indices.sort(reverse=True)] *)
Definition sort_reverse (indices : list Z) : list Z :=
  merge_sort (flip Z.le) indices.

(** [View3D_OT_slvs_delete_entity.execute] with the operator property
    [index]. *)
Definition delete_entity_execute (sc : Scene) (index : Z)
  : option (OpResult * Scene * list Report) :=
  let selected := selected_entities sc in
  if bool_decide (index ≠ -1) then
    '(_, sc1, reports) ← delete_entity_main sc index;
    Some (FINISHED, sc1, reports)
  else if bool_decide (length selected = 1%nat) then
    i ← head selected;
    '(_, sc1, reports) ← delete_entity_main sc i;
    Some (FINISHED, sc1, reports)
  else
    sc1 ← delete_batch sc (sort_reverse selected);
    Some (FINISHED, sc1, []).

(** ** The solver and the pointer rewrite *)

(** Modelled from the spec: [solve_system] of [solver] is missing; the
    solver is an opaque service that resolves entity positions, so it may
    move any entity and does nothing else to the scene. *)
Variable solved_co : Scene → option Z → Z → Entity → Vector.

Definition set_co (c : Vector) (e : Entity) : Entity :=
  mkEntity (kind e) (name e) c (selected e) (sketch_i e) (dependencies e)
           (connection_points e).

Definition solve_system (sc : Scene) (sk : option Z) : Scene :=
  set_entities sc (map_imap (λ i e, Some (set_co (solved_co sc sk i e) e)) (sc_entities sc)).

Definition rewrite_index (index_old index_new i : Z) : Z :=
  if bool_decide (i = index_old) then index_new else i.

Definition Entity_update_pointers (index_old index_new : Z) (e : Entity) : Entity :=
  mkEntity (kind e) (name e) (co e) (selected e)
           (rewrite_index index_old index_new <$> sketch_i e)
           (map (rewrite_index index_old index_new) <$> dependencies e)
           (map (rewrite_index index_old index_new) (connection_points e)).

Definition Constraint_update_pointers (index_old index_new : Z) (c : Constraint)
  : Constraint :=
  mkConstraint (uid c) (type c)
               (map (rewrite_index index_old index_new) (entities c))
               (rewrite_index index_old index_new <$> sketch c).

(** Modelled from the spec: [update_pointers(scene, index_old, index_new)]
    of [class_defines] is missing; every reference to [index_old] in the
    scene is rewritten to [index_new]. *)
Definition update_pointers (sc : Scene) (index_old index_new : Z) : Scene :=
  mkScene (Entity_update_pointers index_old index_new <$> sc_entities sc)
          (map (λ p : string * list Constraint,
                  (p.1, map (Constraint_update_pointers index_old index_new) p.2))
               (sc_constraints sc))
          (rewrite_index index_old index_new (active_sketch_i sc)).

(** ** Adding constraints *)

(** Modelled from the spec: [deselect_all] of [operators.utilities] is
    missing; no entity is selected afterwards. *)
Definition deselect_all (sc : Scene) : Scene :=
  set_entities sc (set_selected false <$> sc_entities sc).

(** [GenericConstraintOp.main] for an operator of type [t] whose picked
    entities are [ents]. *)
Definition GenericConstraintOp_main (sc : Scene) (t : string) (ents : list Z)
  : bool * Scene :=
  let sk := active_sketch sc in
  let '(_, sc1) := add_constraint sc t ents sk in
  let sc2 := deselect_all sc1 in
  (true, solve_system sc2 sk).

(** [VIEW3D_OT_slvs_add_coincident.main] on the picked [entity1] and
    [entity2]. *)
Definition add_coincident_main (sc : Scene) (entity1 entity2 : Z) : bool * Scene :=
  let '(p1, p2) := (entity1, entity2) in
  if is_point_at sc p1 && is_point_at sc p2 then
    let sc1 := update_pointers sc p1 p2 in
    let sc2 := entities_remove sc1 p1 in
    (true, solve_system sc2 (active_sketch sc2))
  else GenericConstraintOp_main sc "COINCIDENT" [entity1; entity2].

(** ** Replacing the trimmed segment *)

(** [intr.get_point(context)] on the intersection behind a reference. *)
Definition get_point_at (sc : Scene) (ts : TrimSegment) (r : nat)
  : option (Z * Scene * TrimSegment) :=
  intr ← _intersections ts !! r;
  '(p, sc1, intr1) ← Intersection_get_point sc intr;
  Some (p, sc1, set_intersections ts (<[r := intr1]> (_intersections ts))).

(** [TrimSegment.ensure_points], the loop over the relevant intersections:
    each [get_point] may add to the scene and caches its point in the
    intersection. *)
Fixpoint ensure_points_loop (sc : Scene) (ts : TrimSegment) (relevant : list nat)
  : option (Scene * TrimSegment) :=
  match relevant with
  | [] => Some (sc, ts)
  | r :: relevant' =>
      '(_, sc1, ts1) ← get_point_at sc ts r;
      ensure_points_loop sc1 ts1 relevant'
  end.

Definition TrimSegment_ensure_points (sc : Scene) (ts : TrimSegment)
  : option (Scene * TrimSegment) :=
  '(relevant, ts1) ← TrimSegment_relevant_intersections sc ts;
  ensure_points_loop sc ts1 relevant.

Definition is_circle_at (sc : Scene) (i : Z) : bool :=
  match entities_get sc i with
  | Some e => Entity_is_circle e
  | None => false
  end.

(** Modelled from the spec: [segment.replace(context, p1, p2, use_self)] of
    [class_defines] is missing.  With [use_self] the segment entity itself
    is made to span [p1] and [p2] and keeps its index; otherwise a new
    segment entity spanning them is stored under a new index (an arc when
    the original is a circle).  The index of the resulting segment is
    returned; [None] when the segment is not in the scene. *)
Definition Entity_replace (sc : Scene) (seg p1 p2 : Z) (use_self : bool)
  : option (Z * Scene) :=
  e ← entities_get sc seg;
  let deps :=
    (λ l, filter (λ d, d ∉ connection_points e) l ++ [p1; p2]) <$> dependencies e in
  let k := if Entity_is_circle e then SlvsArc else kind e in
  if use_self then
    let e' := mkEntity (kind e) (name e) (co e) (selected e) (sketch_i e) deps [p1; p2] in
    Some (seg, set_entities sc (<[seg := e']> (sc_entities sc)))
  else
    let e' := mkEntity k "" (co e) false (sketch_i e) deps [p1; p2] in
    let i := new_index sc in
    Some (i, set_entities sc (<[i := e']> (sc_entities sc))).

(** [ents.index(x)] *)
Definition list_index (x : Z) (ents : list Z) : option nat :=
  fst <$> list_find (λ y, y = x) ents.

(** [setattr(c, "entity{}_i".format(i + 1), v)] on the constraint object
    named [u]. *)
Definition set_constraint_entity (sc : Scene) (u : nat) (i : nat) (v : Z) : Scene :=
  set_constraints sc
    (map (λ p : string * list Constraint,
            (p.1, map (λ c, if bool_decide (uid c = u)
                            then mkConstraint (uid c) (type c) (<[i := v]> (entities c))
                                              (sketch c)
                            else c) p.2))
         (sc_constraints sc)).

(** The constraint types that are not copied to a further new segment. *)
Definition not_copied (t : string) : bool :=
  bool_decide (t ∈ ["RATIO"; "COINCIDENT"; "MIDPOINT"; "TANGENT"]).

(** The dictionary [constrs] of [replace]: each constraint that references
    the segment, with the list its [entities()] returned. *)
Definition collect_constrs (sc : Scene) (seg : Z) : list (nat * list Z) :=
  omap (λ c, if bool_decide (seg ∈ entities c) then Some (uid c, entities c) else None)
       (constraints_all sc).

(** The loop [for c, ents in constrs.items()] for the pair number [index]
    when the original segment is not reused; the lists held by [constrs]
    are updated in place.  [None] is the [ValueError] of [ents.index]. *)
Fixpoint copy_constraints (sc : Scene) (index : nat) (seg new_segment : Z)
    (constrs : list (nat * list Z)) : option (Scene * list (nat * list Z)) :=
  match constrs with
  | [] => Some (sc, [])
  | (u, ents) :: constrs' =>
      i ← list_index seg ents;
      if bool_decide (index ≠ 0%nat) then
        c ← find_constraint sc u;
        if not_copied (type c) then
          '(sc1, rest) ← copy_constraints sc index seg new_segment constrs';
          Some (sc1, (u, ents) :: rest)
        else
          let ents := <[i := new_segment]> ents in
          let '(_, sc1) := add_constraint sc (type c) ents (sketch c) in
          '(sc2, rest) ← copy_constraints sc1 index seg new_segment constrs';
          Some (sc2, (u, ents) :: rest)
      else
        let sc1 := set_constraint_entity sc u i new_segment in
        '(sc2, rest) ← copy_constraints sc1 index seg new_segment constrs';
        Some (sc2, (u, ents) :: rest)
  end.

(** One round of the loop of [replace] that creates the new segments: the
    pair of relevant intersections number [index].  The test [if not
    intr_1: continue] never holds, an [Intersection] object being true. *)
Definition replace_pair (sc : Scene) (ts : TrimSegment) (index : nat)
    (intrs : nat * nat) (constrs : list (nat * list Z))
  : option (Z * Scene * TrimSegment * list (nat * list Z)) :=
  let reuse_segment :=
    bool_decide (index = 0%nat) && negb (is_circle_at sc (segment ts)) in
  let '(intr_1, intr_2) := intrs in
  '(p1, sc1, ts1) ← get_point_at sc ts intr_1;
  '(p2, sc2, ts2) ← get_point_at sc1 ts1 intr_2;
  '(new_segment, sc3) ← Entity_replace sc2 (segment ts) p1 p2 reuse_segment;
  if reuse_segment then
    Some (new_segment, sc3, set_reuse_segment ts2 true, constrs)
  else
    '(sc4, constrs') ← copy_constraints sc3 index (segment ts) new_segment constrs;
    Some (new_segment, sc4, ts2, constrs').

(** [[relevant[i * 2 : i * 2 + 2] for i in range(len(relevant) // 2)]] *)
Fixpoint pairs_of (relevant : list nat) : list (nat * nat) :=
  match relevant with
  | intr_1 :: intr_2 :: relevant' => (intr_1, intr_2) :: pairs_of relevant'
  | _ => []
  end.

Fixpoint replace_pairs (sc : Scene) (ts : TrimSegment) (index : nat)
    (pairs : list (nat * nat)) (constrs : list (nat * list Z))
  : option (Scene * TrimSegment) :=
  match pairs with
  | [] => Some (sc, ts)
  | intrs :: pairs' =>
      '(_, sc1, ts1, constrs1) ← replace_pair sc ts index intrs constrs;
      replace_pairs sc1 ts1 (S index) pairs' constrs1
  end.

(** [View3D_OT_slvs_delete_constraint.execute] with the operator
    properties [type] and [index]: it removes the constraint at [index] of
    the collection of [type] and solves again.  Modelled from the spec:
    [get_from_type_index] and [constraints.remove] of [class_defines] are
    missing.  [None] when there is no such constraint. *)
Definition delete_constraint_execute (sc : Scene) (t : string) (i : nat)
  : option Scene :=
  _ ← get_list sc t !! i;
  let cs := map (λ p : string * list Constraint,
                   if bool_decide (p.1 = t) then (p.1, delete i p.2) else p)
                (sc_constraints sc) in
  Some (solve_system (set_constraints sc cs) (active_sketch sc)).

(** The loop of [replace] that removes the obsolete intersections. *)
Fixpoint remove_obsolete (sc : Scene) (l : list Intersection) (obsolete : list nat)
  : option Scene :=
  match obsolete with
  | [] => Some sc
  | r :: obsolete' =>
      intr ← l !! r;
      match element intr with
      | ElConstraint u =>
          c ← find_constraint sc u;
          i ← get_index sc c;
          sc1 ← delete_constraint_execute sc (type c) i;
          remove_obsolete sc1 l obsolete'
      | ElEntity e =>
          '(_, sc1, _) ← delete_entity_execute sc e;
          remove_obsolete sc1 l obsolete'
      | ElOther => remove_obsolete sc l obsolete'
      end
  end.

(** The first part of [replace], up to the loop over the pairs: the
    relevant intersections, the dictionary [constrs], and the scene and the
    segment holder once every point exists. *)
Definition replace_prepare (sc : Scene) (ts : TrimSegment)
  : option (list nat * list (nat * list Z) * Scene * TrimSegment) :=
  '(relevant, ts1) ← TrimSegment_relevant_intersections sc ts;
  let constrs := collect_constrs sc (segment ts) in
  '(sc1, ts2) ← TrimSegment_ensure_points sc ts1;
  Some (relevant, constrs, sc1, ts2).

(** [TrimSegment.replace] *)
Definition TrimSegment_replace (sc : Scene) (ts : TrimSegment)
  : option (Scene * TrimSegment) :=
  '(relevant, constrs, sc1, ts1) ← replace_prepare sc ts;
  '(sc2, ts2) ← replace_pairs sc1 ts1 0 (pairs_of relevant) constrs;
  sc3 ← remove_obsolete sc2 (_intersections ts2) (obsolete_intersections ts2);
  if reuse_segment ts2 then Some (sc3, ts2)
  else Some (entities_remove sc3 (segment ts2), ts2).

(** ** The trim operator *)

(** [segment.intersect(e)] of [class_defines], on references. *)
Variable intersect : Scene → Z → Z → list Vector.

(** Modelled from the spec: [sketch.sketch_entities(context)] of
    [class_defines] is missing; the entities that belong to the sketch. *)
Definition sketch_entities (sc : Scene) (sk : Z) : list Z :=
  get_sketch_deps_indicies sc sk.

Fixpoint add_all (ts : TrimSegment) (el : Element) (cos : list Vector) : TrimSegment :=
  match cos with
  | [] => ts
  | c :: cos' => add_all (TrimSegment_add ts el c).2 el cos'
  end.

(** The loop of [fini] over the entities of the sketch. *)
Fixpoint add_crossings (sc : Scene) (seg : Z) (ts : TrimSegment) (es : list Z)
  : TrimSegment :=
  match es with
  | [] => ts
  | e :: es' =>
      match entities_get sc e with
      | Some ent =>
          if negb (Entity_is_segment ent) then add_crossings sc seg ts es'
          else if bool_decide (e = seg) then add_crossings sc seg ts es'
          else add_crossings sc seg (add_all ts (ElEntity e) (intersect sc seg e)) es'
      | None => add_crossings sc seg ts es'
      end
  end.

(** The loop of [fini] over the coincident and midpoint constraints;
    [None] when [ents[0]] does not resolve to an entity. *)
Fixpoint add_connected (sc : Scene) (seg : Z) (ts : TrimSegment) (cs : list Constraint)
  : option TrimSegment :=
  match cs with
  | [] => Some ts
  | c :: cs' =>
      let ents := entities c in
      if bool_decide (seg ∉ ents) then add_connected sc seg ts cs'
      else
        p ← head ents;
        e ← entities_get sc p;
        add_connected sc seg (TrimSegment_add ts (ElConstraint (uid c)) (co e)).2 cs'
  end.

(** The part of [View3D_OT_slvs_trim.fini] that builds the [TrimSegment]. *)
Definition trim_collect (sc : Scene) (seg : Z) (mouse_pos : Vector)
  : option TrimSegment :=
  sk ← active_sketch sc;
  trim ← TrimSegment_init sc seg mouse_pos;
  let trim1 := add_crossings sc seg trim (sketch_entities sc sk) in
  add_connected sc seg trim1 (get_list sc "COINCIDENT" ++ get_list sc "MIDPOINT").

(** [View3D_OT_slvs_trim.fini]: the scene after the call, [None] when it
    raises. *)
Definition trim_fini (sc : Scene) (succeede : bool) (seg : Z)
    (mouse_pos : option Vector) : option Scene :=
  if negb succeede then Some sc
  else
    match mouse_pos with
    | None => Some sc
    | Some mouse_pos =>
        trim ← trim_collect sc seg mouse_pos;
        b ← TrimSegment_check sc trim;
        if negb b then Some sc
        else '(sc1, _) ← TrimSegment_replace sc trim; Some sc1
    end.

(** ** Tweaking a constraint *)

(** [mathutils]: the length [(a - b).length] of the difference of two mouse
    positions, and the distance [6] that [modal] compares it with. *)
Variable mouse_distance : Vector → Vector → Dist.
Variable six : Dist.










(** ** Predicates of the statements *)

(** The segment holder [__init__] builds and the caller then fills with
    [add]: each element of [adds] is one call [trim.add(element, co)]. *)
Definition add_many (ts : TrimSegment) (adds : list (Element * Vector)) : TrimSegment :=
  foldl (λ ts a, (TrimSegment_add ts a.1 a.2).2) ts adds.

(** Every endpoint stands on an entity. *)
Definition endpoints_are_entities (l : list Intersection) : Prop :=
  ∀ intr, intr ∈ l → Intersection_is_endpoint intr = true →
          Intersection_is_entity intr = true.

(** The point of an intersection exists already: [get_point] has nothing
    left to create. *)
Definition materialized (sc : Scene) (intr : Intersection) (p : Z) : Prop :=
  match element intr with
  | ElEntity e =>
      ∃ ent, entities_get sc e = Some ent ∧
             if Entity_is_point ent then p = e else _point intr = Some p
  | ElConstraint u => ∃ c, find_constraint sc u = Some c ∧ head (entities c) = Some p
  | ElOther => _point intr = Some p
  end.

(** The later scene holds everything the earlier one holds. *)
Definition scene_extends (sc sc' : Scene) : Prop :=
  (∀ e ent, entities_get sc e = Some ent → entities_get sc' e = Some ent) ∧
  (∀ u c, find_constraint sc u = Some c → find_constraint sc' u = Some c) ∧
  (∀ c, c ∈ constraints_all sc → c ∈ constraints_all sc').

(** What the loop of [relevant_intersections] decides for one intersection. *)
Definition is_relevant (closest : Z * Z) (intr : Intersection) : bool :=
  if Intersection_is_endpoint intr then negb (in_closest closest (index intr))
  else in_closest closest (index intr).

Definition is_obsolete (closest : Z * Z) (intr : Intersection) : bool :=
  in_closest closest (index intr)
  && (Intersection_is_endpoint intr || Intersection_is_constraint intr).

Definition relevant_at (l : list Intersection) (closest : Z * Z) (r : nat) : bool :=
  match l !! r with Some intr => is_relevant closest intr | None => false end.

Definition obsolete_at (l : list Intersection) (closest : Z * Z) (r : nat) : bool :=
  match l !! r with Some intr => is_obsolete closest intr | None => false end.

(** An index is the first or the last of [n] assigned indices. *)
Definition first_or_last (n : nat) (i : Z) : bool :=
  in_closest (0, Z.of_nat n - 1) i.

(** What a walk from the list [lst] returns: a duplicate-free list of
    references some entity depends on, which extends [lst]. *)
Definition walk_result (sc : Scene) (lst lst' : list Z) : Prop :=
  NoDup lst' ∧ (∀ x, x ∈ lst' → x ∈ all_dependencies sc) ∧
  (∀ x, x ∈ lst → x ∈ lst') ∧ (length lst ≤ length lst')%nat.

(** The points of the intersections [rs] exist already. *)
Definition all_materialized (sc : Scene) (ts : TrimSegment) (rs : list nat) : Prop :=
  ∀ r, r ∈ rs → ∃ intr p, _intersections ts !! r = Some intr ∧ materialized sc intr p.

(** Two states of a segment holder that differ in the intersections only. *)
Definition same_frame (ts ts' : TrimSegment) : Prop :=
  segment ts' = segment ts ∧ reuse_segment ts' = reuse_segment ts ∧
  obsolete_intersections ts' = obsolete_intersections ts.

(** [x.dependencies()] lists [y]. *)
Definition depends_on (sc : Scene) (x y : Z) : Prop :=
  ∃ deps, dependencies_at sc x = Some deps ∧ y ∈ deps.

(** Every dependency of [x] is in the list [lst]. *)
Definition deps_closed (sc : Scene) (lst : list Z) (x : Z) : Prop :=
  ∀ y, depends_on sc x y → y ∈ lst.

(** What a returning walk from [e] adds to [lst]: entities reached from
    [e], each with all its dependencies in the result. *)
Definition walk_reach (sc : Scene) (from : Z → Prop) (lst lst' : list Z) : Prop :=
  (∀ x, x ∈ lst' → x ∈ lst ∨ ∃ d, from d ∧ rtc (depends_on sc) d x) ∧
  (∀ x, x ∈ lst' → x ∈ lst ∨ deps_closed sc lst' x) ∧
  (∀ x, x ∈ lst → x ∈ lst').

(** What makes [<] on distances an order a sort can work with: no two
    distances are each less than the other, and a distance that is not less
    than a second one, which is not less than a third, is not less than the
    third. *)
Definition strict_weak_order : Prop :=
  (∀ a b, dist_lt a b = true → dist_lt b a = false) ∧
  (∀ a b c, dist_lt a b = false → dist_lt b c = false → dist_lt a c = false).

(** [x] goes before [y] in a stable sort by [key]: the key of [y] is not
    less than that of [x], and when the key of [x] is not less either, [x]
    came first ([rank] is the position in the input). *)
Definition stable_before {A} (rank : A → nat) (key : A → Dist) (x y : A) : Prop :=
  dist_lt (key y) (key x) = false ∧
  (dist_lt (key x) (key y) = true ∨ (rank x < rank y)%nat).

(** The distance [_sorted] sorts an intersection by. *)
Definition distance_of (sc : Scene) (ts : TrimSegment) (intr : Intersection) : Dist :=
  distance_along_segment sc (segment ts) (pos ts) (intr_co intr).

(** No entity of the scene lists a dependency that is not in the scene. *)
Definition deps_live (sc : Scene) : Prop :=
  map_Forall (λ _ e, Forall (λ y, is_Some (entities_get sc y)) (default [] (dependencies e)))
             (sc_entities sc).

(** Where [fini] takes an intersection from: a connection point of the
    trimmed segment when this is not closed, another segment of the active sketch at a place where
    the two cross, or a coincident or midpoint constraint that references
    the trimmed segment, at the position of the first entity of the
    constraint.  No intersection has an index or a point yet. *)
Definition trim_collected (sc : Scene) (seg : Z) (intr : Intersection) : Prop :=
  index intr = -1 ∧ _point intr = None ∧
  match element intr with
  | ElEntity e =>
      if _is_endpoint intr then
        ∃ ent p, entities_get sc seg = Some ent ∧ Entity_is_closed ent = false ∧
                 e ∈ connection_points ent ∧
                 entities_get sc e = Some p ∧ intr_co intr = co p
      else
        e ≠ seg ∧ intr_co intr ∈ intersect sc seg e ∧
        ∃ ent, entities_get sc e = Some ent ∧ Entity_is_segment ent = true ∧
               sketch_i ent = active_sketch sc
  | ElConstraint u =>
      _is_endpoint intr = false ∧
      ∃ c p ent, c ∈ get_list sc "COINCIDENT" ++ get_list sc "MIDPOINT" ∧ uid c = u ∧
                 seg ∈ entities c ∧ head (entities c) = Some p ∧
                 entities_get sc p = Some ent ∧ intr_co intr = co ent
  | ElOther => False
  end.

(** The constraint store as the host keeps it: one collection for each
    type, which holds the constraints of that type, and no constraint object
    twice. *)
Definition constraints_wf (sc : Scene) : Prop :=
  NoDup (sc_constraints sc).*1 ∧
  Forall (λ p : string * list Constraint, Forall (λ c, type c = p.1) p.2)
         (sc_constraints sc) ∧
  NoDup (uid <$> constraints_all sc).

(** At most one constraint of each collection depends on [entity]. *)
Definition single_dependents (entity : Z) (cs : list (string * list Constraint)) : Prop :=
  Forall (λ p : string * list Constraint,
            (length (filter (λ c, entity ∈ Constraint_dependencies c) p.2) ≤ 1)%nat) cs.

(** A collection without the constraints that depend on [entity]. *)
Definition without_dependents (entity : Z) (p : string * list Constraint)
  : string * list Constraint :=
  (p.1, filter (λ c, entity ∉ Constraint_dependencies c) p.2).

(** The entities [ents] with the first occurrence of [seg] replaced by
    [new_segment]. *)
Definition replace_first (seg new_segment : Z) (ents : list Z) : list Z :=
  match list_index seg ents with
  | Some i => <[i := new_segment]> ents
  | None => ents
  end.

(** The constraint [c] made to reference [new_segment] where it first
    referenced [seg]. *)
Definition retarget (seg new_segment : Z) (c : Constraint) : Constraint :=
  mkConstraint (uid c) (type c) (replace_first seg new_segment (entities c)) (sketch c).

(** What the [setattr] of [replace] makes of the constraint [c], given the
    dictionary [constrs]: the entity field is chosen from the list the
    dictionary holds for [c]. *)
Definition remap_by (seg new_segment : Z) (constrs : list (nat * list Z))
    (c : Constraint) : Constraint :=
  match list_find (λ p : nat * list Z, p.1 = uid c) constrs with
  | Some (_, (_, ents)) =>
      match list_index seg ents with
      | Some i => mkConstraint (uid c) (type c) (<[i := new_segment]> (entities c)) (sketch c)
      | None => c
      end
  | None => c
  end.

(** Every entity of the later scene was in the earlier one, the same but
    for its position. *)
Definition kept_or_removed (sc sc' : Scene) : Prop :=
  ∀ j ent', entities_get sc' j = Some ent' →
            ∃ ent, entities_get sc j = Some ent ∧ ent' = set_co (co ent') ent.

(** Every sketch of the later scene was a sketch of the earlier one, under
    the same index. *)
Definition no_new_sketch (sc sc' : Scene) : Prop :=
  ∀ i ent', entities_get sc' i = Some ent' → Entity_is_sketch ent' = true →
            ∃ ent, entities_get sc i = Some ent ∧ Entity_is_sketch ent = true.

(** The entity [e], when it is in the scene, is no sketch. *)
Definition no_sketch_at (sc : Scene) (e : Z) : Prop :=
  ∀ ent, entities_get sc e = Some ent → Entity_is_sketch ent = false.



(** The positions, counted from [k], of the constraints of [l] that depend
    on [entity]. *)
Fixpoint positions_from (k : nat) (entity : Z) (l : list Constraint) : list nat :=
  match l with
  | [] => []
  | c :: l' =>
      if bool_decide (entity ∈ Constraint_dependencies c)
      then k :: positions_from (S k) entity l'
      else positions_from (S k) entity l'
  end.

(** * Properties *)

(** ** Classification of intersections *)

Lemma is_entity_not_constraint intr :
  Intersection_is_entity intr && Intersection_is_constraint intr = false.
Proof. unfold Intersection_is_entity, Intersection_is_constraint. by destruct (element intr). Qed.

Lemma endpoints_are_entities_app l1 l2 :
  endpoints_are_entities l1 → endpoints_are_entities l2 →
  endpoints_are_entities (l1 ++ l2).
Proof.
  intros H1 H2 intr Hin. apply elem_of_app in Hin as [Hin|Hin]; [by apply H1|by apply H2].
Qed.

Lemma endpoints_are_entities_snoc l el c b :
  endpoints_are_entities l →
  endpoints_are_entities (alter (set_is_endpoint b) (length l) (l ++ [Intersection_init (ElEntity el) c])).
Proof.
  intros Hl intr Hin.
  rewrite alter_app_r_alt in Hin by lia. rewrite Nat.sub_diag in Hin. simpl in Hin.
  apply elem_of_app in Hin as [Hin|Hin]; [by apply Hl|].
  apply list_elem_of_singleton in Hin as ->. done.
Qed.

Lemma add_endpoints_are_entities sc ps : ∀ ts ts',
  endpoints_are_entities (_intersections ts) →
  add_endpoints sc ts ps = Some ts' →
  endpoints_are_entities (_intersections ts').
Proof.
  induction ps as [|p ps IH]; intros ts ts' Hts Hadd; simpl in Hadd.
  - by simplify_eq.
  - destruct (entities_get sc p) as [e|]; simpl in Hadd; [|done].
    eapply IH; [|exact Hadd]. simpl. by apply endpoints_are_entities_snoc.
Qed.

Lemma init_endpoints_are_entities sc seg p ts :
  TrimSegment_init sc seg p = Some ts → endpoints_are_entities (_intersections ts).
Proof.
  unfold TrimSegment_init. intros H.
  destruct (entities_get sc seg) as [e|]; simpl in H; [|done].
  destruct (Entity_is_closed e).
  - simplify_eq. simpl. intros ? Hin. by apply elem_of_nil in Hin.
  - eapply add_endpoints_are_entities; [|exact H]. simpl. intros ? Hin. by apply elem_of_nil in Hin.
Qed.

Lemma add_many_endpoints_are_entities adds : ∀ ts,
  endpoints_are_entities (_intersections ts) →
  endpoints_are_entities (_intersections (add_many ts adds)).
Proof.
  induction adds as [|[el c] adds IH]; intros ts Hts; [done|].
  apply IH. simpl. apply endpoints_are_entities_app; [done|].
  intros intr Hin. apply list_elem_of_singleton in Hin as ->. done.
Qed.

(** C9, as the code has it: an intersection is never both an entity
    intersection and a constraint-implied point, but [is_endpoint] is a
    flag of its own: every endpoint of a segment holder built by
    [__init__] and filled with [add] is also an entity intersection, and
    is no constraint-implied point. *)
Theorem endpoint_is_entity_intersection sc seg p ts adds intr :
  TrimSegment_init sc seg p = Some ts →
  intr ∈ _intersections (add_many ts adds) →
  Intersection_is_entity intr && Intersection_is_constraint intr = false ∧
  (Intersection_is_endpoint intr = true →
   Intersection_is_entity intr = true ∧ Intersection_is_constraint intr = false).
Proof.
  intros Hinit Hin. split; [apply is_entity_not_constraint|].
  intros Hend.
  assert (Intersection_is_entity intr = true) as He.
  { eapply add_many_endpoints_are_entities; [|exact Hin|exact Hend].
    by eapply init_endpoints_are_entities. }
  split; [done|]. pose proof (is_entity_not_constraint intr) as H.
  rewrite He in H. done.
Qed.

(** ** Materializing the point of an intersection *)

Lemma new_index_fresh sc : sc_entities sc !! new_index sc = None.
Proof. apply not_elem_of_dom. unfold new_index. apply is_fresh. Qed.

Lemma scene_extends_refl sc : scene_extends sc sc.
Proof. by split_and!. Qed.

Lemma scene_extends_trans sc1 sc2 sc3 :
  scene_extends sc1 sc2 → scene_extends sc2 sc3 → scene_extends sc1 sc3.
Proof. intros (H1 & H2 & H3) (H4 & H5 & H6). split_and!; eauto. Qed.

Lemma append_constraint_all cs c :
  ∃ l1 l2, concat (map snd cs) = l1 ++ l2 ∧
           concat (map snd (append_constraint cs c)) = l1 ++ c :: l2.
Proof.
  induction cs as [|[t l] cs (l1 & l2 & H1 & H2)]; simpl.
  - by exists [], [].
  - case_bool_decide; simpl.
    + exists l, (concat (map snd cs)). by rewrite <-app_assoc.
    + exists (l ++ l1), l2. rewrite H1, H2. by rewrite <-!app_assoc.
Qed.

Lemma find_constraint_elem sc u c : find_constraint sc u = Some c → c ∈ constraints_all sc.
Proof.
  unfold find_constraint. intros H. apply head_Some_elem_of in H.
  by apply list_elem_of_filter in H as [_ ?].
Qed.

Lemma find_constraint_uid sc u c : find_constraint sc u = Some c → uid c = u.
Proof.
  unfold find_constraint. intros H. apply head_Some_elem_of in H.
  by apply list_elem_of_filter in H as [? _].
Qed.

Lemma new_uid_fresh sc c : c ∈ constraints_all sc → uid c ≠ new_uid sc.
Proof.
  intros Hc. unfold new_uid.
  assert (uid c ≤ max_list (uid <$> constraints_all sc))%nat; [|lia].
  apply max_list_elem_of_le. by apply list_elem_of_fmap_2.
Qed.

Lemma add_constraint_extends sc t ents sk : scene_extends sc (add_constraint sc t ents sk).2.
Proof.
  split_and!; [done| |].
  - intros u c Hc. pose proof (find_constraint_elem _ _ _ Hc) as Hin.
    pose proof (find_constraint_uid _ _ _ Hc) as Hu.
    unfold find_constraint, constraints_all in Hc, Hin |- *. simpl.
    destruct (append_constraint_all (sc_constraints sc)
                (mkConstraint (new_uid sc) t ents sk)) as (l1 & l2 & H1 & ->).
    rewrite H1 in Hc. rewrite filter_app, filter_cons_False.
    + by rewrite <-filter_app.
    + simpl. intros Heq. apply (new_uid_fresh sc c Hin). congruence.
  - intros c. unfold constraints_all. simpl.
    destruct (append_constraint_all (sc_constraints sc)
                (mkConstraint (new_uid sc) t ents sk)) as (l1 & l2 & -> & ->).
    rewrite !elem_of_app, elem_of_cons. intros [?|?]; auto.
Qed.

Lemma add_point_2d_extends sc c sk : scene_extends sc (add_point_2d sc c sk).2.
Proof.
  split_and!; [|done|done]. intros e ent He. unfold add_point_2d, entities_get in *. simpl.
  rewrite lookup_insert_ne; [done|]. intros <-. by rewrite new_index_fresh in He.
Qed.

Lemma materialized_get_point sc intr p :
  materialized sc intr p → Intersection_get_point sc intr = Some (p, sc, intr).
Proof.
  unfold materialized, Intersection_get_point.
  destruct (element intr) as [e|u|].
  - intros (ent & -> & H). simpl. destruct (Entity_is_point ent); [by subst|by rewrite H].
  - intros (c & -> & H). simpl. by rewrite H.
  - by intros ->.
Qed.

Lemma materialized_extends sc sc' intr p :
  scene_extends sc sc' → materialized sc intr p → materialized sc' intr p.
Proof.
  intros (He & Hc & _). unfold materialized. destruct (element intr) as [e|u|]; [| |done].
  - intros (ent & Hent & H). exists ent. eauto.
  - intros (c & Hfind & H). exists c. eauto.
Qed.

(** What one [get_point] does: the scene only grows, by at most a point and
    a constraint; the intersection keeps all but its cached point; and the
    point returned is materialized from then on. *)
Lemma get_point_spec sc intr p sc1 intr1 :
  Intersection_get_point sc intr = Some (p, sc1, intr1) →
  materialized sc1 intr1 p ∧ scene_extends sc sc1 ∧
  (∃ q, intr1 = set_point q intr) ∧
  (size (sc_entities sc1) ≤ S (size (sc_entities sc)))%nat ∧
  (length (constraints_all sc1) ≤ S (length (constraints_all sc)))%nat.
Proof.
  unfold Intersection_get_point. intros H.
  assert (∀ i : Intersection, i = set_point (_point i) i) as Hid by by intros [].
  destruct (element intr) as [e|u|] eqn:Hel.
  - destruct (entities_get sc e) as [ent|] eqn:Hent; simpl in H; [|done].
    destruct (Entity_is_point ent) eqn:Hpt.
    { simplify_eq. split_and!; [|apply scene_extends_refl|eauto|lia|lia].
      unfold materialized. rewrite Hel. exists ent. by rewrite Hpt. }
    destruct (_point intr) as [q|] eqn:Hq.
    { simplify_eq. split_and!; [|apply scene_extends_refl|eauto|lia|lia].
      unfold materialized. rewrite Hel. exists ent. by rewrite Hpt. }
    remember (add_point_2d sc (intr_co intr) (active_sketch sc)) as r1 eqn:Hr1.
    destruct r1 as [q sc2].
    remember (add_coincident sc2 q e (active_sketch sc)) as r2 eqn:Hr2.
    destruct r2 as [c0 sc3]. simplify_eq.
    assert (scene_extends sc sc2) as Hext1.
    { pose proof (add_point_2d_extends sc (intr_co intr) (active_sketch sc)) as H1.
      by rewrite <-Hr1 in H1. }
    assert (scene_extends sc2 sc3) as Hext2.
    { pose proof (add_constraint_extends sc2 "COINCIDENT" [q; e] (active_sketch sc)) as H2.
      unfold add_coincident in Hr2. by rewrite <-Hr2 in H2. }
    assert (entities_get sc3 e = Some ent) as Hent3.
    { destruct Hext1 as [He1 _], Hext2 as [He2 _]. auto. }
    assert (scene_extends sc sc3) as Hext by by eapply scene_extends_trans.
    clear Hext1 Hext2.
    unfold add_coincident, add_constraint, add_point_2d in Hr1, Hr2. simplify_eq.
    split_and!.
    + unfold materialized. simpl. rewrite Hel. exists ent. rewrite Hpt.
      split; [exact Hent3|done].
    + exact Hext.
    + eauto.
    + simpl. rewrite map_size_insert. by rewrite new_index_fresh.
    + unfold constraints_all. simpl.
      match goal with
      | |- context [append_constraint ?cs ?c] =>
          destruct (append_constraint_all cs c) as (l1 & l2 & -> & ->)
      end.
      rewrite !length_app. simpl. lia.
  - destruct (find_constraint sc u) as [c|] eqn:Hc; simpl in H; [|done].
    destruct (head (entities c)) as [q|] eqn:Hh; simpl in H; [|done].
    simplify_eq. split_and!; [|apply scene_extends_refl|eauto|lia|lia].
    unfold materialized. rewrite Hel. eauto.
  - destruct (_point intr) as [q|] eqn:Hq.
    { simplify_eq. split_and!; [|apply scene_extends_refl|eauto|lia|lia].
      unfold materialized. by rewrite Hel. }
    unfold add_point_2d in H. simplify_eq. split_and!.
    + unfold materialized. simpl. by rewrite Hel.
    + apply (add_point_2d_extends sc (intr_co intr) (active_sketch sc)).
    + eauto.
    + simpl. rewrite map_size_insert. by rewrite new_index_fresh.
    + unfold constraints_all. simpl. lia.
Qed.

(** C8: a second [get_point] on the same intersection returns the point
    the first call returned and leaves the scene and the intersection as
    the first call left them; the first call adds at most one entity and
    at most one constraint. *)
Theorem get_point_twice sc intr p sc1 intr1 :
  Intersection_get_point sc intr = Some (p, sc1, intr1) →
  Intersection_get_point sc1 intr1 = Some (p, sc1, intr1) ∧
  (size (sc_entities sc1) ≤ S (size (sc_entities sc)))%nat ∧
  (length (constraints_all sc1) ≤ S (length (constraints_all sc)))%nat.
Proof.
  intros H. destruct (get_point_spec _ _ _ _ _ H) as (Hm & _ & _ & Hs & Hl).
  split_and!; [|done|done]. by apply materialized_get_point.
Qed.

(** ** Ordering and indexing the intersections *)

Lemma insert_sorted_perm {A} (key : A → Dist) x l : insert_sorted key x l ≡ₚ x :: l.
Proof.
  induction l as [|y l IH]; simpl; [done|].
  destruct (dist_lt (key x) (key y)); [done|].
  rewrite IH. apply Permutation_swap.
Qed.

Lemma sorted_perm {A} (key : A → Dist) l : sorted key l ≡ₚ l.
Proof.
  unfold sorted. rewrite <-(app_nil_r l) at 2. generalize (@nil A).
  induction l as [|x l IH]; intros acc; simpl; [done|].
  rewrite IH, insert_sorted_perm. by rewrite Permutation_middle.
Qed.

Lemma fst_imap_pair {A} (l : list A) : map fst (imap pair l) = seq 0 (length l).
Proof.
  apply list_eq. intros i.
  change (map fst (imap pair l)) with (fst <$> imap pair l).
  rewrite list_lookup_fmap, list_lookup_imap.
  destruct (l !! i) as [x|] eqn:Hx; simpl.
  - symmetry. apply lookup_seq. split; [done|]. by eapply lookup_lt_Some.
  - symmetry. apply lookup_seq_ge. by apply lookup_ge_None.
Qed.

Lemma sorted_refs_perm sc ts :
  TrimSegment__sorted sc ts ≡ₚ seq 0 (length (_intersections ts)).
Proof.
  unfold TrimSegment__sorted. rewrite <-fst_imap_pair.
  apply Permutation_map. apply sorted_perm.
Qed.

Lemma sorted_refs_length sc ts :
  length (TrimSegment__sorted sc ts) = length (_intersections ts).
Proof. rewrite (Permutation_length (sorted_refs_perm sc ts)). apply length_seq. Qed.

Lemma sorted_refs_NoDup sc ts : NoDup (TrimSegment__sorted sc ts).
Proof. rewrite sorted_refs_perm. apply NoDup_seq. Qed.

Lemma sorted_refs_elem sc ts r :
  r ∈ TrimSegment__sorted sc ts ↔ (r < length (_intersections ts))%nat.
Proof. rewrite sorted_refs_perm, elem_of_seq. lia. Qed.

Lemma insert_sorted_map {A B} (f : A → B) (key : B → Dist) x l :
  map f (insert_sorted (key ∘ f) x l) = insert_sorted key (f x) (map f l).
Proof.
  induction l as [|y l IH]; simpl; [done|].
  destruct (dist_lt (key (f x)) (key (f y))); simpl; [done|]. by rewrite IH.
Qed.

Lemma sorted_map {A B} (f : A → B) (key : B → Dist) l :
  map f (sorted (key ∘ f) l) = sorted key (map f l).
Proof.
  unfold sorted. change (@nil B) with (map f []). generalize (@nil A).
  induction l as [|x l IH]; intros acc; simpl; [done|].
  by rewrite IH, insert_sorted_map.
Qed.

Lemma imap_pair_map {A B} (f : A → B) (l : list A) :
  map (λ p : nat * A, (p.1, f p.2)) (imap pair l) = imap pair (map f l).
Proof.
  apply list_eq. intros i. change (map ?g ?k) with (g <$> k).
  rewrite list_lookup_fmap, !list_lookup_imap, list_lookup_fmap.
  by destruct (l !! i).
Qed.

(** The order depends on the coordinates of the intersections only. *)
Lemma sorted_refs_ext sc ts1 ts2 :
  segment ts1 = segment ts2 → pos ts1 = pos ts2 →
  map intr_co (_intersections ts1) = map intr_co (_intersections ts2) →
  TrimSegment__sorted sc ts1 = TrimSegment__sorted sc ts2.
Proof.
  unfold TrimSegment__sorted. intros -> -> Hco.
  set (key := λ p : nat * Vector,
                distance_along_segment sc (segment ts2) (pos ts2) p.2).
  set (f := λ p : nat * Intersection, (p.1, intr_co p.2)).
  assert (∀ l : list Intersection,
            map fst (sorted (key ∘ f) (imap pair l))
            = map fst (sorted key (imap pair (map intr_co l)))) as Hs.
  { intros l. rewrite <-imap_pair_map, <-sorted_map, map_map. done. }
  change (map fst (sorted (key ∘ f) (imap pair (_intersections ts1)))
          = map fst (sorted (key ∘ f) (imap pair (_intersections ts2)))).
  by rewrite !Hs, Hco.
Qed.

Lemma assign_indices_length refs : ∀ i l,
  length (assign_indices i refs l) = length l.
Proof.
  induction refs as [|r refs IH]; intros i l; simpl; [done|].
  rewrite IH. apply length_alter.
Qed.

Lemma assign_indices_lookup_notin refs : ∀ i l r,
  r ∉ refs → assign_indices i refs l !! r = l !! r.
Proof.
  induction refs as [|r' refs IH]; intros i l r Hr; simpl; [done|].
  apply not_elem_of_cons in Hr as [Hne Hr].
  rewrite IH by done. by apply list_lookup_alter_ne.
Qed.

Lemma assign_indices_lookup refs : ∀ i l k r,
  NoDup refs → refs !! k = Some r →
  assign_indices i refs l !! r = set_index (i + Z.of_nat k) <$> l !! r.
Proof.
  induction refs as [|r' refs IH]; intros i l k r Hnd Hk; [done|].
  apply NoDup_cons in Hnd as [Hnotin Hnd]. destruct k as [|k]; simpl in *.
  - simplify_eq. rewrite assign_indices_lookup_notin by done.
    rewrite list_lookup_alter_eq. by rewrite Z.add_0_r.
  - rewrite (IH _ _ k) by done.
    rewrite list_lookup_alter_ne.
    + f_equal. f_equal. lia.
    + intros ->. apply Hnotin. by eapply list_elem_of_lookup_2.
Qed.

Lemma assign_indices_co refs : ∀ i l,
  map intr_co (assign_indices i refs l) = map intr_co l.
Proof.
  induction refs as [|r refs IH]; intros i l; simpl; [done|].
  rewrite IH. apply list_eq. intros j. change (map ?f ?l) with (f <$> l).
  rewrite !list_lookup_fmap. destruct (decide (r = j)) as [->|Hne].
  - rewrite list_lookup_alter_eq. by destruct (l !! j).
  - by rewrite list_lookup_alter_ne.
Qed.

(** After [get_intersections], the index of an intersection is its rank in
    the order, and nothing else about it has changed. *)
Lemma get_intersections_lookup sc ts k r :
  TrimSegment__sorted sc ts !! k = Some r →
  _intersections (TrimSegment_get_intersections sc ts).2 !! r
  = set_index (Z.of_nat k) <$> _intersections ts !! r.
Proof.
  intros Hk. simpl. rewrite (assign_indices_lookup _ _ _ k) by (done || apply sorted_refs_NoDup).
  done.
Qed.

Lemma get_intersections_rank sc ts r :
  (r < length (_intersections ts))%nat →
  ∃ k intr, TrimSegment__sorted sc ts !! k = Some r ∧
            (k < length (_intersections ts))%nat ∧
            _intersections ts !! r = Some intr ∧
            _intersections (TrimSegment_get_intersections sc ts).2 !! r
            = Some (set_index (Z.of_nat k) intr).
Proof.
  intros Hr. assert (r ∈ TrimSegment__sorted sc ts) as Hin by by apply sorted_refs_elem.
  apply list_elem_of_lookup in Hin as [k Hk].
  destruct (lookup_lt_is_Some_2 _ _ Hr) as [intr Hintr].
  exists k, intr. split_and!; [done| |done|].
  - apply lookup_lt_Some in Hk. by rewrite sorted_refs_length in Hk.
  - rewrite (get_intersections_lookup _ _ k) by done. by rewrite Hintr.
Qed.

(** ** Classifying the relevant intersections *)

Lemma relevant_step_eq closest r intr relevant obsolete :
  relevant_step closest r intr (relevant, obsolete)
  = (if is_relevant closest intr then relevant ++ [r] else relevant,
     if is_obsolete closest intr then mark_obsolete r obsolete else obsolete).
Proof.
  unfold relevant_step, is_relevant, is_obsolete.
  destruct (Intersection_is_endpoint intr), (in_closest closest (index intr)),
    (Intersection_is_constraint intr); done.
Qed.

Lemma elem_of_mark_obsolete r r' obsolete :
  r' ∈ mark_obsolete r obsolete ↔ r' ∈ obsolete ∨ r' = r.
Proof.
  unfold mark_obsolete. case_bool_decide as Hin.
  - split; [auto|]. intros [?| ->]; done.
  - rewrite elem_of_app, list_elem_of_singleton. done.
Qed.

Lemma mark_obsolete_NoDup r obsolete : NoDup obsolete → NoDup (mark_obsolete r obsolete).
Proof.
  unfold mark_obsolete. intros Hnd. case_bool_decide as Hin; [done|].
  apply NoDup_app. split_and!; [done| |apply NoDup_singleton].
  intros x Hx Hx'. apply list_elem_of_singleton in Hx' as ->. done.
Qed.

Local Arguments relevant_step : simpl never.

Lemma relevant_loop_spec closest l ordered : ∀ relevant obsolete,
  (∀ r, r ∈ ordered → is_Some (l !! r)) →
  ∃ obsolete',
    relevant_loop closest l ordered (relevant, obsolete)
    = Some (relevant ++ filter (λ r, relevant_at l closest r = true) ordered, obsolete') ∧
    (∀ r, r ∈ obsolete' ↔
          r ∈ obsolete ∨ (r ∈ ordered ∧ obsolete_at l closest r = true)) ∧
    (NoDup obsolete → NoDup obsolete').
Proof.
  induction ordered as [|r ordered IH]; intros relevant obsolete Hin; simpl.
  - exists obsolete. rewrite app_nil_r. split_and!; [done| |done].
    intros r. split; [auto|]. intros [?|[H _]]; [done|]. by apply elem_of_nil in H.
  - destruct (Hin r) as [intr Hintr]; [by left|]. rewrite Hintr. simpl.
    rewrite relevant_step_eq.
    edestruct IH as (obsolete' & -> & Hobs & Hnd).
    { intros r' Hr'. apply Hin. by right. }
    assert (relevant_at l closest r = is_relevant closest intr) as Hrel
      by (unfold relevant_at; by rewrite Hintr).
    assert (obsolete_at l closest r = is_obsolete closest intr) as Hobs'
      by (unfold obsolete_at; by rewrite Hintr).
    exists obsolete'. split_and!.
    + f_equal. f_equal. rewrite filter_cons, Hrel.
      destruct (is_relevant closest intr).
      * rewrite decide_True by done. by rewrite <-app_assoc.
      * rewrite decide_False by done. done.
    + intros r'. rewrite Hobs, elem_of_cons.
      destruct (is_obsolete closest intr) eqn:Ho.
      * rewrite elem_of_mark_obsolete. split.
        -- intros [[?| ->]|[? ?]]; auto.
        -- intros [?|[[->|?] Hr']]; auto.
      * split.
        -- intros [?|[? ?]]; auto.
        -- intros [?|[[->|?] Hr']]; auto. congruence.
    + intros Hnd'. apply Hnd. destruct (is_obsolete closest intr); [|done].
      by apply mark_obsolete_NoDup.
Qed.

(** [relevant_intersections] when some intersection was collected: the
    first and the last of the order carry the indices [0] and [n - 1]. *)
Lemma relevant_intersections_unfold sc ts :
  _intersections ts ≠ [] →
  TrimSegment_relevant_intersections sc ts
  = let ordered := TrimSegment__sorted sc ts in
    let ts1 := set_intersections ts (assign_indices 0 ordered (_intersections ts)) in
    '(relevant, obsolete) ←
      relevant_loop (0, Z.of_nat (length (_intersections ts)) - 1)
                    (_intersections ts1) ordered ([], obsolete_intersections ts);
    Some (relevant, set_obsolete ts1 obsolete).
Proof.
  intros Hne. unfold TrimSegment_relevant_intersections, TrimSegment_get_intersections.
  cbv beta iota zeta.
  pose proof (sorted_refs_length sc ts) as Hlen.
  pose proof (sorted_refs_NoDup sc ts) as Hnd.
  assert (0 < length (_intersections ts))%nat as Hpos.
  { destruct (_intersections ts); [done|simpl; lia]. }
  assert (∀ r, r ∈ TrimSegment__sorted sc ts → (r < length (_intersections ts))%nat)
    as Helem by (intros r; apply sorted_refs_elem).
  generalize dependent (TrimSegment__sorted sc ts). intros ordered Hlen Hnd Helem.
  assert (∃ r0, head ordered = Some r0) as [r0 Hr0].
  { destruct ordered; [simpl in Hlen; lia|eauto]. }
  assert (∃ rn, last ordered = Some rn) as [rn Hrn].
  { destruct (last ordered) eqn:Hl; [eauto|]. apply last_None in Hl.
    rewrite Hl in Hlen. simpl in Hlen. lia. }
  assert (ordered !! 0%nat = Some r0) as Hk0 by by rewrite <-head_lookup.
  assert (ordered !! (length (_intersections ts) - 1)%nat = Some rn) as Hkn.
  { rewrite last_lookup, Hlen in Hrn. rewrite <-Hrn. f_equal. lia. }
  assert (∀ k r, ordered !! k = Some r →
            ∃ intr, assign_indices 0 ordered (_intersections ts) !! r
                    = Some (set_index (Z.of_nat k) intr)) as Hidx.
  { intros k r Hk. rewrite (assign_indices_lookup _ _ _ k) by done.
    assert (r < length (_intersections ts))%nat as Hr.
    { apply Helem. by eapply list_elem_of_lookup_2. }
    destruct (lookup_lt_is_Some_2 _ _ Hr) as [intr Hintr]. exists intr. by rewrite Hintr. }
  destruct (Hidx _ _ Hk0) as (i0 & Hi0).
  destruct (Hidx _ _ Hkn) as (i_n & Hin).
  rewrite Hr0, Hrn. simpl. rewrite Hi0, Hin. simpl. change (Z.of_nat 0) with 0.
  replace (Z.of_nat (length (_intersections ts) - 1))
    with (Z.of_nat (length (_intersections ts)) - 1) by lia.
  done.
Qed.

(** X1: the classification [relevant_intersections] computes whenever some
    intersection was collected.  After the call the index of each
    intersection is its rank in the order by distance along the segment,
    and, over these indices:
    - the relevant list holds, in that order and once each, the endpoints
      whose index is neither first nor last and the other intersections
      whose index is first or last;
    - the obsolete list has gained the endpoints and the constraint-implied
      intersections whose index is first or last, each recorded once. *)
Theorem relevant_intersections_classified sc ts :
  _intersections ts ≠ [] →
  ∃ relevant ts',
    TrimSegment_relevant_intersections sc ts = Some (relevant, ts') ∧
    let n := length (_intersections ts) in
    let ordered := TrimSegment__sorted sc ts in
    ordered ≡ₚ seq 0 n ∧
    (∀ k r, ordered !! k = Some r →
            _intersections ts' !! r = set_index (Z.of_nat k) <$> _intersections ts !! r) ∧
    relevant = filter (λ r, match _intersections ts' !! r with
                            | Some intr =>
                                if Intersection_is_endpoint intr
                                then negb (first_or_last n (index intr))
                                else first_or_last n (index intr)
                            | None => false
                            end = true) ordered ∧
    (∀ r, r ∈ obsolete_intersections ts' ↔
          r ∈ obsolete_intersections ts ∨
          ∃ intr, _intersections ts' !! r = Some intr ∧
                  first_or_last n (index intr) = true ∧
                  (Intersection_is_endpoint intr = true ∨
                   Intersection_is_constraint intr = true)) ∧
    (NoDup (obsolete_intersections ts) → NoDup (obsolete_intersections ts')).
Proof.
  intros Hne. rewrite relevant_intersections_unfold by done. cbv zeta.
  pose proof (sorted_refs_perm sc ts) as Hperm.
  pose proof (sorted_refs_NoDup sc ts) as Hnd0.
  assert (∀ r, r ∈ TrimSegment__sorted sc ts ↔ (r < length (_intersections ts))%nat)
    as Helem by (intros r; apply sorted_refs_elem).
  generalize dependent (TrimSegment__sorted sc ts). intros ordered Hperm Hnd0 Helem.
  set (l1 := assign_indices 0 ordered (_intersections ts)).
  assert (length l1 = length (_intersections ts)) as Hlen1 by apply assign_indices_length.
  assert (∀ k r, ordered !! k = Some r →
            l1 !! r = set_index (Z.of_nat k) <$> _intersections ts !! r) as Hlook.
  { intros k r Hk. unfold l1. by rewrite (assign_indices_lookup _ _ _ k). }
  clearbody l1.
  edestruct (relevant_loop_spec (0, Z.of_nat (length (_intersections ts)) - 1)
               l1 ordered [] (obsolete_intersections ts))
    as (obsolete' & Hloop & Hobs & Hnd).
  { intros r Hr. apply lookup_lt_is_Some_2. rewrite Hlen1. by apply Helem. }
  change (_intersections (set_intersections ts l1)) with l1.
  rewrite Hloop. simpl.
  eexists _, _. split; [done|]. simpl. split_and!; [done|done|done| |done].
  intros r. rewrite Hobs. split.
  - intros [?|[Hr Ho]]; [by left|]. right. unfold obsolete_at in Ho.
    destruct (l1 !! r) as [intr|] eqn:Hintr; [|done].
    exists intr. unfold is_obsolete in Ho. apply andb_true_iff in Ho as [? Ho].
    apply orb_true_iff in Ho. done.
  - intros [?|(intr & Hintr & Hfl & He)]; [by left|]. right. split.
    + apply Helem. rewrite <-Hlen1. by eapply lookup_lt_Some.
    + unfold obsolete_at. rewrite Hintr. unfold is_obsolete.
      apply andb_true_iff. split; [done|]. by apply orb_true_iff.
Qed.

Lemma assign_indices_again refs i l :
  NoDup refs → assign_indices i refs (assign_indices i refs l) = assign_indices i refs l.
Proof.
  intros Hnd. apply list_eq. intros r.
  destruct (decide (r ∈ refs)) as [Hin|Hnotin].
  - apply list_elem_of_lookup in Hin as [k Hk].
    rewrite !(assign_indices_lookup _ _ _ k) by done.
    by destruct (l !! r).
  - by rewrite !assign_indices_lookup_notin.
Qed.

Lemma mark_obsolete_elem r obsolete : r ∈ obsolete → mark_obsolete r obsolete = obsolete.
Proof. intros Hin. unfold mark_obsolete. by rewrite bool_decide_eq_true_2. Qed.

Lemma relevant_loop_again closest l ordered : ∀ relevant obsolete,
  (∀ r, r ∈ ordered → is_Some (l !! r)) →
  (∀ r, r ∈ ordered → obsolete_at l closest r = true → r ∈ obsolete) →
  relevant_loop closest l ordered (relevant, obsolete)
  = Some (relevant ++ filter (λ r, relevant_at l closest r = true) ordered, obsolete).
Proof.
  induction ordered as [|r ordered IH]; intros relevant obsolete Hin Hobs; simpl.
  - by rewrite app_nil_r.
  - destruct (Hin r) as [intr Hintr]; [by left|]. rewrite Hintr. simpl.
    rewrite relevant_step_eq.
    assert (relevant_at l closest r = is_relevant closest intr) as Hrel
      by (unfold relevant_at; by rewrite Hintr).
    assert (obsolete_at l closest r = is_obsolete closest intr) as Hobs'
      by (unfold obsolete_at; by rewrite Hintr).
    assert ((if is_obsolete closest intr then mark_obsolete r obsolete else obsolete)
            = obsolete) as ->.
    { destruct (is_obsolete closest intr) eqn:Ho; [|done].
      apply mark_obsolete_elem, Hobs; [by left|]. by rewrite Hobs'. }
    rewrite IH.
    + f_equal. f_equal. rewrite filter_cons, Hrel.
      destruct (is_relevant closest intr).
      * rewrite decide_True by done. by rewrite <-app_assoc.
      * rewrite decide_False by done. done.
    + intros r' Hr'. apply Hin. by right.
    + intros r' Hr'. apply Hobs. by right.
Qed.

(** A second [relevant_intersections] on the same scene returns the same
    intersections and changes nothing. *)
Lemma relevant_intersections_again sc ts relevant ts1 :
  TrimSegment_relevant_intersections sc ts = Some (relevant, ts1) →
  TrimSegment_relevant_intersections sc ts1 = Some (relevant, ts1).
Proof.
  intros H.
  assert (_intersections ts ≠ []) as Hne.
  { intros Hnil. assert (TrimSegment__sorted sc ts = []) as Hs.
    { apply length_zero_iff_nil. by rewrite sorted_refs_length, Hnil. }
    unfold TrimSegment_relevant_intersections, TrimSegment_get_intersections in H.
    by rewrite Hs in H. }
  rewrite relevant_intersections_unfold in H by done. cbv zeta in H.
  pose proof (sorted_refs_NoDup sc ts) as Hnd.
  assert (∀ r, r ∈ TrimSegment__sorted sc ts ↔ (r < length (_intersections ts))%nat)
    as Helem by (intros r; apply sorted_refs_elem).
  set (ordered := TrimSegment__sorted sc ts) in *.
  set (l1 := assign_indices 0 ordered (_intersections ts)) in *.
  assert (length l1 = length (_intersections ts)) as Hlen1 by apply assign_indices_length.
  assert (∀ r, r ∈ ordered → is_Some (l1 !! r)) as Hsome.
  { intros r Hr. apply lookup_lt_is_Some_2. rewrite Hlen1. by apply Helem. }
  change (_intersections (set_intersections ts l1)) with l1 in H.
  destruct (relevant_loop_spec (0, Z.of_nat (length (_intersections ts)) - 1)
              l1 ordered [] (obsolete_intersections ts) Hsome)
    as (obsolete' & Hloop & Hobs & _).
  rewrite Hloop in H. simpl in H. injection H as <- <-.
  assert (TrimSegment__sorted sc (set_obsolete (set_intersections ts l1) obsolete')
          = ordered) as Hsort.
  { apply sorted_refs_ext; [done|done|]. simpl. apply assign_indices_co. }
  rewrite relevant_intersections_unfold.
  2:{ simpl. intros Hnil. apply Hne. apply length_zero_iff_nil.
      by rewrite <-Hlen1, Hnil. }
  assert (assign_indices 0 ordered l1 = l1) as Hidem
    by (unfold l1; by apply assign_indices_again).
  cbv zeta. rewrite Hsort. simpl. rewrite !Hidem, Hlen1.
  rewrite relevant_loop_again; [done|done|].
  intros r Hr Ho. apply Hobs. right. done.
Qed.

(** ** The walk over the dependencies ends *)

Lemma dependencies_at_all sc x ds d :
  dependencies_at sc x = Some ds → d ∈ ds → d ∈ all_dependencies sc.
Proof.
  unfold dependencies_at, entities_get, all_dependencies. intros Hx Hd.
  destruct (sc_entities sc !! x) as [e|] eqn:He; simpl in Hx; [|done].
  apply list_elem_of_bind. exists (x, e). split.
  - simpl. by rewrite Hx.
  - by apply elem_of_map_to_list.
Qed.

Lemma NoDup_length_le (l k : list Z) :
  NoDup l → (∀ x, x ∈ l → x ∈ k) → (length l ≤ length k)%nat.
Proof. intros Hnd Hsub. apply submseteq_length. by apply NoDup_submseteq. Qed.

Lemma walker_S fuel sc entity is_root lst :
  walker (S fuel) sc entity is_root lst
  = if bool_decide (entity ∈ lst) then Some lst
    else match dependencies_at sc entity with
         | None => Some (if is_root then lst else lst ++ [entity])
         | Some deps =>
             walk_dependencies (λ e l, walker fuel sc e false l) deps
                               (if is_root then lst else lst ++ [entity])
         end.
Proof. done. Qed.

Lemma walk_dependencies_total sc fuel (n : nat) deps : ∀ lst,
  (∀ e lst, NoDup lst → (∀ x, x ∈ lst → x ∈ all_dependencies sc) →
            e ∈ all_dependencies sc → e ∉ lst → (n ≤ length lst)%nat →
            ∃ lst', walker fuel sc e false lst = Some lst' ∧
                    walk_result sc lst lst' ∧ e ∈ lst') →
  NoDup lst → (∀ x, x ∈ lst → x ∈ all_dependencies sc) →
  (∀ d, d ∈ deps → d ∈ all_dependencies sc) → (n ≤ length lst)%nat →
  ∃ lst', walk_dependencies (λ e l, walker fuel sc e false l) deps lst = Some lst' ∧
          walk_result sc lst lst' ∧ ∀ d, d ∈ deps → d ∈ lst'.
Proof.
  induction deps as [|d deps IH]; intros lst Hwalk Hnd Hsub Hdeps Hn; simpl.
  - exists lst. split_and!; [done| |].
    + by split_and!.
    + intros d Hd. by apply elem_of_nil in Hd.
  - case_bool_decide as Hin.
    + destruct (IH lst) as (lst' & -> & Hres & Hall); try done.
      { intros d' Hd'. apply Hdeps. by right. }
      exists lst'. split_and!; [done|done|].
      intros d' [->|Hd']%elem_of_cons; [|by apply Hall]. by apply Hres.
    + destruct (Hwalk d lst) as (lst1 & -> & (Hnd1 & Hsub1 & Hext1 & Hlen1) & Hd1);
        try done.
      { apply Hdeps. by left. }
      simpl. destruct (IH lst1) as (lst' & -> & (Hnd' & Hsub' & Hext' & Hlen') & Hall);
        try done.
      { intros d' Hd'. apply Hdeps. by right. }
      { lia. }
      exists lst'. split_and!; [done| |].
      * split_and!; [done|done|auto|lia].
      * intros d' [->|Hd']%elem_of_cons; [|by apply Hall]. by apply Hext'.
Qed.

Lemma walker_total_from sc fuel : ∀ e lst,
  NoDup lst → (∀ x, x ∈ lst → x ∈ all_dependencies sc) →
  e ∈ all_dependencies sc → e ∉ lst →
  (length (all_dependencies sc) < fuel + length lst)%nat →
  ∃ lst', walker fuel sc e false lst = Some lst' ∧ walk_result sc lst lst' ∧ e ∈ lst'.
Proof.
  induction fuel as [|fuel IH]; intros e lst Hnd Hsub He Hnotin Hfuel.
  - pose proof (NoDup_length_le _ _ Hnd Hsub). simpl in Hfuel. lia.
  - rewrite walker_S, bool_decide_eq_false_2 by done.
    assert (NoDup (lst ++ [e])) as Hnd1.
    { apply NoDup_app. split_and!; [done| |apply NoDup_singleton].
      intros x Hx ->%list_elem_of_singleton. done. }
    assert (∀ x, x ∈ lst ++ [e] → x ∈ all_dependencies sc) as Hsub1.
    { intros x [Hx| ->%list_elem_of_singleton]%elem_of_app; auto. }
    destruct (dependencies_at sc e) as [deps|] eqn:Hdeps.
    + destruct (walk_dependencies_total sc fuel (S (length lst)) deps (lst ++ [e]))
        as (lst' & -> & (Hnd' & Hsub' & Hext' & Hlen') & _); try done.
      * intros e' lst' Hnd' Hsub' He' Hnotin' Hlen'. apply IH; try done. lia.
      * intros d Hd. by eapply dependencies_at_all.
      * rewrite length_app. simpl. lia.
      * exists lst'. rewrite length_app in Hlen'. simpl in Hlen'.
        split_and!; [done| |].
        -- split_and!; [done|done| |lia]. intros x Hx. apply Hext', elem_of_app. by left.
        -- apply Hext', elem_of_app. right. by apply list_elem_of_singleton.
    + exists (lst ++ [e]). split_and!; [done| |].
      * split_and!; [done|done| |rewrite length_app; lia].
        intros x Hx. apply elem_of_app. by left.
      * apply elem_of_app. right. by apply list_elem_of_singleton.
Qed.

(** The fuel [get_flat_deps] gives the walk is enough on every scene and
    for every entity: the walk returns, and its result holds every direct
    dependency of the entity. *)
Theorem walker_total sc entity :
  ∃ lst, get_flat_deps_opt sc entity = Some lst ∧ get_flat_deps sc entity = lst ∧
         NoDup lst ∧
         ∀ deps d, dependencies_at sc entity = Some deps → d ∈ deps → d ∈ lst.
Proof.
  unfold get_flat_deps, get_flat_deps_opt, walker_fuel.
  rewrite walker_S, bool_decide_eq_false_2 by apply not_elem_of_nil.
  destruct (dependencies_at sc entity) as [deps|] eqn:Hdeps.
  - destruct (walk_dependencies_total sc (S (length (all_dependencies sc))) 0 deps [])
      as (lst' & Hw & (Hnd' & _) & Hall).
    + intros e lst Hnd Hsub He Hnotin _. apply walker_total_from; try done. lia.
    + apply NoDup_nil_2.
    + intros x Hx. by apply elem_of_nil in Hx.
    + intros d Hd. by eapply dependencies_at_all.
    + simpl. lia.
    + exists lst'. rewrite Hw. split_and!; [done|done|done|].
      intros ? d [= <-] Hd. by apply Hall.
  - exists []. split_and!; [done|done|apply NoDup_nil_2|done].
Qed.

Lemma get_flat_deps_direct sc entity deps d :
  dependencies_at sc entity = Some deps → d ∈ deps → d ∈ get_flat_deps sc entity.
Proof.
  intros Hdeps Hd. destruct (walker_total sc entity) as (lst & _ & -> & _ & Hall).
  by eapply Hall.
Qed.

(** ** The validity check of a trim *)

(** C2: [check] returns true exactly when [relevant_intersections] returns
    2 or 4 intersections and false exactly when it returns another number
    of them; and when [check] is false on the segment holder [fini] has
    built, [fini] returns with the scene as it found it. *)
Theorem check_two_or_four sc ts :
  (TrimSegment_check sc ts = Some true ↔
   ∃ relevant ts', TrimSegment_relevant_intersections sc ts = Some (relevant, ts') ∧
                   (length relevant = 2 ∨ length relevant = 4)%nat) ∧
  (TrimSegment_check sc ts = Some false ↔
   ∃ relevant ts', TrimSegment_relevant_intersections sc ts = Some (relevant, ts') ∧
                   length relevant ≠ 2%nat ∧ length relevant ≠ 4%nat) ∧
  (∀ seg mouse_pos,
     trim_collect sc seg mouse_pos = Some ts →
     TrimSegment_check sc ts = Some false →
     trim_fini sc true seg (Some mouse_pos) = Some sc).
Proof.
  unfold TrimSegment_check. split_and!.
  - destruct (TrimSegment_relevant_intersections sc ts) as [[relevant ts']|]; simpl.
    + split.
      * intros [= H]. exists relevant, ts'. split; [done|].
        apply orb_true_iff in H as [H|H]; apply bool_decide_eq_true in H; auto.
      * intros (? & ? & [= <- <-] & H). f_equal. apply orb_true_iff.
        destruct H as [H|H]; [left|right]; by apply bool_decide_eq_true.
    + split; [done|]. by intros (? & ? & ? & _).
  - destruct (TrimSegment_relevant_intersections sc ts) as [[relevant ts']|]; simpl.
    + split.
      * intros [= H]. exists relevant, ts'. split; [done|].
        apply orb_false_iff in H as [H1 H2].
        apply bool_decide_eq_false in H1, H2. done.
      * intros (? & ? & [= <- <-] & H1 & H2). f_equal. apply orb_false_iff.
        split; by apply bool_decide_eq_false.
    + split; [done|]. by intros (? & ? & ? & _).
  - intros seg mouse_pos Hcollect Hcheck. unfold trim_fini. simpl.
    rewrite Hcollect. simpl. unfold TrimSegment_check. rewrite Hcheck. done.
Qed.

(** Whenever some intersection was collected, [check] returns. *)
Lemma check_returns sc ts :
  _intersections ts ≠ [] → is_Some (TrimSegment_check sc ts).
Proof.
  intros Hne. unfold TrimSegment_check.
  rewrite relevant_intersections_unfold by done. cbv zeta.
  edestruct (relevant_loop_spec (0, Z.of_nat (length (_intersections ts)) - 1)
               (assign_indices 0 (TrimSegment__sorted sc ts) (_intersections ts))
               (TrimSegment__sorted sc ts) [] (obsolete_intersections ts))
    as (obsolete' & Hloop & _).
  { intros r Hr. apply lookup_lt_is_Some_2. rewrite assign_indices_length.
    by apply sorted_refs_elem in Hr. }
  simpl. rewrite Hloop. simpl. eauto.
Qed.

(** With no intersection collected, [relevant_intersections], and [check]
    with it, raise. *)
Lemma relevant_intersections_empty sc ts :
  _intersections ts = [] →
  TrimSegment_relevant_intersections sc ts = None ∧ TrimSegment_check sc ts = None.
Proof.
  intros Hnil. assert (TrimSegment__sorted sc ts = []) as Hs.
  { apply length_zero_iff_nil. by rewrite sorted_refs_length, Hnil. }
  unfold TrimSegment_check, TrimSegment_relevant_intersections,
    TrimSegment_get_intersections.
  rewrite Hs. done.
Qed.

(** ** Refusing to delete a referenced entity *)

Lemma get_entity_deps_elem sc entity scene_entity :
  scene_entity ∈ get_entity_deps sc entity ↔
  entity ∈ get_flat_deps sc scene_entity ∧ scene_entity ∈ get_scene_entities sc.
Proof.
  unfold get_entity_deps.
  apply (list_elem_of_filter (λ s, entity ∈ get_flat_deps sc s)).
Qed.

Lemma is_entity_referenced_true sc entity :
  is_entity_referenced sc entity = true ↔
  ∃ scene_entity, scene_entity ∈ get_scene_entities sc ∧
                  entity ∈ get_flat_deps sc scene_entity.
Proof.
  unfold is_entity_referenced. split.
  - destruct (get_entity_deps sc entity) as [|b l] eqn:Hd; [done|]. intros _.
    exists b. apply and_comm, get_entity_deps_elem. rewrite Hd. by left.
  - intros (b & Hb & Hin).
    assert (b ∈ get_entity_deps sc entity) as H by by apply get_entity_deps_elem.
    destruct (get_entity_deps sc entity); [by apply elem_of_nil in H|done].
Qed.

(** C6: deleting a non-sketch entity [A] that is in the flattened
    dependencies of a live entity [B] is refused: [main] reports the
    dependents, [B] among them, returns [CANCELLED] and hands back the
    scene it was given. *)
Theorem delete_referenced_refused sc A B entA :
  entities_get sc A = Some entA →
  Entity_is_sketch entA = false →
  B ∈ get_scene_entities sc →
  A ∈ get_flat_deps sc B →
  delete_entity_main sc A
  = Some (CANCELLED, sc, [Popup A (get_entity_deps sc A); Warning A]) ∧
  B ∈ get_entity_deps sc A.
Proof.
  intros HA Hsk HB Hdep. unfold delete_entity_main. rewrite HA, Hsk.
  assert (is_entity_referenced sc A = true) as -> by (apply is_entity_referenced_true; eauto).
  split; [done|]. by apply get_entity_deps_elem.
Qed.

(** ** Deleting the selection *)

Lemma delete_batch_reports sc index r sc' reports :
  index = -1 → length (selected_entities sc) ≠ 1%nat →
  delete_entity_execute sc index = Some (r, sc', reports) → reports = [].
Proof.
  intros -> Hlen. unfold delete_entity_execute.
  rewrite bool_decide_eq_false_2 by (intros H; by apply H).
  rewrite bool_decide_eq_false_2 by done.
  destruct (delete_batch sc _); simpl; [|done]. by intros [= _ _ <-].
Qed.

(** C10: without an index and with exactly one entity selected, [execute]
    hands that entity to [main], as it does with an entity named by index;
    when the entity is no sketch and is referenced, the deletion is refused
    with a report and the scene is kept.  With another number of selected
    entities [execute] reports nothing. *)
Theorem execute_single_selection sc e :
  selected_entities sc = [e] →
  delete_entity_execute sc (-1)
  = ('(_, sc1, reports) ← delete_entity_main sc e; Some (FINISHED, sc1, reports)) ∧
  (e ≠ -1 → delete_entity_execute sc (-1) = delete_entity_execute sc e) ∧
  (∀ ent, entities_get sc e = Some ent → Entity_is_sketch ent = false →
          is_entity_referenced sc e = true →
          delete_entity_execute sc (-1)
          = Some (FINISHED, sc, [Popup e (get_entity_deps sc e); Warning e])) ∧
  (∀ sc0 r sc' reports,
     length (selected_entities sc0) ≠ 1%nat →
     delete_entity_execute sc0 (-1) = Some (r, sc', reports) → reports = []).
Proof.
  intros Hsel.
  assert (delete_entity_execute sc (-1)
          = ('(_, sc1, reports) ← delete_entity_main sc e; Some (FINISHED, sc1, reports)))
    as Hsingle.
  { unfold delete_entity_execute.
    rewrite bool_decide_eq_false_2 by (intros H; by apply H).
    rewrite Hsel. done. }
  split_and!.
  - done.
  - intros Hne. rewrite Hsingle. unfold delete_entity_execute.
    by rewrite bool_decide_eq_true_2.
  - intros ent Hent Hsk Href. rewrite Hsingle. unfold delete_entity_main.
    by rewrite Hent, Hsk, Href.
  - intros sc0 r sc' reports Hlen Hex. by eapply delete_batch_reports.
Qed.

(** ** Merging two points *)

Lemma solve_system_get sc sk i :
  entities_get (solve_system sc sk) i
  = (λ e, set_co (solved_co sc sk i e) e) <$> entities_get sc i.
Proof.
  unfold solve_system, entities_get. simpl. rewrite map_lookup_imap.
  by destruct (sc_entities sc !! i).
Qed.

Lemma rewrite_index_neq index_old index_new i :
  index_old ≠ index_new → rewrite_index index_old index_new i ≠ index_old.
Proof. unfold rewrite_index. case_bool_decide; congruence. Qed.

Lemma rewrite_index_not_elem index_old index_new (l : list Z) :
  index_old ≠ index_new → index_old ∉ map (rewrite_index index_old index_new) l.
Proof.
  intros Hne Hin. change (map ?f ?l) with (f <$> l) in Hin.
  apply list_elem_of_fmap in Hin as (i & Hi & _).
  symmetry in Hi. by apply rewrite_index_neq in Hi.
Qed.

Lemma update_pointers_all sc index_old index_new :
  constraints_all (update_pointers sc index_old index_new)
  = Constraint_update_pointers index_old index_new <$> constraints_all sc.
Proof.
  unfold constraints_all. simpl. induction (sc_constraints sc) as [|[t l] cs IH]; simpl.
  - done.
  - rewrite IH. by rewrite fmap_app.
Qed.

(** C5, as the code has it: asked for a coincidence between two distinct
    points [p1] (picked first) and [p2] (picked second), [main] creates no
    constraint; every reference to [p1] in the scene is rewritten to [p2]
    and then [p1] is removed from the entity store, while [p2] remains. *)
Theorem merge_removes_first_point sc p1 p2 :
  is_point_at sc p1 = true → is_point_at sc p2 = true → p1 ≠ p2 →
  (add_coincident_main sc p1 p2).1 = true ∧
  constraints_all ((add_coincident_main sc p1 p2).2)
  = Constraint_update_pointers p1 p2 <$> constraints_all sc ∧
  (∀ c, c ∈ constraints_all ((add_coincident_main sc p1 p2).2) → p1 ∉ entities c) ∧
  (∀ i ent, entities_get ((add_coincident_main sc p1 p2).2) i = Some ent →
            (p1 ∉ connection_points ent) ∧
            (∀ deps, dependencies ent = Some deps → p1 ∉ deps)) ∧
  entities_get ((add_coincident_main sc p1 p2).2) p1 = None ∧
  is_point_at ((add_coincident_main sc p1 p2).2) p2 = true.
Proof.
  intros H1 H2 Hne. unfold add_coincident_main. rewrite H1, H2. simpl.
  split_and!.
  - done.
  - apply update_pointers_all.
  - intros c Hc.
    change (c ∈ constraints_all (update_pointers sc p1 p2)) in Hc.
    rewrite update_pointers_all in Hc.
    apply list_elem_of_fmap in Hc as (c0 & -> & _). simpl.
    by apply rewrite_index_not_elem.
  - intros i ent. rewrite solve_system_get. unfold entities_get. simpl.
    destruct (decide (i = p1)) as [->|Hi].
    { by rewrite lookup_delete_eq. }
    rewrite lookup_delete_ne, lookup_fmap by done.
    destruct (sc_entities sc !! i) as [e0|]; simpl; [|done].
    intros [= <-]. simpl. split; [by apply rewrite_index_not_elem|].
    destruct (dependencies e0); simpl; [|done].
    intros ? [= <-]. by apply rewrite_index_not_elem.
  - rewrite solve_system_get. unfold entities_get. simpl. by rewrite lookup_delete_eq.
  - unfold is_point_at in *. rewrite solve_system_get. unfold entities_get in *. simpl.
    rewrite lookup_delete_ne, lookup_fmap by done.
    destruct (sc_entities sc !! p2) as [e0|]; simpl; [|done]. done.
Qed.

(** ** Replacing the trimmed segment *)

Lemma get_point_at_spec sc ts r p sc1 ts1 :
  get_point_at sc ts r = Some (p, sc1, ts1) →
  scene_extends sc sc1 ∧ same_frame ts ts1 ∧
  (∀ rs, all_materialized sc ts rs → all_materialized sc1 ts1 (r :: rs)).
Proof.
  unfold get_point_at. intros H.
  destruct (_intersections ts !! r) as [intr|] eqn:Hintr; simpl in H; [|done].
  destruct (Intersection_get_point sc intr) as [[[q sc'] intr1]|] eqn:Hg;
    simpl in H; [|done].
  simplify_eq. destruct (get_point_spec _ _ _ _ _ Hg) as (Hm & Hext & _).
  split_and!; [done|done|].
  intros rs Hrs r' Hr'. simpl.
  destruct (decide (r' = r)) as [->|Hne].
  - exists intr1, p. split; [|done]. apply list_lookup_insert_eq. by eapply lookup_lt_Some.
  - apply elem_of_cons in Hr' as [?|Hr']; [done|].
    destruct (Hrs r' Hr') as (i & q & Hi & Hq).
    exists i, q. split; [by rewrite list_lookup_insert_ne|by eapply materialized_extends].
Qed.

Lemma get_point_at_materialized sc ts r :
  all_materialized sc ts [r] → ∃ p, get_point_at sc ts r = Some (p, sc, ts).
Proof.
  intros Hm. destruct (Hm r) as (intr & p & Hintr & Hp); [by left|].
  exists p. unfold get_point_at. rewrite Hintr. simpl.
  rewrite (materialized_get_point _ _ _ Hp). simpl.
  rewrite list_insert_id by done. by destruct ts.
Qed.

Lemma ensure_points_loop_spec relevant : ∀ sc ts sc' ts',
  ensure_points_loop sc ts relevant = Some (sc', ts') →
  scene_extends sc sc' ∧ same_frame ts ts' ∧
  (∀ rs, all_materialized sc ts rs → all_materialized sc' ts' (relevant ++ rs)).
Proof.
  induction relevant as [|r relevant IH]; intros sc ts sc' ts' H; simpl in H.
  - simplify_eq. split_and!; [apply scene_extends_refl|done|done].
  - destruct (get_point_at sc ts r) as [[[p sc1] ts1]|] eqn:Hg; simpl in H; [|done].
    destruct (get_point_at_spec _ _ _ _ _ _ Hg) as (Hext1 & (Hs1 & Hr1 & Ho1) & Hm1).
    destruct (IH _ _ _ _ H) as (Hext2 & (Hs2 & Hr2 & Ho2) & Hm2).
    split_and!.
    + by eapply scene_extends_trans.
    + unfold same_frame. split_and!; congruence.
    + intros rs Hrs r' Hr'. apply (Hm2 (r :: rs)); [by apply Hm1|].
      rewrite elem_of_app, elem_of_cons. simpl in Hr'.
      rewrite elem_of_cons, elem_of_app in Hr'.
      destruct Hr' as [?|[?|?]]; auto.
Qed.

Lemma relevant_intersections_frame sc ts relevant ts' :
  TrimSegment_relevant_intersections sc ts = Some (relevant, ts') →
  segment ts' = segment ts ∧ reuse_segment ts' = reuse_segment ts.
Proof.
  unfold TrimSegment_relevant_intersections, TrimSegment_get_intersections.
  cbv beta iota zeta. intros H.
  destruct (head _ ≫= _); simpl in H; [|done].
  destruct (last _ ≫= _); simpl in H; [|done].
  destruct (relevant_loop _ _ _ _) as [[rel obs]|]; simpl in H; [|done].
  by simplify_eq.
Qed.

(** After the first part of [replace], the point of every relevant
    intersection exists. *)
Lemma replace_prepare_spec sc ts relevant constrs sc1 ts1 :
  replace_prepare sc ts = Some (relevant, constrs, sc1, ts1) →
  (∃ ts0, TrimSegment_relevant_intersections sc ts = Some (relevant, ts0)) ∧
  scene_extends sc sc1 ∧ all_materialized sc1 ts1 relevant ∧
  segment ts1 = segment ts ∧ reuse_segment ts1 = reuse_segment ts.
Proof.
  unfold replace_prepare, TrimSegment_ensure_points. intros H.
  destruct (TrimSegment_relevant_intersections sc ts) as [[rel ts0]|] eqn:Hrel;
    simpl in H; [|done].
  rewrite (relevant_intersections_again _ _ _ _ Hrel) in H. simpl in H.
  destruct (ensure_points_loop sc ts0 rel) as [[sc' ts']|] eqn:Hloop; simpl in H; [|done].
  simplify_eq.
  destruct (ensure_points_loop_spec _ _ _ _ _ Hloop) as (Hext & (Hs & Hr & _) & Hm).
  destruct (relevant_intersections_frame _ _ _ _ Hrel) as [Hs0 Hr0].
  split_and!; [eauto|done| |congruence|congruence].
  specialize (Hm []). rewrite app_nil_r in Hm. apply Hm.
  intros r Hr'. by apply elem_of_nil in Hr'.
Qed.


Lemma copy_constraints_entities index seg new_segment constrs : ∀ sc sc' constrs',
  copy_constraints sc index seg new_segment constrs = Some (sc', constrs') →
  sc_entities sc' = sc_entities sc.
Proof.
  induction constrs as [|[u ents] constrs IH]; intros sc sc' constrs' H; simpl in H.
  - by simplify_eq.
  - destruct (list_index seg ents) as [i|]; simpl in H; [|done].
    case_bool_decide.
    + destruct (find_constraint sc u) as [c|]; simpl in H; [|done].
      destruct (not_copied (type c)).
      * destruct (copy_constraints sc _ _ _ _) as [[sc1 rest]|] eqn:Hc; simpl in H; [|done].
        simplify_eq. by eapply IH.
      * destruct (copy_constraints _ _ _ _ _) as [[sc1 rest]|] eqn:Hc; simpl in H; [|done].
        simplify_eq. by rewrite (IH _ _ _ Hc).
    + destruct (copy_constraints _ _ _ _ _) as [[sc1 rest]|] eqn:Hc; simpl in H; [|done].
      simplify_eq. by rewrite (IH _ _ _ Hc).
Qed.









(** ** What the walk over the dependencies collects *)

Lemma walk_dependencies_reach sc (walk : Z → list Z → option (list Z)) deps :
  (∀ e lst lst', walk e lst = Some lst' →
                 walk_reach sc (λ d, d = e) lst lst' ∧ e ∈ lst') →
  ∀ lst lst',
    walk_dependencies walk deps lst = Some lst' →
    walk_reach sc (λ d, d ∈ deps) lst lst' ∧ ∀ d, d ∈ deps → d ∈ lst'.
Proof.
  intros Hwalk. induction deps as [|d deps IH]; intros lst lst' H; simpl in H.
  - injection H as <-. split; [|by intros d Hd; apply elem_of_nil in Hd].
    split_and!; auto.
  - case_bool_decide as Hin.
    + destruct (IH _ _ H) as ((Hs & Hc & He) & Hall). split.
      * split_and!; [|done|done]. intros x Hx.
        destruct (Hs x Hx) as [?|(d' & Hd' & Hr)]; [by left|].
        right. exists d'. split; [by right|done].
      * intros d' [->|Hd']%elem_of_cons; auto.
    + destruct (walk d lst) as [lst1|] eqn:Hw; simpl in H; [|done].
      destruct (Hwalk _ _ _ Hw) as ((Hs1 & Hc1 & He1) & Hd1).
      destruct (IH _ _ H) as ((Hs & Hc & He) & Hall). split.
      * split_and!.
        -- intros x Hx. destruct (Hs x Hx) as [Hx1|(d' & Hd' & Hr)].
           ++ destruct (Hs1 x Hx1) as [?|(d' & -> & Hr)]; [by left|].
              right. exists d. split; [by left|done].
           ++ right. exists d'. split; [by right|done].
        -- intros x Hx. destruct (Hc x Hx) as [Hx1|?]; [|by right].
           destruct (Hc1 x Hx1) as [?|Hcl]; [by left|].
           right. intros y Hy. by apply He, Hcl.
        -- auto.
      * intros d' [->|Hd']%elem_of_cons; auto.
Qed.

Lemma walker_reach sc fuel : ∀ e lst lst',
  walker fuel sc e false lst = Some lst' →
  walk_reach sc (λ d, d = e) lst lst' ∧ e ∈ lst'.
Proof.
  induction fuel as [|fuel IH]; intros e lst lst' H; [done|].
  rewrite walker_S in H. case_bool_decide as Hin.
  { injection H as <-. split; [|done]. split_and!; auto. }
  destruct (dependencies_at sc e) as [deps|] eqn:Hdeps.
  - destruct (walk_dependencies_reach sc _ deps (IH) _ _ H) as ((Hs & Hc & He) & Hall).
    assert (e ∈ lst') as Hin' by (apply He, elem_of_app; right; by left).
    split; [|done]. split_and!.
    + intros x Hx. destruct (Hs x Hx) as [Hx1|(d & Hd & Hr)].
      * apply elem_of_app in Hx1 as [?| ->%list_elem_of_singleton]; [by left|].
        right. by exists e.
      * right. exists e. split; [done|]. eapply rtc_l; [|done]. by exists deps.
    + intros x Hx. destruct (Hc x Hx) as [Hx1|?]; [|by right].
      apply elem_of_app in Hx1 as [?| ->%list_elem_of_singleton]; [by left|].
      right. intros y (deps' & Hdeps' & Hy). rewrite Hdeps in Hdeps'.
      injection Hdeps' as <-. by apply Hall.
    + intros x Hx. apply He, elem_of_app. by left.
  - injection H as <-. split; [|apply elem_of_app; right; by left]. split_and!.
    + intros x [?| ->%list_elem_of_singleton]%elem_of_app; [by left|].
      right. by exists e.
    + intros x [?| ->%list_elem_of_singleton]%elem_of_app; [by left|].
      right. intros y (deps' & Hdeps' & _). by rewrite Hdeps in Hdeps'.
    + intros x Hx. apply elem_of_app. by left.
Qed.

Lemma get_flat_deps_tc sc entity x :
  x ∈ get_flat_deps sc entity ↔ tc (depends_on sc) entity x.
Proof.
  revert x. destruct (walker_total sc entity) as (lst & Hopt & -> & Hnd & _).
  unfold get_flat_deps_opt, walker_fuel in Hopt.
  rewrite walker_S, bool_decide_eq_false_2 in Hopt by apply not_elem_of_nil.
  destruct (dependencies_at sc entity) as [deps|] eqn:Hdeps.
  - destruct (walk_dependencies_reach sc _ deps (walker_reach sc _) _ _ Hopt)
      as ((Hs & Hc & _) & Hall).
    intros x. split.
    + intros Hx. destruct (Hs x Hx) as [Hnil|(d & Hd & Hr)];
        [by apply elem_of_nil in Hnil|].
      eapply tc_rtc_r; [|done]. apply tc_once. by exists deps.
    + intros Htc. destruct Htc as [x y Hxy|x y z Hxy Hyz].
      * destruct Hxy as (deps' & Hdeps' & Hy). rewrite Hdeps in Hdeps'.
        injection Hdeps' as <-. by apply Hall.
      * destruct Hxy as (deps' & Hdeps' & Hy). rewrite Hdeps in Hdeps'.
        injection Hdeps' as <-. apply Hall in Hy. apply tc_rtc in Hyz.
        induction Hyz as [|y y' z Hyy' _ IH]; [done|].
        apply IH. destruct (Hc y Hy) as [Hnil|Hcl];
          [by apply elem_of_nil in Hnil|]. by apply Hcl.
  - injection Hopt as <-. intros x. split; [by intros Hx; apply elem_of_nil in Hx|].
    intros Htc. exfalso. destruct Htc as [x y Hxy|x y z Hxy _];
      destruct Hxy as (deps' & Hdeps' & _); by rewrite Hdeps in Hdeps'.
Qed.

Lemma get_flat_deps_NoDup sc entity : NoDup (get_flat_deps sc entity).
Proof. by destruct (walker_total sc entity) as (lst & _ & -> & Hnd & _). Qed.

(** X2: [get_flat_deps] returns, without a duplicate, exactly the entities
    the given entity depends on through one or more steps of
    [dependencies()], also when the dependencies form a cycle; the entity
    itself is among them only when it depends on itself through a cycle. *)
Theorem get_flat_deps_transitive sc entity :
  NoDup (get_flat_deps sc entity) ∧
  ∀ x, x ∈ get_flat_deps sc entity ↔ tc (depends_on sc) entity x.
Proof. split; [apply get_flat_deps_NoDup|apply get_flat_deps_tc]. Qed.

Lemma get_scene_entities_elem sc i :
  i ∈ get_scene_entities sc ↔ is_Some (entities_get sc i).
Proof.
  unfold get_scene_entities, entities_get. change (map fst ?l) with (l.*1).
  rewrite list_elem_of_fmap. split.
  - intros ([j e] & -> & Hin). apply elem_of_map_to_list in Hin. eauto.
  - intros [e He]. exists (i, e). split; [done|]. by apply elem_of_map_to_list.
Qed.

Lemma depends_on_live sc x y : depends_on sc x y → is_Some (entities_get sc x).
Proof.
  intros (deps & Hdeps & _). unfold dependencies_at in Hdeps.
  destruct (entities_get sc x); [eauto|done].
Qed.

Lemma tc_depends_on_live sc x y : tc (depends_on sc) x y → is_Some (entities_get sc x).
Proof. intros [? ? H|? ? ? H _]; by eapply depends_on_live. Qed.

Lemma get_entity_deps_tc sc entity b :
  b ∈ get_entity_deps sc entity ↔ tc (depends_on sc) b entity.
Proof.
  rewrite get_entity_deps_elem, get_flat_deps_tc, get_scene_entities_elem.
  split; [by intros [? _]|]. intros H. split; [done|]. by eapply tc_depends_on_live.
Qed.

Lemma is_entity_referenced_tc sc entity :
  is_entity_referenced sc entity = true ↔ ∃ b, tc (depends_on sc) b entity.
Proof.
  rewrite is_entity_referenced_true. split.
  - intros (b & _ & Hb). exists b. by apply get_flat_deps_tc.
  - intros (b & Hb). exists b. split; [|by apply get_flat_deps_tc].
    apply get_scene_entities_elem. by eapply tc_depends_on_live.
Qed.

(** X3: [get_entity_deps] yields, once each, exactly the entities of the
    scene that depend on the given entity through one or more steps of
    [dependencies()], and [is_entity_referenced] is true exactly when there
    is one. *)
Theorem entity_deps_transitive sc entity :
  NoDup (get_entity_deps sc entity) ∧
  (∀ b, b ∈ get_entity_deps sc entity ↔ tc (depends_on sc) b entity) ∧
  (is_entity_referenced sc entity = true ↔ ∃ b, tc (depends_on sc) b entity).
Proof.
  split_and!.
  - unfold get_entity_deps, get_scene_entities. apply NoDup_filter.
    apply NoDup_fst_map_to_list.
  - apply get_entity_deps_tc.
  - apply is_entity_referenced_tc.
Qed.

(** ** The order of the intersections *)

Lemma insert_sorted_stable {A} (rank : A → nat) (key : A → Dist) x l :
  strict_weak_order →
  StronglySorted (stable_before rank key) l →
  Forall (λ y, (rank y < rank x)%nat) l →
  StronglySorted (stable_before rank key) (insert_sorted key x l).
Proof.
  intros [Hasym Hneg] Hl Hrank. induction Hl as [|y l Hl IH Hy]; simpl.
  { repeat constructor. }
  apply Forall_cons in Hrank as [Hyx Hrank].
  destruct (dist_lt (key x) (key y)) eqn:Hxy.
  - constructor; [by constructor|]. constructor.
    + split; [by apply Hasym|by left].
    + eapply Forall_impl; [exact Hy|]. intros z [Hzy _].
      destruct (dist_lt (key x) (key z)) eqn:Hxz.
      * split; [by apply Hasym|by left].
      * by rewrite (Hneg _ _ _ Hxz Hzy) in Hxy.
  - constructor; [by apply IH|].
    assert (Hperm : insert_sorted key x l ≡ₚ x :: l) by apply insert_sorted_perm.
    rewrite Hperm. constructor; [|done]. split; [done|by right].
Qed.

Lemma sorted_stable_from {A} (rank : A → nat) (key : A → Dist) l : ∀ acc,
  strict_weak_order →
  StronglySorted (stable_before rank key) acc →
  StronglySorted lt (map rank l) →
  (∀ x y, x ∈ acc → y ∈ l → (rank x < rank y)%nat) →
  StronglySorted (stable_before rank key) (fold_left (λ acc x, insert_sorted key x acc) l acc).
Proof.
  intros acc Hswo. revert acc. induction l as [|x l IH]; intros acc Hacc Hl Hlt; simpl.
  { done. }
  simpl in Hl. apply StronglySorted_inv in Hl as [Hl Hx]. apply IH; [|done|].
  - apply insert_sorted_stable; [done..|]. apply Forall_forall. intros y Hy.
    apply Hlt; [done|left].
  - intros y z Hy Hz. rewrite insert_sorted_perm in Hy.
    apply elem_of_cons in Hy as [->|Hy].
    + rewrite Forall_forall in Hx. apply Hx. by apply list_elem_of_fmap_2.
    + apply Hlt; [done|by right].
Qed.

Lemma sorted_stable {A} (rank : A → nat) (key : A → Dist) l :
  strict_weak_order →
  StronglySorted lt (map rank l) →
  StronglySorted (stable_before rank key) (sorted key l).
Proof.
  intros Hswo Hl. apply sorted_stable_from; [done|constructor|done|].
  intros x y Hx. by apply elem_of_nil in Hx.
Qed.

Lemma StronglySorted_seq j n : StronglySorted lt (seq j n).
Proof.
  revert j. induction n as [|n IH]; intros j; simpl; constructor; [done|].
  apply Forall_forall. intros x Hx. apply elem_of_seq in Hx. lia.
Qed.

Lemma StronglySorted_lookup_lt {A} (R : relation A) l k1 k2 x y :
  StronglySorted R l → (k1 < k2)%nat → l !! k1 = Some x → l !! k2 = Some y → R x y.
Proof.
  intros Hl. revert k1 k2. induction Hl as [|z l Hl IH Hz]; intros k1 k2 Hk H1 H2.
  { done. }
  destruct k2 as [|k2]; [lia|]. simpl in H2. destruct k1 as [|k1]; simpl in H1.
  - injection H1 as ->. rewrite Forall_forall in Hz. apply Hz.
    by eapply list_elem_of_lookup_2.
  - apply (IH k1 k2); [lia|done..].
Qed.

Lemma sorted_refs_lookup sc ts k r :
  TrimSegment__sorted sc ts !! k = Some r →
  ∃ intr, _intersections ts !! r = Some intr ∧
          sorted (λ p : nat * Intersection, distance_of sc ts p.2)
                 (imap pair (_intersections ts)) !! k = Some (r, intr).
Proof.
  unfold TrimSegment__sorted. change (map fst ?l) with (fst <$> l).
  rewrite list_lookup_fmap. intros H.
  apply fmap_Some in H as ([r' intr] & Hk & ->). exists intr. split; [|done].
  apply list_elem_of_lookup_2 in Hk. rewrite sorted_perm in Hk.
  apply elem_of_lookup_imap in Hk as (i & y & Heq & Hi). by injection Heq as -> ->.
Qed.

(** X4: [get_intersections] returns the intersections by distance along the
    segment from the mouse position, as long as [<] on distances is a strict
    weak order: a later intersection is never closer than an earlier one,
    intersections at the same distance stay in the order they were added in,
    and each intersection has its place in that order as [index]. *)
Theorem get_intersections_ordered sc ts k1 k2 r1 r2 intr1 intr2 :
  strict_weak_order →
  (k1 < k2)%nat →
  (TrimSegment_get_intersections sc ts).1 !! k1 = Some r1 →
  (TrimSegment_get_intersections sc ts).1 !! k2 = Some r2 →
  _intersections ts !! r1 = Some intr1 →
  _intersections ts !! r2 = Some intr2 →
  dist_lt (distance_of sc ts intr2) (distance_of sc ts intr1) = false ∧
  (dist_lt (distance_of sc ts intr1) (distance_of sc ts intr2) = true ∨ (r1 < r2)%nat) ∧
  _intersections (TrimSegment_get_intersections sc ts).2 !! r1
  = Some (set_index (Z.of_nat k1) intr1) ∧
  _intersections (TrimSegment_get_intersections sc ts).2 !! r2
  = Some (set_index (Z.of_nat k2) intr2).
Proof.
  intros Hswo Hk H1 H2 Hr1 Hr2. simpl in H1, H2.
  rewrite (get_intersections_lookup _ _ _ _ H1), (get_intersections_lookup _ _ _ _ H2).
  rewrite Hr1, Hr2. simpl.
  apply sorted_refs_lookup in H1 as (i1 & Hi1 & H1), H2 as (i2 & Hi2 & H2).
  assert (i1 = intr1) as -> by congruence. assert (i2 = intr2) as -> by congruence.
  assert (Hs : StronglySorted
                 (stable_before fst (λ p : nat * Intersection, distance_of sc ts p.2))
                 (sorted (λ p : nat * Intersection, distance_of sc ts p.2)
                         (imap pair (_intersections ts)))).
  { apply sorted_stable; [done|]. rewrite fst_imap_pair. apply StronglySorted_seq. }
  destruct (StronglySorted_lookup_lt _ _ _ _ _ _ Hs Hk H1 H2) as [Ha Hb].
  simpl in Ha, Hb. done.
Qed.

(** ** Calling again *)

(** X5: [check], [replace] and [ensure_points] each call
    [relevant_intersections]; a call after the first returns the same
    intersections and leaves the segment holder as it is, so no obsolete
    intersection is recorded twice, and [check] answers the same. *)
Theorem relevant_intersections_repeatable sc ts relevant ts1 :
  TrimSegment_relevant_intersections sc ts = Some (relevant, ts1) →
  TrimSegment_relevant_intersections sc ts1 = Some (relevant, ts1) ∧
  TrimSegment_check sc ts1 = TrimSegment_check sc ts.
Proof.
  intros H. pose proof (relevant_intersections_again _ _ _ _ H) as H1.
  split; [done|]. unfold TrimSegment_check. by rewrite H, H1.
Qed.

Lemma get_point_at_size sc ts r p sc1 ts1 :
  get_point_at sc ts r = Some (p, sc1, ts1) →
  (size (sc_entities sc1) ≤ S (size (sc_entities sc)))%nat ∧
  (length (constraints_all sc1) ≤ S (length (constraints_all sc)))%nat.
Proof.
  unfold get_point_at. intros H.
  destruct (_intersections ts !! r) as [intr|]; simpl in H; [|done].
  destruct (Intersection_get_point sc intr) as [[[p' sc'] intr']|] eqn:Hg;
    simpl in H; [|done].
  injection H as <- <- <-.
  by destruct (get_point_spec _ _ _ _ _ Hg) as (_ & _ & _ & ? & ?).
Qed.

Lemma ensure_points_loop_size relevant : ∀ sc ts sc' ts',
  ensure_points_loop sc ts relevant = Some (sc', ts') →
  (size (sc_entities sc') ≤ size (sc_entities sc) + length relevant)%nat ∧
  (length (constraints_all sc') ≤ length (constraints_all sc) + length relevant)%nat.
Proof.
  induction relevant as [|r relevant IH]; intros sc ts sc' ts' H; simpl in H.
  - injection H as <- <-. simpl. lia.
  - destruct (get_point_at sc ts r) as [[[p sc1] ts1]|] eqn:Hg; simpl in H; [|done].
    destruct (get_point_at_size _ _ _ _ _ _ Hg) as [Hs1 Hc1].
    destruct (IH _ _ _ _ H) as [Hs2 Hc2]. simpl. lia.
Qed.

(** X6: when [ensure_points] returns, the scene holds everything it held
    before, it has gained at most one point and one constraint for each
    relevant intersection, and [get_point] on any relevant intersection now
    returns a point without changing the scene or the intersection. *)
Theorem ensure_points_materializes sc ts sc' ts' :
  TrimSegment_ensure_points sc ts = Some (sc', ts') →
  ∃ relevant ts0,
    TrimSegment_relevant_intersections sc ts = Some (relevant, ts0) ∧
    scene_extends sc sc' ∧
    (∀ r, r ∈ relevant → ∃ p, get_point_at sc' ts' r = Some (p, sc', ts')) ∧
    (size (sc_entities sc') ≤ size (sc_entities sc) + length relevant)%nat ∧
    (length (constraints_all sc') ≤ length (constraints_all sc) + length relevant)%nat.
Proof.
  unfold TrimSegment_ensure_points. intros H.
  destruct (TrimSegment_relevant_intersections sc ts) as [[relevant ts0]|] eqn:Hrel;
    simpl in H; [|done].
  exists relevant, ts0. split; [done|].
  destruct (ensure_points_loop_spec _ _ _ _ _ H) as (Hext & _ & Hm).
  destruct (ensure_points_loop_size _ _ _ _ _ H) as [Hs Hc].
  split_and!; [done| |done|done].
  intros r Hr. apply get_point_at_materialized.
  intros r' Hr'. apply list_elem_of_singleton in Hr' as ->.
  apply (Hm []); [|by rewrite app_nil_r].
  intros r' Hr'. by apply elem_of_nil in Hr'.
Qed.

(** ** What [delete] removes *)

Lemma collection_remove_spec sc k i p c :
  sc_constraints sc !! k = Some p → p.2 !! i = Some c →
  sc_entities (collection_remove sc k i) = sc_entities sc ∧
  active_sketch_i (collection_remove sc k i) = active_sketch_i sc ∧
  map fst (sc_constraints (collection_remove sc k i)) = map fst (sc_constraints sc) ∧
  constraints_all (collection_remove sc k i) `sublist_of` constraints_all sc ∧
  S (length (constraints_all (collection_remove sc k i))) = length (constraints_all sc).
Proof.
  intros Hk Hi. unfold collection_remove, constraints_all. simpl.
  split; [done|]. split; [done|].
  generalize dependent k. generalize (sc_constraints sc).
  intros cs. induction cs as [|q cs IH]; intros k Hk; [done|].
  destruct k as [|k]; simpl in Hk |- *.
  - injection Hk as ->. split_and!; [done| |].
    + apply sublist_app; [apply sublist_delete|done].
    + rewrite !length_app, length_delete by eauto.
      apply lookup_lt_Some in Hi. lia.
  - destruct (IH k Hk) as (Hf & Hs & Hl). unfold alter in Hf, Hs, Hl. split_and!.
    + by rewrite Hf.
    + by apply sublist_app.
    + rewrite !length_app. lia.
Qed.

Lemma remove_indices_spec k indices : ∀ sc sc',
  remove_indices sc k indices = Some sc' →
  sc_entities sc' = sc_entities sc ∧
  active_sketch_i sc' = active_sketch_i sc ∧
  map fst (sc_constraints sc') = map fst (sc_constraints sc) ∧
  constraints_all sc' `sublist_of` constraints_all sc ∧
  (length (constraints_all sc') + length indices = length (constraints_all sc))%nat.
Proof.
  induction indices as [|i indices IH]; intros sc sc' H; simpl in H.
  { injection H as <-. split_and!; try done; simpl; lia. }
  destruct (sc_constraints sc !! k) as [p|] eqn:Hk; simpl in H; [|done].
  destruct (p.2 !! i) as [c|] eqn:Hi; simpl in H; [|done].
  destruct (collection_remove_spec _ _ _ _ _ Hk Hi) as (He1 & Ha1 & Hf1 & Hs1 & Hl1).
  destruct (IH _ _ H) as (He2 & Ha2 & Hf2 & Hs2 & Hl2).
  split_and!; [congruence|congruence|congruence|by etrans|simpl; lia].
Qed.

Lemma remove_collected_spec ret_list : ∀ sc sc',
  remove_collected sc ret_list = Some sc' →
  sc_entities sc' = sc_entities sc ∧
  active_sketch_i sc' = active_sketch_i sc ∧
  map fst (sc_constraints sc') = map fst (sc_constraints sc) ∧
  constraints_all sc' `sublist_of` constraints_all sc ∧
  (length (constraints_all sc') + sum_list_with (λ p, length p.2) ret_list
   = length (constraints_all sc))%nat.
Proof.
  induction ret_list as [|[k indices] ret_list IH]; intros sc sc' H; simpl in H.
  { injection H as <-. split_and!; try done; simpl; lia. }
  destruct (remove_indices sc k indices) as [sc1|] eqn:H1; simpl in H; [|done].
  destruct (remove_indices_spec _ _ _ _ H1) as (He1 & Ha1 & Hf1 & Hs1 & Hl1).
  destruct (IH _ _ H) as (He2 & Ha2 & Hf2 & Hs2 & Hl2).
  split_and!; [congruence|congruence|congruence|by etrans|simpl; lia].
Qed.

Lemma local_indices_length sc entity data_coll : ∀ indices,
  local_indices sc entity data_coll = Some indices →
  length indices = length (filter (λ c, entity ∈ Constraint_dependencies c) data_coll).
Proof.
  induction data_coll as [|c data_coll IH]; intros indices H; simpl in H.
  { by injection H as <-. }
  rewrite filter_cons.
  destruct (decide (entity ∈ Constraint_dependencies c)) as [Hd|Hd].
  - rewrite bool_decide_eq_true_2 in H by done.
    destruct (get_index sc c); simpl in H; [|done].
    destruct (local_indices sc entity data_coll) as [l|]; simpl in H; [|done].
    injection H as <-. simpl. f_equal. by apply IH.
  - rewrite bool_decide_eq_false_2 in H by done. by apply IH.
Qed.

Lemma constraint_local_indices_length sc entity lists : ∀ k ret_list,
  constraint_local_indices_from sc entity k lists = Some ret_list →
  sum_list_with (λ p : nat * list nat, length p.2) ret_list
  = length (filter (λ c, entity ∈ Constraint_dependencies c) (concat lists)).
Proof.
  induction lists as [|data_coll lists IH]; intros k ret_list H; simpl in H.
  { by injection H as <-. }
  destruct (local_indices sc entity data_coll) as [indices|] eqn:Hl; simpl in H; [|done].
  destruct (constraint_local_indices_from sc entity (S k) lists) as [ret|] eqn:Hr;
    simpl in H; [|done].
  injection H as <-. simpl. rewrite filter_app, length_app.
  rewrite (local_indices_length _ _ _ _ Hl), (IH _ _ Hr). done.
Qed.

Lemma delete_entity_delete_spec sc entity sc' :
  delete_entity_delete sc entity = Some sc' →
  is_Some (entities_get sc entity) ∧
  sc_entities sc' = delete entity (sc_entities sc) ∧
  active_sketch_i sc' = active_sketch_i sc ∧
  map fst (sc_constraints sc') = map fst (sc_constraints sc) ∧
  constraints_all sc' `sublist_of` constraints_all sc ∧
  (length (constraints_all sc')
   + length (filter (λ c, entity ∈ Constraint_dependencies c) (constraints_all sc))
   = length (constraints_all sc))%nat.
Proof.
  unfold delete_entity_delete. intros H.
  destruct (entities_get sc entity) as [e|] eqn:He; simpl in H; [|done].
  split; [eauto|].
  destruct (get_constraint_local_indices _ entity) as [ret_list|] eqn:Hret;
    simpl in H; [|done].
  destruct (remove_collected _ (reverse ret_list)) as [sc2|] eqn:Hrem; simpl in H; [|done].
  injection H as <-.
  destruct (remove_collected_spec _ _ _ Hrem) as (He2 & Ha2 & Hf2 & Hs2 & Hl2).
  apply constraint_local_indices_length in Hret.
  rewrite sum_list_with_reverse, Hret in Hl2. simpl in *.
  split_and!; [|done..].
  rewrite He2. simpl. apply delete_alter_eq.
Qed.

(** X7: when [delete] returns, the entity store has lost the given entity
    and nothing else, the active sketch is the same, and the constraints
    are the earlier ones, in their order, without as many of them as depend
    on the entity: none is added or changed. *)
Theorem delete_removes_entity_and_count sc entity sc' :
  delete_entity_delete sc entity = Some sc' →
  sc_entities sc' = delete entity (sc_entities sc) ∧
  active_sketch_i sc' = active_sketch_i sc ∧
  constraints_all sc' `sublist_of` constraints_all sc ∧
  (length (constraints_all sc')
   + length (filter (λ c, entity ∈ Constraint_dependencies c) (constraints_all sc))
   = length (constraints_all sc))%nat.
Proof.
  intros H. apply delete_entity_delete_spec in H as (_ & ? & ? & _ & ? & ?). done.
Qed.

Lemma delete_all_spec indices : ∀ sc sc',
  delete_all sc indices = Some sc' →
  (∀ j, entities_get sc' j = if bool_decide (j ∈ indices) then None else entities_get sc j) ∧
  active_sketch_i sc' = active_sketch_i sc ∧
  constraints_all sc' `sublist_of` constraints_all sc.
Proof.
  induction indices as [|i indices IH]; intros sc sc' H; simpl in H.
  { injection H as <-. split_and!; [|done..]. intros j.
    rewrite bool_decide_eq_false_2; [done|]. apply not_elem_of_nil. }
  destruct (delete_entity_delete sc i) as [sc1|] eqn:H1; simpl in H; [|done].
  apply delete_entity_delete_spec in H1 as (_ & He1 & Ha1 & _ & Hs1 & _).
  destruct (IH _ _ H) as (He2 & Ha2 & Hs2).
  split_and!; [|congruence|by etrans].
  intros j. rewrite He2. unfold entities_get. rewrite He1.
  destruct (decide (j = i)) as [->|Hne].
  - rewrite lookup_delete_eq, (bool_decide_eq_true_2 (i ∈ i :: indices)) by left.
    by destruct (bool_decide _).
  - rewrite lookup_delete_ne by done.
    destruct (decide (j ∈ indices)) as [Hin|Hin].
    + by rewrite !bool_decide_eq_true_2 by (done || by right).
    + rewrite !bool_decide_eq_false_2; [done| |done].
      intros Hj. apply elem_of_cons in Hj as [?|?]; done.
Qed.

Lemma get_sketch_deps_indicies_elem sc sk j :
  j ∈ get_sketch_deps_indicies sc sk ↔ (entities_get sc j ≫= sketch_i) = Some sk.
Proof.
  unfold get_sketch_deps_indicies. rewrite list_elem_of_filter, get_scene_entities_elem.
  split; [by intros [? _]|]. intros H. split; [done|].
  destruct (entities_get sc j); [eauto|done].
Qed.

(** X8: deleting a sketch with [main] removes the sketch and every entity
    that belongs to it, whether another entity depends on it or not, leaves
    every other entity as it is, adds or changes no constraint, and no
    sketch is active afterwards. *)
Theorem delete_sketch_cascades sc i ent r sc' reports :
  entities_get sc i = Some ent →
  Entity_is_sketch ent = true →
  delete_entity_main sc i = Some (r, sc', reports) →
  r = NoReturn ∧ reports = [] ∧ active_sketch_i sc' = -1 ∧
  (∀ j, entities_get sc' j
        = if bool_decide (j = i ∨ (entities_get sc j ≫= sketch_i) = Some i)
          then None else entities_get sc j) ∧
  constraints_all sc' `sublist_of` constraints_all sc.
Proof.
  intros Hent Hsk H. unfold delete_entity_main in H. rewrite Hent, Hsk in H.
  set (sc1 := if bool_decide (active_sketch_i sc ≠ -1) then activate_sketch sc (-1) else sc)
    in H.
  assert (Hsc1 : sc_entities sc1 = sc_entities sc ∧ sc_constraints sc1 = sc_constraints sc
                 ∧ active_sketch_i sc1 = -1).
  { unfold sc1. destruct (decide (active_sketch_i sc = -1)) as [Ha|Ha].
    - by rewrite bool_decide_eq_false_2 by (by intros ?).
    - by rewrite bool_decide_eq_true_2. }
  destruct Hsc1 as (He1 & Hc1 & Ha1).
  assert (Hdeps : get_sketch_deps_indicies sc1 i = get_sketch_deps_indicies sc i).
  { unfold get_sketch_deps_indicies, get_scene_entities, entities_get. by rewrite He1. }
  rewrite Hdeps in H. clearbody sc1.
  destruct (delete_all sc1 _) as [sc2|] eqn:H2; simpl in H; [|done].
  destruct (delete_entity_delete sc2 i) as [sc3|] eqn:H3; simpl in H; [|done].
  injection H as <- <- <-.
  apply delete_all_spec in H2 as (He2 & Ha2 & Hs2).
  apply delete_entity_delete_spec in H3 as (_ & He3 & Ha3 & _ & Hs3 & _).
  split_and!; [done|done|congruence| |].
  - intros j. unfold entities_get at 1. rewrite He3.
    destruct (decide (j = i)) as [->|Hne].
    + rewrite lookup_delete_eq. by rewrite bool_decide_eq_true_2 by (by left).
    + rewrite lookup_delete_ne by done. fold (entities_get sc2 j). rewrite He2.
      unfold entities_get at 1. rewrite He1. fold (entities_get sc j).
      destruct (decide ((entities_get sc j ≫= sketch_i) = Some i)) as [Hin|Hin].
      * rewrite !bool_decide_eq_true_2; [done|by right|].
        apply elem_of_reverse. by apply get_sketch_deps_indicies_elem.
      * rewrite !bool_decide_eq_false_2; [done| |].
        -- intros [?|?]; done.
        -- rewrite elem_of_reverse, get_sketch_deps_indicies_elem. done.
  - unfold constraints_all in Hs2. rewrite Hc1 in Hs2. by etrans.
Qed.

(** ** Dependencies after a deletion *)

Lemma depends_on_delete sc sc' e x y :
  sc_entities sc' = delete e (sc_entities sc) →
  depends_on sc' x y ↔ x ≠ e ∧ depends_on sc x y.
Proof.
  intros He. unfold depends_on, dependencies_at, entities_get. rewrite He.
  destruct (decide (x = e)) as [->|Hne].
  - rewrite lookup_delete_eq. simpl. split.
    + by intros (deps & ? & _).
    + by intros [? _].
  - rewrite lookup_delete_ne by done. split; [by intros ?|by intros [_ ?]].
Qed.

Lemma tc_depends_on_delete sc sc' e b x :
  sc_entities sc' = delete e (sc_entities sc) →
  (∀ a, ¬ tc (depends_on sc) a e) →
  tc (depends_on sc') b x ↔ b ≠ e ∧ tc (depends_on sc) b x.
Proof.
  intros He Hunref. split.
  - intros H. induction H as [b x H|b y x H _ [_ IH]].
    + apply (depends_on_delete _ _ _ _ _ He) in H as [? ?].
      split; [done|by apply tc_once].
    + apply (depends_on_delete _ _ _ _ _ He) in H as [? ?].
      split; [done|by eapply tc_l].
  - intros [Hb H]. induction H as [b x H|b y x H Hyx IH].
    + apply tc_once. by apply (depends_on_delete _ _ _ _ _ He).
    + eapply tc_l.
      * apply (depends_on_delete _ _ _ _ _ He). split; [done|exact H].
      * apply IH. intros ->. apply (Hunref b). by apply tc_once.
Qed.

Lemma not_referenced_tc sc e :
  is_entity_referenced sc e = false → ∀ a, ¬ tc (depends_on sc) a e.
Proof.
  intros Hf a Ha.
  assert (is_entity_referenced sc e = true) as Ht by (apply is_entity_referenced_tc; eauto).
  congruence.
Qed.

Lemma deps_live_iff sc :
  deps_live sc ↔ ∀ x y, depends_on sc x y → is_Some (entities_get sc y).
Proof.
  unfold deps_live. rewrite map_Forall_lookup. split.
  - intros H x y (deps & Hdeps & Hy). unfold dependencies_at, entities_get in Hdeps.
    destruct (sc_entities sc !! x) as [ent|] eqn:Hx; simpl in Hdeps; [|done].
    specialize (H x ent Hx). rewrite Hdeps in H. simpl in H.
    rewrite Forall_forall in H. by apply H.
  - intros H x ent Hx. apply Forall_forall. intros y Hy.
    apply (H x). destruct (dependencies ent) as [deps|] eqn:Hdeps; simpl in Hy.
    + exists deps. split; [|done]. unfold dependencies_at, entities_get.
      rewrite Hx. done.
    + by apply elem_of_nil in Hy.
Qed.

Lemma deps_live_delete sc sc' e :
  sc_entities sc' = delete e (sc_entities sc) →
  is_entity_referenced sc e = false →
  deps_live sc → deps_live sc'.
Proof.
  rewrite !deps_live_iff. intros He Hunref Hlive x y Hxy.
  apply (depends_on_delete _ _ _ _ _ He) in Hxy as [Hx Hxy].
  unfold entities_get. rewrite He, lookup_delete_ne; [by eapply Hlive|].
  intros ->. apply (not_referenced_tc _ _ Hunref x). by apply tc_once.
Qed.

(** X9: deleting with [main] an entity that is no sketch and that nothing
    depends on changes the dependencies of no other entity: afterwards each
    entity depends on what it depended on before, the deleted entity is
    among the dependencies of none, and no entity has become referenced. *)
Theorem delete_unreferenced_keeps_dependencies sc e ent r sc' reports :
  entities_get sc e = Some ent →
  Entity_is_sketch ent = false →
  is_entity_referenced sc e = false →
  delete_entity_main sc e = Some (r, sc', reports) →
  r = NoReturn ∧ reports = [] ∧ entities_get sc' e = None ∧
  (∀ b x, x ∈ get_flat_deps sc' b ↔ b ≠ e ∧ x ∈ get_flat_deps sc b) ∧
  (∀ b, e ∉ get_flat_deps sc' b) ∧
  (∀ b, is_entity_referenced sc' b = true → is_entity_referenced sc b = true).
Proof.
  intros Hent Hsk Hunref H. unfold delete_entity_main in H.
  rewrite Hent, Hsk, Hunref in H.
  destruct (delete_entity_delete sc e) as [sc1|] eqn:Hdel; simpl in H; [|done].
  injection H as <- <- <-.
  apply delete_entity_delete_spec in Hdel as (_ & He & _).
  pose proof (not_referenced_tc _ _ Hunref) as Hno.
  assert (Hflat : ∀ b x, x ∈ get_flat_deps sc1 b ↔ b ≠ e ∧ x ∈ get_flat_deps sc b).
  { intros b x. rewrite !get_flat_deps_tc. by apply tc_depends_on_delete. }
  split_and!; [done|done| |done| |].
  - unfold entities_get. rewrite He. apply lookup_delete_eq.
  - intros b Hb. apply Hflat in Hb as [_ Hb]. apply get_flat_deps_tc in Hb.
    by apply (Hno b).
  - intros b. rewrite !is_entity_referenced_tc. intros (a & Ha).
    apply (tc_depends_on_delete _ _ _ _ _ He Hno) in Ha as [_ Ha]. eauto.
Qed.

Lemma delete_batch_spec indices : ∀ sc sc',
  delete_batch sc indices = Some sc' →
  (deps_live sc → deps_live sc') ∧
  (∀ j, entities_get sc' j = entities_get sc j ∨
        (j ∈ indices ∧ entities_get sc' j = None)) ∧
  active_sketch_i sc' = active_sketch_i sc ∧
  constraints_all sc' `sublist_of` constraints_all sc.
Proof.
  induction indices as [|i indices IH]; intros sc sc' H; simpl in H.
  { injection H as <-. split_and!; [done| |done..]. intros j. by left. }
  destruct (is_entity_referenced sc i) eqn:Href.
  - destruct (IH _ _ H) as (Hl & He & Ha & Hs). split_and!; [done| |done..].
    intros j. destruct (He j) as [?|[? ?]]; [by left|right]. split; [by right|done].
  - destruct (delete_entity_delete sc i) as [sc1|] eqn:Hdel; simpl in H; [|done].
    apply delete_entity_delete_spec in Hdel as (_ & He1 & Ha1 & _ & Hs1 & _).
    destruct (IH _ _ H) as (Hl & He & Ha & Hs).
    split_and!; [|..|congruence|by etrans].
    + intros Hsc. apply Hl. by eapply deps_live_delete.
    + intros j. destruct (He j) as [Hj|[Hin Hj]]; [|right; split; [by right|done]].
      destruct (decide (j = i)) as [->|Hne].
      * right. split; [left|]. rewrite Hj. unfold entities_get.
        rewrite He1. apply lookup_delete_eq.
      * left. rewrite Hj. unfold entities_get. rewrite He1. by apply lookup_delete_ne.
Qed.

(** X10: the batch deletion of [execute], taken when no index is given and
    the selection does not hold exactly one entity, finishes without a
    report, removes selected entities only and leaves every other entity as
    it is, adds or changes no constraint, and leaves no entity that depends
    on a removed one when every dependency was in the scene before. *)
Theorem batch_delete_only_selected sc r sc' reports :
  length (selected_entities sc) ≠ 1%nat →
  delete_entity_execute sc (-1) = Some (r, sc', reports) →
  r = FINISHED ∧ reports = [] ∧
  (∀ j, entities_get sc' j = entities_get sc j ∨
        (entity_selected sc j = true ∧ entities_get sc' j = None)) ∧
  constraints_all sc' `sublist_of` constraints_all sc ∧
  (deps_live sc → deps_live sc').
Proof.
  intros Hlen H. unfold delete_entity_execute in H.
  rewrite bool_decide_eq_false_2 in H by (by intros ?).
  rewrite bool_decide_eq_false_2 in H by done.
  destruct (delete_batch sc _) as [sc1|] eqn:Hb; simpl in H; [|done].
  injection H as <- <- <-.
  apply delete_batch_spec in Hb as (Hl & He & _ & Hs).
  split_and!; [done|done| |done|done].
  intros j. destruct (He j) as [?|[Hin ?]]; [by left|right]. split; [|done].
  unfold sort_reverse in Hin. rewrite merge_sort_Permutation in Hin.
  unfold selected_entities in Hin. by apply list_elem_of_filter in Hin as [? _].
Qed.

(** ** Copying constraints to a further new segment *)

Lemma add_constraint_elem sc t ents sk c :
  c ∈ constraints_all (add_constraint sc t ents sk).2 ↔
  c = mkConstraint (new_uid sc) t ents sk ∨ c ∈ constraints_all sc.
Proof.
  unfold constraints_all. simpl.
  destruct (append_constraint_all (sc_constraints sc)
              (mkConstraint (new_uid sc) t ents sk)) as (l1 & l2 & -> & ->).
  rewrite !elem_of_app, elem_of_cons. split.
  - intros [?|[?|?]]; auto.
  - intros [?|[?|?]]; auto.
Qed.

Lemma list_index_lt x ents i : list_index x ents = Some i → (i < length ents)%nat.
Proof.
  unfold list_index. intros H. apply fmap_Some in H as ([j y] & Hf & ->).
  apply list_find_Some in Hf as (Hj & _). by apply lookup_lt_Some in Hj.
Qed.

Lemma copy_constraints_copies index seg new_segment constrs : ∀ sc sc' constrs',
  index ≠ 0%nat →
  copy_constraints sc index seg new_segment constrs = Some (sc', constrs') →
  scene_extends sc sc' ∧
  ∀ c, c ∈ constraints_all sc' →
       c ∈ constraints_all sc ∨
       (not_copied (type c) = false ∧ new_segment ∈ entities c ∧
        ∀ c0, c0 ∈ constraints_all sc → uid c0 ≠ uid c).
Proof.
  induction constrs as [|[u ents] constrs IH]; intros sc sc' constrs' Hindex H; simpl in H.
  { injection H as <- <-. split; [apply scene_extends_refl|]. intros c ?. by left. }
  destruct (list_index seg ents) as [i|] eqn:Hi; simpl in H; [|done].
  rewrite bool_decide_eq_true_2 in H by done.
  destruct (find_constraint sc u) as [c0|] eqn:Hc0; simpl in H; [|done].
  destruct (not_copied (type c0)) eqn:Hty.
  - destruct (copy_constraints sc index seg new_segment constrs) as [[sc1 rest]|] eqn:Hrec;
      simpl in H; [|done].
    injection H as <- <-. by apply (IH _ _ _ Hindex Hrec).
  - destruct (copy_constraints _ index seg new_segment constrs) as [[sc2 rest]|] eqn:Hrec;
      simpl in H; [|done].
    injection H as <- <-.
    destruct (IH _ _ _ Hindex Hrec) as [Hext Hall].
    pose proof (add_constraint_extends sc (type c0) (<[i:=new_segment]> ents) (sketch c0))
      as Hext1.
    split; [by eapply scene_extends_trans|].
    intros c Hc. destruct (Hall c Hc) as [Hin|(Hn & He & Hu)].
    + apply add_constraint_elem in Hin as [->|Hin]; [right|by left]. simpl.
      split_and!; [done| |].
      * apply list_elem_of_lookup. exists i. apply list_lookup_insert_eq.
        by eapply list_index_lt.
      * intros c1 Hc1. by apply new_uid_fresh.
    + right. split_and!; [done..|]. intros c1 Hc1. apply Hu.
      by apply Hext1.
Qed.

(** X11: when [replace] copies the constraints of the trimmed segment to a
    further new segment (any new segment but the first), every constraint
    of the scene stays as it is and no entity changes; each constraint that
    is added is a new object that references the new segment and is of a
    type other than RATIO, COINCIDENT, MIDPOINT and TANGENT. *)
Theorem copied_constraints_are_new sc index seg new_segment constrs sc' constrs' :
  index ≠ 0%nat →
  copy_constraints sc index seg new_segment constrs = Some (sc', constrs') →
  sc_entities sc' = sc_entities sc ∧
  scene_extends sc sc' ∧
  ∀ c, c ∈ constraints_all sc' →
       c ∈ constraints_all sc ∨
       ((type c ∉ ["RATIO"; "COINCIDENT"; "MIDPOINT"; "TANGENT"]) ∧
        new_segment ∈ entities c ∧
        ∀ c0, c0 ∈ constraints_all sc → uid c0 ≠ uid c).
Proof.
  intros Hindex H. split; [by eapply copy_constraints_entities|].
  destruct (copy_constraints_copies _ _ _ _ _ _ _ Hindex H) as [Hext Hall].
  split; [done|]. intros c Hc. destruct (Hall c Hc) as [?|(Hn & ? & ?)]; [by left|right].
  split_and!; [|done..]. unfold not_copied in Hn. by apply bool_decide_eq_false in Hn.
Qed.

(** ** Adding a constraint *)

Lemma get_list_in_append cs c t :
  get_list_in (append_constraint cs c) t
  = if bool_decide (t = type c) then get_list_in cs t ++ [c] else get_list_in cs t.
Proof.
  induction cs as [|[t' l] cs IH]; simpl.
  - repeat case_bool_decide; congruence.
  - repeat (case_bool_decide; simpl); rewrite ?IH; repeat (case_bool_decide; simpl);
      congruence.
Qed.

(** X12: the [main] of a constraint operator adds one constraint: a new
    object at the end of the collection of the operator's type, over the
    picked entities and in the active sketch.  The other collections and the
    active sketch stay as they are, and every entity is the one it was,
    deselected and wherever the solver put it.  The coincident operator does
    just this unless both picked entities are points. *)
Theorem constraint_op_adds_one sc t ents :
  ∃ sc',
    GenericConstraintOp_main sc t ents = (true, sc') ∧
    get_list sc' t = get_list sc t ++ [mkConstraint (new_uid sc) t ents (active_sketch sc)] ∧
    (∀ c, c ∈ constraints_all sc → uid c ≠ new_uid sc) ∧
    (∀ t', t' ≠ t → get_list sc' t' = get_list sc t') ∧
    active_sketch_i sc' = active_sketch_i sc ∧
    (∀ i, entities_get sc' i
          = (λ e, set_co (solved_co (deselect_all (add_constraint sc t ents (active_sketch sc)).2)
                                    (active_sketch sc) i (set_selected false e))
                         (set_selected false e)) <$> entities_get sc i) ∧
    (∀ i, entity_selected sc' i = false) ∧
    (∀ entity1 entity2,
       is_point_at sc entity1 && is_point_at sc entity2 = false →
       t = "COINCIDENT" → ents = [entity1; entity2] →
       add_coincident_main sc entity1 entity2 = (true, sc')).
Proof.
  eexists. split; [reflexivity|].
  assert (Hget : ∀ i, entities_get
                        (solve_system (deselect_all (add_constraint sc t ents (active_sketch sc)).2)
                                      (active_sketch sc)) i
          = (λ e, set_co (solved_co (deselect_all (add_constraint sc t ents (active_sketch sc)).2)
                                    (active_sketch sc) i (set_selected false e))
                         (set_selected false e)) <$> entities_get sc i).
  { intros i. rewrite solve_system_get. unfold deselect_all, entities_get. simpl.
    rewrite lookup_fmap. by destruct (sc_entities sc !! i). }
  split_and!.
  - unfold get_list. simpl. rewrite get_list_in_append. simpl.
    by rewrite bool_decide_eq_true_2.
  - intros c. apply new_uid_fresh.
  - intros t' Hne. unfold get_list. simpl. rewrite get_list_in_append. simpl.
    by rewrite bool_decide_eq_false_2.
  - done.
  - exact Hget.
  - intros i. unfold entity_selected. rewrite Hget.
    by destruct (entities_get sc i).
  - intros entity1 entity2 Hp -> ->. unfold add_coincident_main. by rewrite Hp.
Qed.

(** ** What the trim operator collects *)

Lemma add_endpoints_collected sc seg ent ps : ∀ ts ts',
  entities_get sc seg = Some ent →
  Entity_is_closed ent = false →
  (∀ p, p ∈ ps → p ∈ connection_points ent) →
  Forall (trim_collected sc seg) (_intersections ts) →
  add_endpoints sc ts ps = Some ts' →
  Forall (trim_collected sc seg) (_intersections ts') ∧
  segment ts' = segment ts ∧ pos ts' = pos ts ∧
  obsolete_intersections ts' = obsolete_intersections ts ∧
  reuse_segment ts' = reuse_segment ts.
Proof.
  intros ts ts' Hseg Hopen. revert ts ts'.
  induction ps as [|p ps IH]; intros ts ts' Hps Hall H; simpl in H.
  { by injection H as <-. }
  destruct (entities_get sc p) as [e|] eqn:Hp; simpl in H; [|done].
  apply IH in H as (Hall' & -> & -> & -> & ->); [done| |].
  - intros q Hq. apply Hps. by right.
  - simpl. rewrite alter_app_r_alt by lia. rewrite Nat.sub_diag. simpl.
    apply Forall_app. split; [done|]. apply Forall_singleton.
    split_and!; [done..|]. simpl. exists ent, e. split_and!; [done|done| |done..].
    apply Hps. left.
Qed.

Lemma add_all_intersections ts el cos :
  _intersections (add_all ts el cos) = _intersections ts ++ map (Intersection_init el) cos ∧
  segment (add_all ts el cos) = segment ts ∧ pos (add_all ts el cos) = pos ts ∧
  obsolete_intersections (add_all ts el cos) = obsolete_intersections ts ∧
  reuse_segment (add_all ts el cos) = reuse_segment ts.
Proof.
  revert ts. induction cos as [|c cos IH]; intros ts; simpl.
  { by rewrite app_nil_r. }
  destruct (IH (set_intersections ts (_intersections ts ++ [Intersection_init el c])))
    as (-> & -> & -> & -> & ->).
  simpl. by rewrite <-app_assoc.
Qed.

Lemma add_crossings_collected sc seg sk es : ∀ ts,
  active_sketch sc = Some sk →
  (∀ e, e ∈ es → e ∈ sketch_entities sc sk) →
  Forall (trim_collected sc seg) (_intersections ts) →
  Forall (trim_collected sc seg) (_intersections (add_crossings sc seg ts es)) ∧
  segment (add_crossings sc seg ts es) = segment ts ∧
  pos (add_crossings sc seg ts es) = pos ts ∧
  obsolete_intersections (add_crossings sc seg ts es) = obsolete_intersections ts ∧
  reuse_segment (add_crossings sc seg ts es) = reuse_segment ts.
Proof.
  intros ts Hsk. revert ts. induction es as [|e es IH]; intros ts Hes Hall; simpl.
  { done. }
  assert (Hes' : ∀ e', e' ∈ es → e' ∈ sketch_entities sc sk).
  { intros e' He'. apply Hes. by right. }
  destruct (entities_get sc e) as [ent|] eqn:He; [|by apply IH].
  destruct (Entity_is_segment ent) eqn:Hsegm; simpl; [|by apply IH].
  case_bool_decide as Hne; [by apply IH|].
  destruct (add_all_intersections ts (ElEntity e) (intersect sc seg e))
    as (Hi & Hs & Hp & Ho & Hr).
  destruct (IH (add_all ts (ElEntity e) (intersect sc seg e)) Hes')
    as (Hall' & -> & -> & -> & ->); [|done].
  rewrite Hi. apply Forall_app. split; [done|].
  apply Forall_forall. intros intr Hintr.
  apply list_elem_of_fmap in Hintr as (c & -> & Hc).
  split_and!; [done..|]. simpl. split_and!; [done..|].
  exists ent. split_and!; [done..|].
  assert (Hin : e ∈ sketch_entities sc sk) by (apply Hes; left).
  apply get_sketch_deps_indicies_elem in Hin. rewrite He in Hin. simpl in Hin.
  congruence.
Qed.

Lemma add_connected_collected sc seg cs : ∀ ts ts',
  (∀ c, c ∈ cs → c ∈ get_list sc "COINCIDENT" ++ get_list sc "MIDPOINT") →
  Forall (trim_collected sc seg) (_intersections ts) →
  add_connected sc seg ts cs = Some ts' →
  Forall (trim_collected sc seg) (_intersections ts') ∧
  segment ts' = segment ts ∧ pos ts' = pos ts ∧
  obsolete_intersections ts' = obsolete_intersections ts ∧
  reuse_segment ts' = reuse_segment ts.
Proof.
  induction cs as [|c cs IH]; intros ts ts' Hcs Hall H; simpl in H.
  { by injection H as <-. }
  assert (Hcs' : ∀ c', c' ∈ cs → c' ∈ get_list sc "COINCIDENT" ++ get_list sc "MIDPOINT").
  { intros c' Hc'. apply Hcs. by right. }
  case_bool_decide as Hseg; [by apply IH|].
  destruct (head (entities c)) as [p|] eqn:Hhead; simpl in H; [|done].
  destruct (entities_get sc p) as [e|] eqn:Hp; simpl in H; [|done].
  apply IH in H as (Hall' & -> & -> & -> & ->); [done|done|].
  simpl. apply Forall_app. split; [done|]. apply Forall_singleton.
  split_and!; [done..|]. simpl. split; [done|].
  exists c, p, e. split_and!; [|done| |done..].
  - apply Hcs. left.
  - done.
Qed.

Lemma add_endpoints_complete sc ps : ∀ ts ts',
  add_endpoints sc ts ps = Some ts' →
  (∀ intr, intr ∈ _intersections ts → intr ∈ _intersections ts') ∧
  ∀ p e, p ∈ ps → entities_get sc p = Some e →
         set_is_endpoint true (Intersection_init (ElEntity p) (co e)) ∈ _intersections ts'.
Proof.
  induction ps as [|p ps IH]; intros ts ts' H; simpl in H.
  { injection H as <-. split; [done|]. intros p e Hp. by apply elem_of_nil in Hp. }
  destruct (entities_get sc p) as [e|] eqn:Hp; simpl in H; [|done].
  apply IH in H as [Hmono Hnew]. simpl in Hmono.
  rewrite alter_app_r_alt in Hmono by lia. rewrite Nat.sub_diag in Hmono. simpl in Hmono.
  split.
  - intros intr Hintr. apply Hmono. apply elem_of_app. by left.
  - intros q e' Hq He'. apply elem_of_cons in Hq as [->|Hq]; [|by eapply Hnew].
    apply Hmono. apply elem_of_app. right. apply list_elem_of_singleton.
    congruence.
Qed.

Lemma add_crossings_complete sc seg es : ∀ ts,
  (∀ intr, intr ∈ _intersections ts → intr ∈ _intersections (add_crossings sc seg ts es)) ∧
  ∀ e ent c, e ∈ es → entities_get sc e = Some ent → Entity_is_segment ent = true →
             e ≠ seg → c ∈ intersect sc seg e →
             Intersection_init (ElEntity e) c ∈ _intersections (add_crossings sc seg ts es).
Proof.
  induction es as [|e es IH]; intros ts; simpl.
  { split; [done|]. intros e ent c He. by apply elem_of_nil in He. }
  assert (Hskip : (∀ e' ent c, e' = e → entities_get sc e' = Some ent →
                     Entity_is_segment ent = true → e' ≠ seg → c ∈ intersect sc seg e' →
                     False) →
                  (∀ intr, intr ∈ _intersections ts →
                           intr ∈ _intersections (add_crossings sc seg ts es)) ∧
                  ∀ e' ent c, e' ∈ e :: es → entities_get sc e' = Some ent →
                    Entity_is_segment ent = true → e' ≠ seg → c ∈ intersect sc seg e' →
                    Intersection_init (ElEntity e') c
                    ∈ _intersections (add_crossings sc seg ts es)).
  { intros Hno. destruct (IH ts) as [Hmono Hnew]. split; [done|].
    intros e' ent c He' Hent Hsegm Hne Hc. apply elem_of_cons in He' as [->|He'].
    - destruct (Hno e ent c); done.
    - by eapply Hnew. }
  destruct (entities_get sc e) as [ent|] eqn:He.
  2:{ apply Hskip. intros e' ent c -> Hent. congruence. }
  destruct (Entity_is_segment ent) eqn:Hsegm; simpl.
  2:{ apply Hskip. intros e' ent' c -> Hent. congruence. }
  case_bool_decide as Hne.
  { apply Hskip. intros e' ent' c -> _ _ Hne'. done. }
  destruct (IH (add_all ts (ElEntity e) (intersect sc seg e))) as [Hmono Hnew].
  destruct (add_all_intersections ts (ElEntity e) (intersect sc seg e)) as (Hi & _).
  rewrite Hi in Hmono. split.
  - intros intr Hintr. apply Hmono. apply elem_of_app. by left.
  - intros e' ent' c He' Hent' Hsegm' Hne' Hc. apply elem_of_cons in He' as [->|He'].
    + apply Hmono. apply elem_of_app. right. by apply list_elem_of_fmap_2.
    + by eapply Hnew.
Qed.

Lemma add_connected_complete sc seg cs : ∀ ts ts',
  add_connected sc seg ts cs = Some ts' →
  (∀ intr, intr ∈ _intersections ts → intr ∈ _intersections ts') ∧
  ∀ c p ent, c ∈ cs → seg ∈ entities c → head (entities c) = Some p →
             entities_get sc p = Some ent →
             Intersection_init (ElConstraint (uid c)) (co ent) ∈ _intersections ts'.
Proof.
  induction cs as [|c cs IH]; intros ts ts' H; simpl in H.
  { injection H as <-. split; [done|]. intros c p ent Hc. by apply elem_of_nil in Hc. }
  case_bool_decide as Hseg.
  { apply IH in H as [Hmono Hnew]. split; [done|].
    intros c' p ent Hc' Hseg'. apply elem_of_cons in Hc' as [->|Hc']; [done|].
    by apply Hnew. }
  destruct (head (entities c)) as [p|] eqn:Hhead; simpl in H; [|done].
  destruct (entities_get sc p) as [e|] eqn:Hp; simpl in H; [|done].
  apply IH in H as [Hmono Hnew]. simpl in Hmono. split.
  - intros intr Hintr. apply Hmono. apply elem_of_app. by left.
  - intros c' p' ent Hc' Hseg' Hhead' Hp'. apply elem_of_cons in Hc' as [->|Hc'].
    + apply Hmono. apply elem_of_app. right. apply list_elem_of_singleton.
      congruence.
    + by eapply Hnew.
Qed.

(** X13: the segment holder the trim operator builds for the picked segment
    has the segment, the mouse position, nothing obsolete and nothing
    reused, and its intersections are exactly: an endpoint at each
    connection point of the segment when this is not closed, each crossing
    with another segment of the active sketch, and each coincident or
    midpoint constraint that references the segment.  The segment itself and
    entities that are no segments are never among them. *)
Theorem trim_collects_crossings_and_constraints sc seg mouse_pos ts :
  trim_collect sc seg mouse_pos = Some ts →
  segment ts = seg ∧ pos ts = mouse_pos ∧
  obsolete_intersections ts = [] ∧ reuse_segment ts = false ∧
  ∀ intr, intr ∈ _intersections ts ↔ trim_collected sc seg intr.
Proof.
  unfold trim_collect. intros H.
  destruct (active_sketch sc) as [sk|] eqn:Hsk; simpl in H; [|done].
  destruct (TrimSegment_init sc seg mouse_pos) as [trim|] eqn:Hinit; simpl in H; [|done].
  assert (Htrim : Forall (trim_collected sc seg) (_intersections trim) ∧
                  segment trim = seg ∧ pos trim = mouse_pos ∧
                  obsolete_intersections trim = [] ∧ reuse_segment trim = false ∧
                  ∀ ent p e, entities_get sc seg = Some ent →
                    Entity_is_closed ent = false → p ∈ connection_points ent →
                    entities_get sc p = Some e →
                    set_is_endpoint true (Intersection_init (ElEntity p) (co e))
                    ∈ _intersections trim).
  { unfold TrimSegment_init in Hinit.
    destruct (entities_get sc seg) as [ent|] eqn:Hent; simpl in Hinit; [|done].
    destruct (Entity_is_closed ent) eqn:Hclosed.
    - injection Hinit as <-. simpl. split_and!; [constructor|done..|].
      intros ent' p e Hent'. congruence.
    - pose proof (add_endpoints_complete _ _ _ _ Hinit) as [_ Hnew].
      eapply add_endpoints_collected in Hinit as (? & ? & ? & ? & ?);
        [|exact Hent|done|done|constructor].
      split_and!; [done..|]. intros ent' p e Hent' _ Hp He.
      apply (Hnew p e); [|done]. simpl. congruence. }
  destruct Htrim as (Hall & Hs & Hp & Ho & Hr & Hends).
  destruct (add_crossings_collected sc seg sk (sketch_entities sc sk) trim Hsk)
    as (Hall1 & Hs1 & Hp1 & Ho1 & Hr1); [done..|].
  destruct (add_crossings_complete sc seg (sketch_entities sc sk) trim) as [Hmono1 Hnew1].
  pose proof (add_connected_complete _ _ _ _ _ H) as [Hmono2 Hnew2].
  apply add_connected_collected in H as (Hall2 & Hs2 & Hp2 & Ho2 & Hr2); [|done..].
  split_and!; [congruence..|]. intros intr. split.
  { revert intr. by apply Forall_forall. }
  destruct intr as [el c idx b pt]. intros (Hidx & Hpt & Hel). simpl in Hidx, Hpt, Hel.
  subst idx pt. destruct el as [e|u|]; [|..|done].
  - destruct b.
    + destruct Hel as (ent & p & Hent & Hopen & He & Hp' & ->).
      apply Hmono2, Hmono1. by apply (Hends ent e p).
    + destruct Hel as (Hne & Hc & ent & Hent & Hsegm & Hsketch).
      apply Hmono2. apply (Hnew1 e ent c); [|done..].
      apply get_sketch_deps_indicies_elem. rewrite Hent. simpl. congruence.
  - destruct Hel as (-> & c0 & p & ent & Hc0 & <- & Hseg & Hhead & Hp' & ->).
    by apply (Hnew2 c0 p ent).
Qed.

(** ** When [delete] removes the right constraints *)

Lemma get_list_in_middle (pre suf : list (string * list Constraint)) p :
  p.1 ∉ pre.*1 → get_list_in (pre ++ p :: suf) p.1 = p.2.
Proof.
  induction pre as [|[t l] pre IH]; intros Hp; simpl.
  - destruct p as [t l]. simpl. by rewrite bool_decide_eq_true_2.
  - rewrite fmap_cons, not_elem_of_cons in Hp. destruct Hp as [Hne Hp]. simpl in Hne.
    rewrite bool_decide_eq_false_2 by done. by apply IH.
Qed.

Lemma get_index_wf sc pre p suf l1 c l2 :
  constraints_wf sc → sc_constraints sc = pre ++ p :: suf → p.2 = l1 ++ c :: l2 →
  get_index sc c = Some (length l1).
Proof.
  intros (Htags & Htypes & Huids) Hcs Hp. unfold get_index, get_list.
  rewrite Hcs in Htags, Htypes. unfold constraints_all in Huids. rewrite Hcs in Huids.
  assert (Hty : type c = p.1).
  { apply Forall_app in Htypes as [_ Htypes]. apply Forall_cons in Htypes as [Htypes _].
    rewrite Hp in Htypes. apply Forall_app in Htypes as [_ Htypes].
    by apply Forall_cons in Htypes as [? _]. }
  rewrite Hcs, Hty, get_list_in_middle.
  2:{ rewrite fmap_app, fmap_cons in Htags. apply NoDup_app in Htags as (_ & Htags & _).
      intros Hin. apply (Htags _ Hin). left. }
  rewrite map_app, concat_app in Huids. simpl in Huids.
  rewrite !fmap_app in Huids. apply NoDup_app in Huids as (_ & _ & Huids).
  apply NoDup_app in Huids as (Huids & _ & _). rewrite Hp in Huids |- *.
  unfold index_of_uid.
  assert (Hfind : list_find (λ c', uid c' = uid c) (l1 ++ c :: l2) = Some (length l1, c)).
  { apply list_find_Some. split_and!; [by apply list_lookup_middle|done|].
    intros j y Hj Hlt Hy.
    assert (j = length l1); [|lia].
    apply (NoDup_lookup _ _ _ (uid c) Huids).
    - by rewrite list_lookup_fmap, Hj, <-Hy.
    - by rewrite list_lookup_fmap, list_lookup_middle. }
  by rewrite Hfind.
Qed.

Lemma local_indices_none sc entity l :
  Forall (λ c, entity ∉ Constraint_dependencies c) l → local_indices sc entity l = Some [].
Proof.
  induction 1 as [|c l Hc Hl IH]; simpl; [done|]. by rewrite bool_decide_eq_false_2.
Qed.

Lemma local_indices_single sc entity l1 c l2 j :
  Forall (λ c, entity ∉ Constraint_dependencies c) l1 →
  entity ∈ Constraint_dependencies c →
  Forall (λ c, entity ∉ Constraint_dependencies c) l2 →
  get_index sc c = Some j →
  local_indices sc entity (l1 ++ c :: l2) = Some [j].
Proof.
  intros Hl1 Hc Hl2 Hj. induction Hl1 as [|c1 l1 Hc1 Hl1 IH]; simpl.
  - rewrite bool_decide_eq_true_2 by done. rewrite Hj. simpl.
    by rewrite local_indices_none.
  - by rewrite bool_decide_eq_false_2.
Qed.

Lemma at_most_one_split entity (l : list Constraint) :
  (length (filter (λ c, entity ∈ Constraint_dependencies c) l) ≤ 1)%nat →
  Forall (λ c, entity ∉ Constraint_dependencies c) l ∨
  ∃ l1 c l2, l = l1 ++ c :: l2 ∧
             Forall (λ c, entity ∉ Constraint_dependencies c) l1 ∧
             entity ∈ Constraint_dependencies c ∧
             Forall (λ c, entity ∉ Constraint_dependencies c) l2.
Proof.
  induction l as [|c l IH]; intros Hlen; [by left|].
  rewrite filter_cons in Hlen.
  destruct (decide (entity ∈ Constraint_dependencies c)) as [Hc|Hc]; simpl in Hlen.
  - right. exists [], c, l. split_and!; [done|constructor|done|].
    apply Forall_forall. intros c' Hc' Hin.
    assert (c' ∈ filter (λ c, entity ∈ Constraint_dependencies c) l) as Hf
      by (by apply list_elem_of_filter).
    destruct (filter _ l); [by apply elem_of_nil in Hf|simpl in Hlen; lia].
  - destruct (IH Hlen) as [Hall|(l1 & c' & l2 & -> & H1 & Hc' & H2)].
    + left. by constructor.
    + right. exists (c :: l1), c', l2. split_and!; [done|by constructor|done..].
Qed.

Lemma filter_independent_id entity (l : list Constraint) :
  Forall (λ c, entity ∉ Constraint_dependencies c) l →
  filter (λ c, entity ∉ Constraint_dependencies c) l = l.
Proof.
  induction 1 as [|c l Hc Hl IH]; [done|]. by rewrite filter_cons_True, IH.
Qed.

Lemma without_dependents_none entity p :
  Forall (λ c, entity ∉ Constraint_dependencies c) p.2 → without_dependents entity p = p.
Proof.
  intros H. unfold without_dependents. rewrite filter_independent_id by done.
  by destruct p.
Qed.

Lemma without_dependents_single entity p l1 c l2 :
  p.2 = l1 ++ c :: l2 →
  Forall (λ c, entity ∉ Constraint_dependencies c) l1 →
  entity ∈ Constraint_dependencies c →
  Forall (λ c, entity ∉ Constraint_dependencies c) l2 →
  without_dependents entity p = (p.1, l1 ++ l2).
Proof.
  intros Hp H1 Hc H2. unfold without_dependents. rewrite Hp.
  rewrite filter_app, filter_cons_False by (by intros ?).
  by rewrite !filter_independent_id.
Qed.

Lemma remove_collected_app l1 : ∀ sc l2,
  remove_collected sc (l1 ++ l2) = remove_collected sc l1 ≫= λ sc1, remove_collected sc1 l2.
Proof.
  induction l1 as [|[k indices] l1 IH]; intros sc l2; simpl; [done|].
  destruct (remove_indices sc k indices) as [sc1|]; simpl; [apply IH|done].
Qed.

Lemma remove_collected_single sc entity suf : ∀ pre,
  constraints_wf sc → sc_constraints sc = pre ++ suf →
  single_dependents entity suf →
  ∃ ret_list,
    constraint_local_indices_from sc entity (length pre) (map snd suf) = Some ret_list ∧
    ∀ sc0, sc_constraints sc0 = pre ++ suf →
      ∃ sc', remove_collected sc0 (reverse ret_list) = Some sc' ∧
             sc_constraints sc' = pre ++ (without_dependents entity <$> suf) ∧
             sc_entities sc' = sc_entities sc0 ∧
             active_sketch_i sc' = active_sketch_i sc0.
Proof.
  induction suf as [|p suf IH]; intros pre Hwf Hcs Hsingle.
  { exists []. split; [done|]. intros sc0 Hsc0. exists sc0. by split_and!. }
  apply Forall_cons in Hsingle as [Hp Hsingle].
  destruct (IH (pre ++ [p]) Hwf) as (ret & Hret & Hrem);
    [by rewrite <-app_assoc|done|].
  rewrite length_app, Nat.add_1_r in Hret.
  assert (Hloc : ∃ indices,
             local_indices sc entity p.2 = Some indices ∧
             ∀ sc1, sc_constraints sc1 = pre ++ p :: (without_dependents entity <$> suf) →
               ∃ sc', remove_indices sc1 (length pre) indices = Some sc' ∧
                      sc_constraints sc'
                      = pre ++ without_dependents entity p
                            :: (without_dependents entity <$> suf) ∧
                      sc_entities sc' = sc_entities sc1 ∧
                      active_sketch_i sc' = active_sketch_i sc1).
  { destruct (at_most_one_split _ _ Hp) as [Hall|(l1 & c & l2 & Hp2 & H1 & Hc & H2)].
    - exists []. split; [by apply local_indices_none|]. intros sc1 Hsc1.
      exists sc1. split_and!; [done| |done..]. rewrite Hsc1.
      by rewrite (without_dependents_none entity p).
    - exists [length l1]. split.
      { rewrite Hp2. apply local_indices_single; [done..|].
        by eapply get_index_wf. }
      intros sc1 Hsc1. eexists. simpl. rewrite Hsc1.
      rewrite list_lookup_middle by done. simpl. rewrite Hp2.
      rewrite list_lookup_middle by done. simpl. split; [reflexivity|].
      split_and!; [|done..]. simpl. rewrite Hsc1.
      rewrite <-(Nat.add_0_r (length pre)) at 1. rewrite alter_app_r. simpl.
      rewrite (without_dependents_single entity p l1 c l2) by done.
      by rewrite Hp2, delete_middle. }
  destruct Hloc as (indices & Hloc & Hrem1).
  exists ((length pre, indices) :: ret). split.
  { simpl. rewrite Hloc. simpl. rewrite Hret. done. }
  intros sc0 Hsc0. rewrite reverse_cons, remove_collected_app.
  destruct (Hrem sc0) as (sc1 & -> & Hc1 & He1 & Ha1); [by rewrite <-app_assoc|].
  simpl. rewrite <-app_assoc in Hc1. simpl in Hc1.
  destruct (Hrem1 sc1 Hc1) as (sc2 & -> & Hc2 & He2 & Ha2). simpl.
  exists sc2. split_and!; [done|done|congruence|congruence].
Qed.

(** X14: on a constraint store with one collection for each type and no
    constraint object twice, [delete] removes exactly the constraints that
    depend on the entity, and the entity, as long as no collection holds
    two constraints that depend on it; it then always returns. *)
Theorem delete_exact_for_single_dependents sc entity :
  constraints_wf sc →
  is_Some (entities_get sc entity) →
  single_dependents entity (sc_constraints sc) →
  ∃ sc',
    delete_entity_delete sc entity = Some sc' ∧
    sc_constraints sc' = without_dependents entity <$> sc_constraints sc ∧
    sc_entities sc' = delete entity (sc_entities sc) ∧
    active_sketch_i sc' = active_sketch_i sc.
Proof.
  intros Hwf [ent Hent] Hsingle. unfold delete_entity_delete. rewrite Hent. simpl.
  set (sc1 := set_entities sc (alter (set_selected false) entity (sc_entities sc))).
  destruct (remove_collected_single sc1 entity (sc_constraints sc) [])
    as (ret & Hret & Hrem); [done..|].
  unfold get_constraint_local_indices, get_lists. simpl in Hret |- *. rewrite Hret. simpl.
  destruct (Hrem sc1) as (sc2 & -> & Hc2 & He2 & Ha2); [done|]. simpl.
  eexists. split; [reflexivity|]. split_and!; [done| |done].
  simpl. rewrite He2. simpl. apply delete_alter_eq.
Qed.

(** ** The indices [get_constraint_local_indices] collects *)

Lemma elem_of_positions_from entity l : ∀ k j,
  j ∈ positions_from k entity l ↔
  (k ≤ j)%nat ∧ ∃ c, l !! (j - k)%nat = Some c ∧ entity ∈ Constraint_dependencies c.
Proof.
  induction l as [|c l IH]; intros k j; simpl.
  { rewrite elem_of_nil. split; [done|]. by intros (_ & c & ? & _). }
  assert (Htail : j ∈ positions_from (S k) entity l ↔
                  (k < j)%nat ∧ ∃ c', l !! (j - S k)%nat = Some c' ∧
                                      entity ∈ Constraint_dependencies c').
  { rewrite IH. split; intros [? ?]; (split; [lia|done]). }
  assert (Hcons : (k < j)%nat → (c :: l) !! (j - k)%nat = l !! (j - S k)%nat).
  { intros Hlt. replace (j - k)%nat with (S (j - S k)) by lia. done. }
  case_bool_decide as Hc.
  - rewrite elem_of_cons, Htail. split.
    + intros [->|(Hlt & c' & Hc' & Hd)].
      * split; [lia|]. exists c. by rewrite Nat.sub_diag.
      * split; [lia|]. exists c'. by rewrite Hcons.
    + intros (Hle & c' & Hc' & Hd). destruct (decide (j = k)) as [->|Hne]; [by left|].
      right. split; [lia|]. exists c'. rewrite <-Hcons by lia. done.
  - rewrite Htail. split.
    + intros (Hlt & c' & Hc' & Hd). split; [lia|]. exists c'. by rewrite Hcons.
    + intros (Hle & c' & Hc' & Hd). destruct (decide (j = k)) as [->|Hne].
      * rewrite Nat.sub_diag in Hc'. simpl in Hc'. by injection Hc' as ->.
      * split; [lia|]. exists c'. rewrite <-Hcons by lia. done.
Qed.

Lemma positions_from_sorted entity l : ∀ k, StronglySorted lt (positions_from k entity l).
Proof.
  induction l as [|c l IH]; intros k; simpl; [constructor|].
  case_bool_decide; [|apply IH]. constructor; [apply IH|].
  apply Forall_forall. intros j Hj. apply elem_of_positions_from in Hj as [? _]. lia.
Qed.

Lemma local_indices_wf sc entity cpre p csuf suf : ∀ pre,
  constraints_wf sc → sc_constraints sc = cpre ++ p :: csuf → p.2 = pre ++ suf →
  local_indices sc entity suf = Some (positions_from (length pre) entity suf).
Proof.
  induction suf as [|c suf IH]; intros pre Hwf Hcs Hp; simpl; [done|].
  rewrite (IH (pre ++ [c])); [|done|done|by rewrite <-app_assoc].
  rewrite length_app, Nat.add_1_r. simpl.
  case_bool_decide; [|done].
  by rewrite (get_index_wf sc cpre p csuf pre c suf).
Qed.

Lemma constraint_local_indices_wf sc entity csuf : ∀ cpre,
  constraints_wf sc → sc_constraints sc = cpre ++ csuf →
  ∃ ret_list,
    constraint_local_indices_from sc entity (length cpre) (map snd csuf) = Some ret_list ∧
    ∀ k, ret_list !! k
         = (λ p : string * list Constraint,
              ((length cpre + k)%nat, positions_from 0 entity p.2)) <$> csuf !! k.
Proof.
  induction csuf as [|p csuf IH]; intros cpre Hwf Hcs.
  { exists []. split; [done|]. intros k. by rewrite !lookup_nil. }
  destruct (IH (cpre ++ [p]) Hwf) as (ret & Hret & Hlook); [by rewrite <-app_assoc|].
  rewrite length_app, Nat.add_1_r in Hret.
  exists ((length cpre, positions_from 0 entity p.2) :: ret). split.
  - simpl. rewrite (local_indices_wf sc entity cpre p csuf p.2 []) by done.
    simpl. by rewrite Hret.
  - intros [|k]; simpl.
    + by rewrite Nat.add_0_r.
    + rewrite Hlook, length_app. simpl.
      destruct (csuf !! k); simpl; [|done]. do 2 f_equal. lia.
Qed.

(** X15: on a constraint store with one collection for each type and no
    constraint object twice, [get_constraint_local_indices] returns one
    entry for each collection, in the order of [get_lists()], and the
    indices of an entry are, in ascending order and once each, the
    positions in the collection of the constraints that depend on the
    entity. *)
Theorem constraint_local_indices_are_positions sc entity :
  constraints_wf sc →
  ∃ ret_list,
    get_constraint_local_indices sc entity = Some ret_list ∧
    length ret_list = length (sc_constraints sc) ∧
    ∀ k p, sc_constraints sc !! k = Some p →
      ∃ indices,
        ret_list !! k = Some (k, indices) ∧
        StronglySorted lt indices ∧
        ∀ j, j ∈ indices ↔
             ∃ c, p.2 !! j = Some c ∧ entity ∈ Constraint_dependencies c.
Proof.
  intros Hwf.
  destruct (constraint_local_indices_wf sc entity (sc_constraints sc) [] Hwf eq_refl)
    as (ret & Hret & Hlook).
  exists ret. split; [exact Hret|]. split.
  - apply Nat.le_antisymm; apply Nat.nlt_ge; intros Hlt.
    + apply lookup_lt_is_Some_2 in Hlt as [x Hx].
      pose proof (Hlook (length (sc_constraints sc))) as Hk.
      rewrite Hx, lookup_ge_None_2 in Hk by done. done.
    + apply lookup_lt_is_Some_2 in Hlt as [p Hp].
      pose proof (Hlook (length ret)) as Hk. rewrite Hp in Hk. simpl in Hk.
      by rewrite lookup_ge_None_2 in Hk.
  - intros k p Hp. exists (positions_from 0 entity p.2). split_and!.
    + rewrite Hlook, Hp. done.
    + apply positions_from_sorted.
    + intros j. rewrite elem_of_positions_from, Nat.sub_0_r. split.
      * by intros [_ ?].
      * intros ?. split; [lia|done].
Qed.

(** ** Moving the constraints of a circle to its first arc *)

Lemma set_constraint_entity_all sc u i v :
  constraints_all (set_constraint_entity sc u i v)
  = (λ c, if bool_decide (uid c = u)
          then mkConstraint (uid c) (type c) (<[i := v]> (entities c)) (sketch c)
          else c) <$> constraints_all sc.
Proof.
  unfold constraints_all. simpl. induction (sc_constraints sc) as [|[t l] cs IH]; simpl.
  - done.
  - rewrite IH. by rewrite fmap_app.
Qed.

Lemma list_index_elem x ents : x ∈ ents → is_Some (list_index x ents).
Proof.
  intros Hx. unfold list_index.
  destruct (list_find_elem_of (λ y, y = x) ents x Hx eq_refl) as [[i y] ->]. by eexists.
Qed.

Lemma copy_constraints_first seg new_segment constrs : ∀ sc,
  NoDup constrs.*1 →
  (∀ u ents, (u, ents) ∈ constrs → seg ∈ ents) →
  ∃ sc', copy_constraints sc 0 seg new_segment constrs = Some (sc', constrs) ∧
         sc_entities sc' = sc_entities sc ∧
         constraints_all sc' = remap_by seg new_segment constrs <$> constraints_all sc.
Proof.
  induction constrs as [|[u ents] constrs IH]; intros sc Hnd Hseg; simpl.
  { exists sc. split_and!; [done..|]. unfold remap_by. simpl.
    by rewrite list_fmap_id. }
  destruct (list_index_elem seg ents) as [i Hi]; [apply (Hseg u); left|].
  rewrite Hi. simpl.
  rewrite fmap_cons in Hnd. apply NoDup_cons in Hnd as [Hu Hnd]. simpl in Hu.
  destruct (IH (set_constraint_entity sc u i new_segment) Hnd) as (sc' & -> & He & Hc).
  { intros u' ents' Hin. apply (Hseg u'). by right. }
  simpl. exists sc'. split_and!; [done..|].
  rewrite Hc, set_constraint_entity_all, <-list_fmap_compose.
  apply list_fmap_ext. intros _ c _. simpl. unfold remap_by at 2. simpl.
  destruct (decide (u = uid c)) as [->|Hne].
  - rewrite bool_decide_eq_true_2 by done. rewrite Hi.
    unfold remap_by. simpl.
    assert (list_find (λ p : nat * list Z, p.1 = uid c) constrs = None) as ->; [|done].
    apply list_find_None, Forall_forall. intros [u' ents'] Hin Heq. simpl in Heq.
    apply Hu. rewrite <-Heq. by apply (list_elem_of_fmap_2 fst _ (u', ents')).
  - rewrite bool_decide_eq_false_2 by done. unfold remap_by.
    by destruct (list_find _ constrs) as [[j [u' ents']]|].
Qed.

Lemma collect_constrs_uids sc seg :
  (collect_constrs sc seg).*1 `sublist_of` uid <$> constraints_all sc.
Proof.
  unfold collect_constrs. induction (constraints_all sc) as [|c l IH]; [done|].
  simpl. case_bool_decide; simpl.
  - by apply sublist_skip.
  - by apply sublist_cons.
Qed.

Lemma NoDup_fmap_eq {A B} (f : A → B) (l : list A) x y :
  NoDup (f <$> l) → x ∈ l → y ∈ l → f x = f y → x = y.
Proof.
  intros Hnd Hx Hy Heq. apply list_elem_of_lookup in Hx as [i Hi], Hy as [j Hj].
  assert (i = j) as ->; [|congruence].
  apply (NoDup_lookup _ _ _ (f x) Hnd).
  - by rewrite list_lookup_fmap, Hi.
  - by rewrite list_lookup_fmap, Hj, Heq.
Qed.

(** X16: the remap for the first new segment, which [replace] runs when the
    trimmed segment is a circle, always returns when the constraint objects
    of the scene are distinct and the collected ones are still in the scene;
    each collected constraint then references the new segment where it first
    referenced the trimmed one, and nothing else changes: no constraint is
    added, removed or moved, no entity is touched. *)
Theorem first_new_segment_takes_constraints sc seg new_segment constrs :
  NoDup (uid <$> constraints_all sc) →
  constrs `sublist_of` collect_constrs sc seg →
  ∃ sc',
    copy_constraints sc 0 seg new_segment constrs = Some (sc', constrs) ∧
    sc_entities sc' = sc_entities sc ∧
    constraints_all sc'
    = (λ c, if bool_decide ((uid c, entities c) ∈ constrs)
            then retarget seg new_segment c else c) <$> constraints_all sc.
Proof.
  intros Hnd Hsub.
  assert (Hin : ∀ u ents, (u, ents) ∈ constrs →
            seg ∈ ents ∧ ∃ c, c ∈ constraints_all sc ∧ uid c = u ∧ entities c = ents).
  { intros u ents Hu. eapply elem_of_sublist in Hu; [|exact Hsub].
    unfold collect_constrs in Hu. apply list_elem_of_omap in Hu as (c & Hc & Hf).
    case_bool_decide; [|done]. injection Hf as <- <-. eauto. }
  assert (Hkeys : NoDup constrs.*1).
  { eapply sublist_NoDup; [exact Hnd|]. etrans; [|apply collect_constrs_uids].
    by apply fmap_sublist. }
  destruct (copy_constraints_first seg new_segment constrs sc Hkeys) as (sc' & Hc & He & Hall).
  { intros u ents Hu. by destruct (Hin u ents Hu). }
  exists sc'. split_and!; [done..|]. rewrite Hall.
  apply list_fmap_ext. intros k c Hc'. apply list_elem_of_lookup_2 in Hc'.
  unfold remap_by.
  destruct (list_find _ constrs) as [[j [u ents]]|] eqn:Hfind.
  - apply list_find_Some in Hfind as (Hj & Hu & _). simpl in Hu. subst u.
    apply list_elem_of_lookup_2 in Hj.
    destruct (Hin _ _ Hj) as (Hseg & c0 & Hc0 & Hu0 & Hents0).
    assert (c0 = c) as -> by (by apply (NoDup_fmap_eq uid (constraints_all sc))).
    subst ents. rewrite bool_decide_eq_true_2 by done.
    unfold retarget, replace_first.
    destruct (list_index_elem seg (entities c) Hseg) as [i Hi]. by rewrite Hi.
  - rewrite bool_decide_eq_false_2; [done|]. intros Hmem.
    apply list_find_None in Hfind. rewrite Forall_forall in Hfind.
    by apply (Hfind _ Hmem).
Qed.

(** ** What a trim leaves of the other entities *)

Lemma set_co_co (e : Entity) : set_co (co e) e = e.
Proof. by destruct e. Qed.

Lemma kept_or_removed_refl sc : kept_or_removed sc sc.
Proof. intros j ent' H. exists ent'. by rewrite set_co_co. Qed.

Lemma kept_or_removed_trans sc1 sc2 sc3 :
  kept_or_removed sc1 sc2 → kept_or_removed sc2 sc3 → kept_or_removed sc1 sc3.
Proof.
  intros H12 H23 j ent3 H3. destruct (H23 j ent3 H3) as (ent2 & H2 & Heq3).
  destruct (H12 j ent2 H2) as (ent1 & H1 & Heq2). exists ent1. split; [done|].
  rewrite Heq3 at 1. by rewrite Heq2.
Qed.

Lemma only_removed_kept sc sc' :
  (∀ j ent, entities_get sc' j = Some ent → entities_get sc j = Some ent) →
  kept_or_removed sc sc'.
Proof. intros H j ent' Hj. exists ent'. split; [by apply H|by rewrite set_co_co]. Qed.

Lemma delete_entity_delete_only_removes sc entity sc' j ent :
  delete_entity_delete sc entity = Some sc' →
  entities_get sc' j = Some ent → entities_get sc j = Some ent.
Proof.
  intros H. apply delete_entity_delete_spec in H as (_ & He & _).
  unfold entities_get. rewrite He. intros Hj.
  by apply lookup_delete_Some in Hj as [_ ?].
Qed.

Lemma delete_entity_main_only_removes sc i r sc' reports j ent :
  delete_entity_main sc i = Some (r, sc', reports) →
  entities_get sc' j = Some ent → entities_get sc j = Some ent.
Proof.
  unfold delete_entity_main. intros H.
  destruct (entities_get sc i) as [entity|] eqn:Hi; [|by injection H as <- <- <-].
  destruct (Entity_is_sketch entity).
  - set (sc1 := if bool_decide (active_sketch_i sc ≠ -1) then activate_sketch sc (-1) else sc)
      in H.
    assert (He1 : sc_entities sc1 = sc_entities sc).
    { unfold sc1. by destruct (bool_decide _). }
    clearbody sc1.
    destruct (delete_all sc1 _) as [sc2|] eqn:H2; simpl in H; [|done].
    destruct (delete_entity_delete sc2 i) as [sc3|] eqn:H3; simpl in H; [|done].
    injection H as <- <- <-. intros Hj.
    apply (delete_entity_delete_only_removes _ _ _ j ent H3) in Hj.
    apply delete_all_spec in H2 as (He2 & _). rewrite He2 in Hj.
    destruct (bool_decide _); [done|]. unfold entities_get in Hj |- *. by rewrite <-He1.
  - destruct (is_entity_referenced sc i); [by injection H as <- <- <-|].
    destruct (delete_entity_delete sc i) as [sc1|] eqn:H1; simpl in H; [|done].
    injection H as <- <- <-. by apply (delete_entity_delete_only_removes sc i).
Qed.

Lemma delete_entity_execute_only_removes sc index r sc' reports j ent :
  delete_entity_execute sc index = Some (r, sc', reports) →
  entities_get sc' j = Some ent → entities_get sc j = Some ent.
Proof.
  unfold delete_entity_execute. intros H.
  case_bool_decide.
  - destruct (delete_entity_main sc index) as [[[r1 sc1] reports1]|] eqn:Hm;
      simpl in H; [|done].
    injection H as <- <- <-. by eapply delete_entity_main_only_removes.
  - case_bool_decide.
    + destruct (head (selected_entities sc)) as [i|]; simpl in H; [|done].
      destruct (delete_entity_main sc i) as [[[r1 sc1] reports1]|] eqn:Hm;
        simpl in H; [|done].
      injection H as <- <- <-. by eapply delete_entity_main_only_removes.
    + destruct (delete_batch sc _) as [sc1|] eqn:Hb; simpl in H; [|done].
      injection H as <- <- <-. apply delete_batch_spec in Hb as (_ & He & _).
      intros Hj. destruct (He j) as [Heq|[_ Hnone]]; congruence.
Qed.

Lemma delete_constraint_execute_kept sc t i sc' :
  delete_constraint_execute sc t i = Some sc' → kept_or_removed sc sc'.
Proof.
  unfold delete_constraint_execute. intros H.
  destruct (get_list sc t !! i); simpl in H; [|done]. injection H as <-.
  intros j ent' Hj. rewrite solve_system_get in Hj.
  unfold entities_get in Hj |- *. simpl in Hj.
  destruct (sc_entities sc !! j) as [ent|]; simpl in Hj; [|done].
  injection Hj as <-. by exists ent.
Qed.

Lemma remove_obsolete_kept l obsolete : ∀ sc sc',
  remove_obsolete sc l obsolete = Some sc' → kept_or_removed sc sc'.
Proof.
  induction obsolete as [|r obsolete IH]; intros sc sc' H; simpl in H.
  { injection H as <-. apply kept_or_removed_refl. }
  destruct (l !! r) as [intr|]; simpl in H; [|done].
  destruct (element intr) as [e|u|].
  - destruct (delete_entity_execute sc e) as [[[r1 sc1] reports1]|] eqn:Hd;
      simpl in H; [|done].
    eapply kept_or_removed_trans; [|by apply IH].
    apply only_removed_kept. intros j ent.
    by eapply delete_entity_execute_only_removes.
  - destruct (find_constraint sc u) as [c|]; simpl in H; [|done].
    destruct (get_index sc c) as [i|]; simpl in H; [|done].
    destruct (delete_constraint_execute sc (type c) i) as [sc1|] eqn:Hd;
      simpl in H; [|done].
    eapply kept_or_removed_trans; [|by apply IH].
    by eapply delete_constraint_execute_kept.
  - by apply IH.
Qed.

Lemma Entity_replace_frame sc seg p1 p2 use_self i sc' j ent :
  Entity_replace sc seg p1 p2 use_self = Some (i, sc') →
  j ≠ seg → entities_get sc j = Some ent → entities_get sc' j = Some ent.
Proof.
  unfold Entity_replace. intros H Hne Hj.
  destruct (entities_get sc seg) as [e|]; simpl in H; [|done].
  destruct use_self; injection H as <- <-; unfold entities_get; simpl.
  - by rewrite lookup_insert_ne.
  - rewrite lookup_insert_ne; [done|]. intros <-.
    unfold entities_get in Hj. by rewrite new_index_fresh in Hj.
Qed.

Lemma replace_pair_frame sc ts index intrs constrs new_segment sc' ts' constrs' j ent :
  replace_pair sc ts index intrs constrs = Some (new_segment, sc', ts', constrs') →
  j ≠ segment ts → entities_get sc j = Some ent →
  entities_get sc' j = Some ent ∧ segment ts' = segment ts.
Proof.
  unfold replace_pair. intros H Hne Hj. destruct intrs as [r1 r2].
  destruct (get_point_at sc ts r1) as [[[p1 sc1] ts1]|] eqn:Hp1; simpl in H; [|done].
  destruct (get_point_at sc1 ts1 r2) as [[[p2 sc2] ts2]|] eqn:Hp2; simpl in H; [|done].
  destruct (Entity_replace sc2 (segment ts) p1 p2 _) as [[new sc3]|] eqn:Hrep;
    simpl in H; [|done].
  destruct (get_point_at_spec _ _ _ _ _ _ Hp1) as ((He1 & _) & (Hs1 & _) & _).
  destruct (get_point_at_spec _ _ _ _ _ _ Hp2) as ((He2 & _) & (Hs2 & _) & _).
  pose proof (Entity_replace_frame _ _ _ _ _ _ _ j ent Hrep Hne (He2 _ _ (He1 _ _ Hj)))
    as Hj3.
  destruct (bool_decide (index = 0%nat) && negb (is_circle_at sc (segment ts))).
  - injection H as <- <- <- <-. simpl. split; [done|congruence].
  - destruct (copy_constraints sc3 index (segment ts) new constrs) as [[sc4 c']|] eqn:Hcopy;
      simpl in H; [|done].
    injection H as <- <- <- <-. split; [|congruence].
    unfold entities_get. rewrite (copy_constraints_entities _ _ _ _ _ _ _ Hcopy). exact Hj3.
Qed.

Lemma replace_pairs_entities pairs : ∀ sc ts index constrs sc' ts' j ent,
  replace_pairs sc ts index pairs constrs = Some (sc', ts') →
  j ≠ segment ts → entities_get sc j = Some ent →
  entities_get sc' j = Some ent ∧ segment ts' = segment ts.
Proof.
  induction pairs as [|intrs pairs IH]; intros sc ts index constrs sc' ts' j ent H Hne Hj;
    simpl in H.
  { by injection H as <- <-. }
  destruct (replace_pair sc ts index intrs constrs) as [[[[new sc1] ts1] constrs1]|] eqn:Hp;
    simpl in H; [|done].
  destruct (replace_pair_frame _ _ _ _ _ _ _ _ _ j ent Hp Hne Hj) as [Hj1 Hs1].
  rewrite <-Hs1 in Hne. destruct (IH _ _ _ _ _ _ j ent H Hne Hj1) as [? ?].
  split; [done|congruence].
Qed.

(** X17: when [replace] returns, every entity other than the trimmed
    segment that was in the scene before is either gone or the entity it
    was, moved at most: a trim changes the kind, the sketch, the
    dependencies and the connection points of no other entity. *)
Theorem replace_keeps_other_entities sc ts sc' ts' j ent :
  TrimSegment_replace sc ts = Some (sc', ts') →
  j ≠ segment ts →
  entities_get sc j = Some ent →
  entities_get sc' j = None ∨ ∃ v, entities_get sc' j = Some (set_co v ent).
Proof.
  unfold TrimSegment_replace. intros H Hne Hj.
  destruct (replace_prepare sc ts) as [[[[relevant constrs] sc1] ts1]|] eqn:Hprep;
    simpl in H; [|done].
  destruct (replace_pairs sc1 ts1 0 (pairs_of relevant) constrs) as [[sc2 ts2]|] eqn:Hpairs;
    simpl in H; [|done].
  destruct (remove_obsolete sc2 _ _) as [sc3|] eqn:Hobs; simpl in H; [|done].
  destruct (replace_prepare_spec _ _ _ _ _ _ Hprep) as (_ & (He1 & _) & _ & Hs1 & _).
  rewrite <-Hs1 in Hne.
  destruct (replace_pairs_entities _ _ _ _ _ _ _ j ent Hpairs Hne (He1 _ _ Hj)) as [Hj2 Hs2].
  pose proof (remove_obsolete_kept _ _ _ _ Hobs) as Hkept.
  assert (Hj3 : entities_get sc3 j = None ∨ ∃ v, entities_get sc3 j = Some (set_co v ent)).
  { destruct (entities_get sc3 j) as [ent3|] eqn:H3; [right|by left].
    destruct (Hkept j ent3 H3) as (ent2 & H2 & ->). exists (co ent3). congruence. }
  destruct (reuse_segment ts2); injection H as <- <-; [done|].
  assert (Heq : entities_get (entities_remove sc3 (segment ts2)) j = entities_get sc3 j).
  { unfold entities_get. simpl. apply lookup_delete_ne. congruence. }
  by rewrite Heq.
Qed.

Lemma no_new_sketch_refl sc : no_new_sketch sc sc.
Proof. intros i ent' ? ?. eauto. Qed.

Lemma no_new_sketch_trans sc1 sc2 sc3 :
  no_new_sketch sc1 sc2 → no_new_sketch sc2 sc3 → no_new_sketch sc1 sc3.
Proof.
  intros H12 H23 i ent3 H3 Hs3. destruct (H23 i ent3 H3 Hs3) as (ent2 & H2 & Hs2).
  by apply (H12 i ent2).
Qed.

Lemma no_sketch_at_later sc sc' e :
  no_new_sketch sc sc' → no_sketch_at sc e → no_sketch_at sc' e.
Proof.
  intros Hnew Hno ent' He. destruct (Entity_is_sketch ent') eqn:Hs; [|done].
  destruct (Hnew e ent' He Hs) as (ent & Hent & Hs'). by rewrite (Hno ent Hent) in Hs'.
Qed.

Lemma kept_or_removed_no_new_sketch sc sc' : kept_or_removed sc sc' → no_new_sketch sc sc'.
Proof.
  intros Hk i ent' Hi Hs. destruct (Hk i ent' Hi) as (ent & Hent & Heq).
  exists ent. split; [done|]. by rewrite Heq in Hs.
Qed.

Lemma add_point_2d_no_new_sketch sc c sk : no_new_sketch sc (add_point_2d sc c sk).2.
Proof.
  intros i ent' Hi Hs. unfold add_point_2d, entities_get in Hi. simpl in Hi.
  destruct (decide (i = new_index sc)) as [->|Hne].
  - rewrite lookup_insert_eq in Hi. injection Hi as <-. done.
  - rewrite lookup_insert_ne in Hi by done. eauto.
Qed.

Lemma get_point_no_new_sketch sc intr p sc1 intr1 :
  Intersection_get_point sc intr = Some (p, sc1, intr1) →
  no_new_sketch sc sc1 ∧ element intr1 = element intr.
Proof.
  intros H. split.
  2:{ destruct (get_point_spec _ _ _ _ _ H) as (_ & _ & (q & ->) & _). done. }
  unfold Intersection_get_point in H. destruct (element intr) as [e|u|].
  - destruct (entities_get sc e) as [ent|]; simpl in H; [|done].
    destruct (Entity_is_point ent).
    { injection H as <- <- <-. apply no_new_sketch_refl. }
    destruct (_point intr) as [q|].
    { injection H as <- <- <-. apply no_new_sketch_refl. }
    unfold add_coincident, add_constraint in H. simpl in H. injection H as <- <- <-.
    apply (add_point_2d_no_new_sketch sc (intr_co intr) (active_sketch sc)).
  - destruct (find_constraint sc u) as [c|]; simpl in H; [|done].
    destruct (head (entities c)) as [q|]; simpl in H; [|done].
    injection H as <- <- <-. apply no_new_sketch_refl.
  - destruct (_point intr) as [q|].
    { injection H as <- <- <-. apply no_new_sketch_refl. }
    simpl in H. injection H as <- <- <-.
    apply (add_point_2d_no_new_sketch sc (intr_co intr) (active_sketch sc)).
Qed.

Lemma get_point_at_elements sc ts r p sc1 ts1 :
  get_point_at sc ts r = Some (p, sc1, ts1) →
  no_new_sketch sc sc1 ∧
  element <$> _intersections ts1 = element <$> _intersections ts.
Proof.
  unfold get_point_at. intros H.
  destruct (_intersections ts !! r) as [intr|] eqn:Hintr; simpl in H; [|done].
  destruct (Intersection_get_point sc intr) as [[[q sc'] intr1]|] eqn:Hg;
    simpl in H; [|done].
  injection H as <- <- <-. destruct (get_point_no_new_sketch _ _ _ _ _ Hg) as [Hnew Hel].
  split; [done|]. simpl. rewrite list_fmap_insert, Hel.
  apply list_insert_id. by rewrite list_lookup_fmap, Hintr.
Qed.

Lemma ensure_points_loop_elements relevant : ∀ sc ts sc' ts',
  ensure_points_loop sc ts relevant = Some (sc', ts') →
  no_new_sketch sc sc' ∧
  element <$> _intersections ts' = element <$> _intersections ts.
Proof.
  induction relevant as [|r relevant IH]; intros sc ts sc' ts' H; simpl in H.
  { injection H as <- <-. split; [apply no_new_sketch_refl|done]. }
  destruct (get_point_at sc ts r) as [[[p sc1] ts1]|] eqn:Hg; simpl in H; [|done].
  destruct (get_point_at_elements _ _ _ _ _ _ Hg) as [Hn1 He1].
  destruct (IH _ _ _ _ H) as [Hn2 He2].
  split; [by eapply no_new_sketch_trans|congruence].
Qed.

Lemma assign_indices_element refs : ∀ i l,
  element <$> assign_indices i refs l = element <$> l.
Proof.
  induction refs as [|r refs IH]; intros i l; simpl; [done|].
  rewrite IH. apply list_eq. intros j.
  rewrite !list_lookup_fmap. destruct (decide (r = j)) as [->|Hne].
  - rewrite list_lookup_alter_eq. by destruct (l !! j).
  - by rewrite list_lookup_alter_ne.
Qed.

Lemma relevant_intersections_elements sc ts relevant ts' :
  TrimSegment_relevant_intersections sc ts = Some (relevant, ts') →
  element <$> _intersections ts' = element <$> _intersections ts.
Proof.
  unfold TrimSegment_relevant_intersections, TrimSegment_get_intersections.
  cbv beta iota zeta. intros H.
  destruct (head _ ≫= _); simpl in H; [|done].
  destruct (last _ ≫= _); simpl in H; [|done].
  destruct (relevant_loop _ _ _ _) as [[rel obs]|]; simpl in H; [|done].
  injection H as <- <-. simpl. apply assign_indices_element.
Qed.

Lemma replace_prepare_elements sc ts relevant constrs sc1 ts1 :
  replace_prepare sc ts = Some (relevant, constrs, sc1, ts1) →
  no_new_sketch sc sc1 ∧
  element <$> _intersections ts1 = element <$> _intersections ts.
Proof.
  unfold replace_prepare, TrimSegment_ensure_points. intros H.
  destruct (TrimSegment_relevant_intersections sc ts) as [[rel ts0]|] eqn:Hrel;
    simpl in H; [|done].
  rewrite (relevant_intersections_again _ _ _ _ Hrel) in H. simpl in H.
  destruct (ensure_points_loop sc ts0 rel) as [[sc' ts']|] eqn:Hloop; simpl in H; [|done].
  injection H as <- <- <- <-.
  destruct (ensure_points_loop_elements _ _ _ _ _ Hloop) as [Hn He].
  split; [done|]. rewrite He. by eapply relevant_intersections_elements.
Qed.

Lemma Entity_replace_no_new_sketch sc seg p1 p2 use_self i sc' :
  no_sketch_at sc seg →
  Entity_replace sc seg p1 p2 use_self = Some (i, sc') →
  no_new_sketch sc sc'.
Proof.
  unfold Entity_replace. intros Hno H.
  destruct (entities_get sc seg) as [e|] eqn:He; simpl in H; [|done].
  specialize (Hno e He). unfold Entity_is_sketch in Hno.
  apply bool_decide_eq_false in Hno.
  destruct use_self; injection H as <- <-; intros j ent' Hj Hs;
    unfold entities_get in Hj; simpl in Hj.
  - destruct (decide (j = seg)) as [->|Hne].
    + rewrite lookup_insert_eq in Hj. injection Hj as <-.
      unfold Entity_is_sketch in Hs. simpl in Hs. by apply bool_decide_eq_true in Hs.
    + rewrite lookup_insert_ne in Hj by done. eauto.
  - destruct (decide (j = new_index sc)) as [->|Hne].
    + rewrite lookup_insert_eq in Hj. injection Hj as <-.
      unfold Entity_is_sketch in Hs. simpl in Hs. apply bool_decide_eq_true in Hs.
      by destruct (Entity_is_circle e).
    + rewrite lookup_insert_ne in Hj by done. eauto.
Qed.

Lemma replace_pair_elements sc ts index intrs constrs new_segment sc' ts' constrs' :
  no_sketch_at sc (segment ts) →
  replace_pair sc ts index intrs constrs = Some (new_segment, sc', ts', constrs') →
  no_new_sketch sc sc' ∧
  element <$> _intersections ts' = element <$> _intersections ts.
Proof.
  unfold replace_pair. intros Hno H. destruct intrs as [r1 r2].
  destruct (get_point_at sc ts r1) as [[[p1 sc1] ts1]|] eqn:Hp1; simpl in H; [|done].
  destruct (get_point_at sc1 ts1 r2) as [[[p2 sc2] ts2]|] eqn:Hp2; simpl in H; [|done].
  destruct (Entity_replace sc2 (segment ts) p1 p2 _) as [[new sc3]|] eqn:Hrep;
    simpl in H; [|done].
  destruct (get_point_at_elements _ _ _ _ _ _ Hp1) as [Hn1 He1].
  destruct (get_point_at_elements _ _ _ _ _ _ Hp2) as [Hn2 He2].
  assert (Hn3 : no_new_sketch sc sc3).
  { eapply no_new_sketch_trans; [by eapply no_new_sketch_trans|].
    eapply Entity_replace_no_new_sketch; [|exact Hrep].
    eapply no_sketch_at_later; [|exact Hno]. by eapply no_new_sketch_trans. }
  destruct (bool_decide (index = 0%nat) && negb (is_circle_at sc (segment ts))).
  - injection H as <- <- <- <-. simpl. split; [done|congruence].
  - destruct (copy_constraints sc3 index (segment ts) new constrs) as [[sc4 c']|] eqn:Hcopy;
      simpl in H; [|done].
    injection H as <- <- <- <-. split; [|congruence].
    intros j ent' Hj. apply Hn3. unfold entities_get in Hj |- *.
    by rewrite <-(copy_constraints_entities _ _ _ _ _ _ _ Hcopy).
Qed.

Lemma replace_pairs_elements pairs : ∀ sc ts index constrs sc' ts',
  no_sketch_at sc (segment ts) →
  replace_pairs sc ts index pairs constrs = Some (sc', ts') →
  no_new_sketch sc sc' ∧
  element <$> _intersections ts' = element <$> _intersections ts.
Proof.
  induction pairs as [|intrs pairs IH]; intros sc ts index constrs sc' ts' Hno H; simpl in H.
  { injection H as <- <-. split; [apply no_new_sketch_refl|done]. }
  destruct (replace_pair sc ts index intrs constrs) as [[[[new sc1] ts1] constrs1]|] eqn:Hp;
    simpl in H; [|done].
  destruct (replace_pair_elements _ _ _ _ _ _ _ _ _ Hno Hp) as [Hn1 He1].
  assert (Hs1 : segment ts1 = segment ts).
  { unfold replace_pair in Hp. destruct intrs as [r1 r2].
    destruct (get_point_at sc ts r1) as [[[p1 sc1'] ts1']|] eqn:Hp1; simpl in Hp; [|done].
    destruct (get_point_at sc1' ts1' r2) as [[[p2 sc2] ts2]|] eqn:Hp2; simpl in Hp; [|done].
    destruct (Entity_replace sc2 (segment ts) p1 p2 _) as [[new' sc3]|]; simpl in Hp; [|done].
    destruct (get_point_at_spec _ _ _ _ _ _ Hp1) as (_ & (Hs1 & _) & _).
    destruct (get_point_at_spec _ _ _ _ _ _ Hp2) as (_ & (Hs2 & _) & _).
    destruct (bool_decide (index = 0%nat) && negb (is_circle_at sc (segment ts))).
    - injection Hp as <- <- <- <-. simpl. congruence.
    - destruct (copy_constraints sc3 index (segment ts) new' constrs) as [[sc4 c']|];
        simpl in Hp; [|done].
      injection Hp as <- <- <- <-. congruence. }
  destruct (IH sc1 ts1 (S index) constrs1 sc' ts') as [Hn2 He2]; [|done|].
  { rewrite Hs1. by eapply no_sketch_at_later. }
  split; [by eapply no_new_sketch_trans|congruence].
Qed.

Lemma delete_entity_execute_one sc e r sc' reports j :
  e ≠ -1 → no_sketch_at sc e → j ≠ e →
  delete_entity_execute sc e = Some (r, sc', reports) →
  entities_get sc' j = entities_get sc j.
Proof.
  intros He Hno Hne H. unfold delete_entity_execute in H.
  rewrite bool_decide_eq_true_2 in H by done.
  destruct (delete_entity_main sc e) as [[[r1 sc1] reports1]|] eqn:Hm; simpl in H; [|done].
  injection H as <- <- <-. unfold delete_entity_main in Hm.
  destruct (entities_get sc e) as [ent|] eqn:Hent; [|by injection Hm as <- <- <-].
  rewrite (Hno ent Hent) in Hm.
  destruct (is_entity_referenced sc e); [by injection Hm as <- <- <-|].
  destruct (delete_entity_delete sc e) as [sc2|] eqn:Hd; simpl in Hm; [|done].
  injection Hm as <- <- <-. apply delete_entity_delete_spec in Hd as (_ & Hd & _).
  unfold entities_get. rewrite Hd. by apply lookup_delete_ne.
Qed.

Lemma remove_obsolete_unrelated (l : list Intersection) j obsolete : ∀ sc sc' ent,
  (∀ e, ElEntity e ∈ element <$> l → e ≠ -1 ∧ e ≠ j ∧ no_sketch_at sc e) →
  remove_obsolete sc l obsolete = Some sc' →
  entities_get sc j = Some ent →
  ∃ v, entities_get sc' j = Some (set_co v ent).
Proof.
  induction obsolete as [|r obsolete IH]; intros sc sc' ent Hel H Hj; simpl in H.
  { injection H as <-. exists (co ent). by rewrite set_co_co. }
  destruct (l !! r) as [intr|] eqn:Hr; simpl in H; [|done].
  destruct (element intr) as [e|u|] eqn:Helem.
  - destruct (delete_entity_execute sc e) as [[[r1 sc1] reports1]|] eqn:Hd;
      simpl in H; [|done].
    destruct (Hel e) as (He1 & Hej & Hno).
    { rewrite <-Helem. apply list_elem_of_fmap_2. by eapply list_elem_of_lookup_2. }
    apply (IH sc1 sc' ent); [|done|].
    + intros e' He'. destruct (Hel e' He') as (? & ? & Hno'). split_and!; [done..|].
      eapply no_sketch_at_later; [|exact Hno'].
      apply kept_or_removed_no_new_sketch, only_removed_kept. intros i ent'.
      by eapply delete_entity_execute_only_removes.
    + rewrite <-Hj. eapply delete_entity_execute_one; [exact He1|exact Hno| |exact Hd].
      by intros ->.
  - destruct (find_constraint sc u) as [c|]; simpl in H; [|done].
    destruct (get_index sc c) as [i|]; simpl in H; [|done].
    destruct (delete_constraint_execute sc (type c) i) as [sc1|] eqn:Hd;
      simpl in H; [|done].
    pose proof (delete_constraint_execute_kept _ _ _ _ Hd) as Hkept.
    assert (Hj1 : ∃ v, entities_get sc1 j = Some (set_co v ent)).
    { unfold delete_constraint_execute in Hd.
      destruct (get_list sc (type c) !! i); simpl in Hd; [|done]. injection Hd as <-.
      rewrite solve_system_get. unfold entities_get in Hj |- *. simpl. rewrite Hj.
      simpl. eauto. }
    destruct Hj1 as [v Hj1].
    destruct (IH sc1 sc' (set_co v ent)) as [v' Hv']; [|done|done|by exists v'].
    intros e' He'. destruct (Hel e' He') as (? & ? & Hno'). split_and!; [done..|].
    eapply no_sketch_at_later; [|exact Hno']. by apply kept_or_removed_no_new_sketch.
  - by apply (IH sc sc' ent).
Qed.

(** X18: a trim removes no entity but the trimmed segment and entities its
    intersections stand on.  When no intersection stands on the index -1 or
    on a sketch and the trimmed segment is no sketch, every other entity of
    the scene that no intersection stands on is still in the scene when
    [replace] returns, the entity it was, moved at most. *)
Theorem replace_keeps_unrelated_entities sc ts sc' ts' j ent :
  TrimSegment_replace sc ts = Some (sc', ts') →
  (∀ e, ElEntity e ∈ element <$> _intersections ts →
        e ≠ -1 ∧ e ≠ j ∧ no_sketch_at sc e) →
  no_sketch_at sc (segment ts) →
  j ≠ segment ts →
  entities_get sc j = Some ent →
  ∃ v, entities_get sc' j = Some (set_co v ent).
Proof.
  unfold TrimSegment_replace. intros H Hel Hseg Hne Hj.
  destruct (replace_prepare sc ts) as [[[[relevant constrs] sc1] ts1]|] eqn:Hprep;
    simpl in H; [|done].
  destruct (replace_pairs sc1 ts1 0 (pairs_of relevant) constrs) as [[sc2 ts2]|] eqn:Hpairs;
    simpl in H; [|done].
  destruct (remove_obsolete sc2 _ _) as [sc3|] eqn:Hobs; simpl in H; [|done].
  destruct (replace_prepare_spec _ _ _ _ _ _ Hprep) as (_ & (He1 & _) & _ & Hs1 & _).
  destruct (replace_prepare_elements _ _ _ _ _ _ Hprep) as [Hn1 Hel1].
  assert (Hseg1 : no_sketch_at sc1 (segment ts1)).
  { rewrite Hs1. by eapply no_sketch_at_later. }
  destruct (replace_pairs_elements _ _ _ _ _ _ _ Hseg1 Hpairs) as [Hn2 Hel2].
  rewrite <-Hs1 in Hne.
  destruct (replace_pairs_entities _ _ _ _ _ _ _ j ent Hpairs Hne (He1 _ _ Hj)) as [Hj2 Hs2].
  assert (Hel3 : ∀ e, ElEntity e ∈ element <$> _intersections ts2 →
                      e ≠ -1 ∧ e ≠ j ∧ no_sketch_at sc2 e).
  { intros e He. rewrite Hel2, Hel1 in He. destruct (Hel e He) as (? & ? & Hno).
    split_and!; [done..|]. eapply no_sketch_at_later; [|exact Hno].
    by eapply no_new_sketch_trans. }
  destruct (remove_obsolete_unrelated _ j _ _ _ ent Hel3 Hobs Hj2) as [v Hv].
  exists v. destruct (reuse_segment ts2); injection H as <- <-; [done|].
  rewrite <-Hv. unfold entities_get. simpl. apply lookup_delete_ne. congruence.
Qed.

(** ** Merging a point with itself *)

Lemma rewrite_index_same p i : rewrite_index p p i = i.
Proof. unfold rewrite_index. by case_bool_decide. Qed.

Lemma map_rewrite_index_same p (l : list Z) : map (rewrite_index p p) l = l.
Proof. induction l as [|i l IH]; simpl; [done|]. by rewrite rewrite_index_same, IH. Qed.

Lemma Entity_update_pointers_same p e : Entity_update_pointers p p e = e.
Proof.
  destruct e as [k n c s sk deps cps]. unfold Entity_update_pointers. simpl. f_equal.
  - destruct sk; simpl; [|done]. by rewrite rewrite_index_same.
  - destruct deps; simpl; [|done]. by rewrite map_rewrite_index_same.
  - apply map_rewrite_index_same.
Qed.

Lemma Constraint_update_pointers_same p c : Constraint_update_pointers p p c = c.
Proof.
  destruct c as [u t ents sk]. unfold Constraint_update_pointers. simpl. f_equal.
  - apply map_rewrite_index_same.
  - destruct sk; simpl; [|done]. by rewrite rewrite_index_same.
Qed.

(** X19: asked for a coincidence of a point with itself, [main] of the
    coincident operator removes the point from the entity store and
    rewrites nothing: every constraint and every other entity is as before,
    moved at most, so what referenced the point still references it. *)
Theorem merge_point_with_itself sc p :
  is_point_at sc p = true →
  (add_coincident_main sc p p).1 = true ∧
  entities_get (add_coincident_main sc p p).2 p = None ∧
  sc_constraints (add_coincident_main sc p p).2 = sc_constraints sc ∧
  ∀ i ent, i ≠ p → entities_get sc i = Some ent →
           ∃ v, entities_get (add_coincident_main sc p p).2 i = Some (set_co v ent).
Proof.
  intros Hp. unfold add_coincident_main. rewrite Hp. simpl.
  split_and!; [done| | |].
  - rewrite solve_system_get. unfold entities_get. simpl.
    by rewrite lookup_delete_eq.
  - induction (sc_constraints sc) as [|[t l] cs IH]; simpl; [done|]. f_equal; [|done].
    f_equal. induction l as [|c l IHl]; simpl; [done|].
    by rewrite Constraint_update_pointers_same, IHl.
  - intros i ent Hne Hi. rewrite solve_system_get. unfold entities_get in Hi |- *. simpl.
    rewrite lookup_delete_ne by done. rewrite lookup_fmap, Hi. simpl.
    rewrite Entity_update_pointers_same. eauto.
Qed.

(** ** A click or a drag on a constraint *)






End Sketcher.

(** * Worked scenes *)

(** Concrete scenes on which the operators run.  Coordinates are positions
    along the x axis, and the distance along a segment from the pick
    position wraps around a period of 11. *)
Module Examples.

Definition dist_lt (a b : Z) : bool := a <? b.

Definition distance_along_segment (sc : @Scene Z) (seg : Z) (pos co : Z) : Z :=
  (co - pos) `mod` 11.

Definition solved_co (sc : @Scene Z) (sk : option Z) (i : Z) (e : @Entity Z) : Z :=
  co e.

(** The entities 20 and 21 cross every segment at x = 3 and x = 7. *)
Definition intersect (sc : @Scene Z) (seg e : Z) : list Z :=
  if bool_decide (e = 20) then [3] else if bool_decide (e = 21) then [7] else [].

Definition sketch0 : @Entity Z :=
  mkEntity SlvsSketch "Sketch" 0 false None (Some []) [].

Definition point (x : Z) : @Entity Z :=
  mkEntity SlvsPoint2D "Point" x false (Some 0) (Some [0]) [].

Definition line (p1 p2 : Z) : @Entity Z :=
  mkEntity SlvsLine2D "Line" 0 false (Some 0) (Some [p1; p2; 0]) [p1; p2].

Definition circle : @Entity Z :=
  mkEntity SlvsCircle "Circle" 0 false (Some 0) (Some [0]) [].

(** A line from x = 0 to x = 10, crossed at x = 3 and x = 7, with a
    constraint on the line and one on its endpoints. *)
Definition line_scene : @Scene Z :=
  mkScene (list_to_map [(0, sketch0); (1, point 0); (2, point 10); (10, line 1 2);
                        (3, point 3); (4, point 3); (20, line 3 4);
                        (5, point 7); (6, point 7); (21, line 5 6)])
          [("HORIZONTAL", [mkConstraint 0 "HORIZONTAL" [10] (Some 0)]);
           ("DISTANCE", [mkConstraint 1 "DISTANCE" [1; 2] (Some 0)])]
          0.

(** The same line with nothing crossing it. *)
Definition lone_line_scene : @Scene Z :=
  mkScene (list_to_map [(0, sketch0); (1, point 0); (2, point 10); (10, line 1 2)])
          [] 0.

(** A circle that crosses nothing and carries no constraint. *)
Definition lone_circle_scene : @Scene Z :=
  mkScene (list_to_map [(0, sketch0); (30, circle)]) [] 0.

(** A circle crossed at x = 3 and x = 7. *)
Definition circle_scene : @Scene Z :=
  mkScene (list_to_map [(0, sketch0); (30, circle);
                        (3, point 3); (4, point 3); (20, line 3 4);
                        (5, point 7); (6, point 7); (21, line 5 6)])
          [("DIAMETER", [mkConstraint 0 "DIAMETER" [30] (Some 0)])]
          0.

(** Three points; the first two distance constraints reference point 1,
    the third does not. *)
Definition points_scene : @Scene Z :=
  mkScene (list_to_map [(0, sketch0); (1, point 0); (2, point 4); (3, point 9)])
          [("DISTANCE", [mkConstraint 0 "DISTANCE" [1; 2] (Some 0);
                         mkConstraint 1 "DISTANCE" [1; 3] (Some 0);
                         mkConstraint 2 "DISTANCE" [2; 3] (Some 0)])]
          0.

(** [line_scene] with the endpoint 1 selected. *)
Definition selected_scene : @Scene Z :=
  set_entities line_scene (<[1 := set_selected true (point 0)]> (sc_entities line_scene)).

(** [line_scene] with a point 7 that nothing references; the endpoint 1
    and the point 7 are selected. *)
Definition batch_scene : @Scene Z :=
  set_entities line_scene
    (<[7 := set_selected true (point 5)]>
       (<[1 := set_selected true (point 0)]> (sc_entities line_scene))).

Definition no_trim : @TrimSegment Z := mkTrimSegment 0 0 [] false [] [] false.

(** The segment holders [fini] builds for a pick at x = 5. *)
Definition line_trim : @TrimSegment Z :=
  Eval vm_compute in default no_trim (trim_collect intersect line_scene 10 5).

Definition lone_line_trim : @TrimSegment Z :=
  Eval vm_compute in default no_trim (trim_collect intersect lone_line_scene 10 5).

Definition lone_circle_trim : @TrimSegment Z :=
  Eval vm_compute in default no_trim (trim_collect intersect lone_circle_scene 30 5).

Definition circle_trim : @TrimSegment Z :=
  Eval vm_compute in default no_trim (trim_collect intersect circle_scene 30 5).

Definition relevant_of (sc : @Scene Z) (ts : @TrimSegment Z)
  : list nat * @TrimSegment Z :=
  default ([], no_trim)
          (TrimSegment_relevant_intersections dist_lt distance_along_segment sc ts).

Definition replaced (sc : @Scene Z) (ts : @TrimSegment Z) : @Scene Z * @TrimSegment Z :=
  default (sc, no_trim)
          (TrimSegment_replace dist_lt distance_along_segment solved_co sc ts).


Definition line_relevant : list nat * @TrimSegment Z :=
  Eval vm_compute in relevant_of line_scene line_trim.

Definition line_replaced : @Scene Z * @TrimSegment Z :=
  Eval vm_compute in replaced line_scene line_trim.


Definition circle_relevant : list nat * @TrimSegment Z :=
  Eval vm_compute in relevant_of circle_scene circle_trim.

Definition circle_replaced : @Scene Z * @TrimSegment Z :=
  Eval vm_compute in replaced circle_scene circle_trim.

(** The crossing at x = 3 of [line_scene], before and after its point
    exists. *)
Definition crossing : @Intersection Z := mkIntersection (ElEntity 20) 3 3 false None.

Definition crossing_point : Z * @Scene Z * @Intersection Z :=
  Eval vm_compute in default (0, line_scene, crossing)
                             (Intersection_get_point line_scene crossing).

(** Settles a decidable proposition about a concrete scene by running its
    decision procedure. *)
Ltac decide_by_compute := refine (bool_decide_unpack _ _); vm_compute; exact I.

Definition deleted (sc : @Scene Z) (i : Z) : @Scene Z :=
  match delete_entity_main sc i with
  | Some (_, sc', _) => sc'
  | None => sc
  end.

Definition points_deleted : @Scene Z := Eval vm_compute in deleted points_scene 1.

Definition line_init : @TrimSegment Z :=
  Eval vm_compute in default no_trim (TrimSegment_init line_scene 10 5).

Definition endpoint0 : @Intersection Z := mkIntersection (ElEntity 1) 0 (-1) true None.

Definition endpoint10 : @Intersection Z := mkIntersection (ElEntity 2) 10 (-1) true None.

Definition crossing7 : @Intersection Z := mkIntersection (ElEntity 21) 7 (-1) false None.

Definition line_ensured : @Scene Z * @TrimSegment Z :=
  Eval vm_compute in
    default (line_scene, no_trim)
            (TrimSegment_ensure_points dist_lt distance_along_segment line_scene line_trim).

Definition sketch_deleted : @Scene Z := Eval vm_compute in deleted line_scene 0.

Definition batch_deleted : @Scene Z :=
  Eval vm_compute in default batch_scene (delete_batch batch_scene [7; 1]).

(** The constraints of the line 10 of [line_scene], copied to the line 20
    as the second new segment of a trim would have them. *)
Definition line_copied : @Scene Z * list (nat * list Z) :=
  Eval vm_compute in
    default (line_scene, [])
            (copy_constraints line_scene 1 10 20 (collect_constrs line_scene 10)).

Example line_trim_relevant : line_relevant.1 = [2; 1; 0; 3]%nat.
Proof. reflexivity. Qed.

Example lone_line_check :
  TrimSegment_check dist_lt distance_along_segment lone_line_scene lone_line_trim
  = Some false.
Proof. vm_compute. reflexivity. Qed.

(** C1, where the code fails it: trimming a circle that crosses nothing
    and carries no constraint collects no intersection, and then
    [relevant_intersections] raises the [IndexError] of [ordered[0]]
    instead of returning the empty list; [check] and [fini] raise with
    it. *)
Theorem lone_circle_trim_raises :
  trim_collect intersect lone_circle_scene 30 5 = Some lone_circle_trim ∧
  _intersections lone_circle_trim = [] ∧
  TrimSegment_relevant_intersections dist_lt distance_along_segment
    lone_circle_scene lone_circle_trim = None ∧
  TrimSegment_check dist_lt distance_along_segment lone_circle_scene lone_circle_trim
  = None ∧
  trim_fini dist_lt distance_along_segment solved_co intersect
    lone_circle_scene true 30 (Some 5) = None.
Proof. split_and!; vm_compute; reflexivity. Qed.

(** The lone line: its two endpoints are first and last, nothing is
    relevant, [check] is false and [fini] returns the scene it was given. *)
Lemma check_two_or_four_witness :
  trim_fini dist_lt distance_along_segment solved_co intersect
    lone_line_scene true 10 (Some 5) = Some lone_line_scene.
Proof.
  apply (proj2 (proj2 (check_two_or_four dist_lt distance_along_segment solved_co
                         intersect lone_line_scene lone_line_trim)) 10 5);
    vm_compute; reflexivity.
Defined.


(** The circle of [circle_scene] is not reused: [replace] takes it out of
    the scene, and the constraint on the circle is repointed to the new
    segment 33. *)
Example circle_replaced_removed :
  TrimSegment_replace dist_lt distance_along_segment solved_co circle_scene circle_trim
  = Some circle_replaced ∧
  reuse_segment circle_replaced.2 = false ∧
  entities_get circle_replaced.1 30 = None ∧
  map entities (constraints_all circle_replaced.1) = [[33]; [31; 21]; [32; 20]].
Proof. split_and!; vm_compute; reflexivity. Qed.

(** C4, where the code fails it: point 1 of [points_scene] is referenced
    by no entity, and the constraints 0 and 1 of the one collection depend
    on it.  [delete] removes the collected indices 0 and 1 in that order:
    after the first removal the constraint at index 1 is the one that does
    not depend on the point.  The scene is left with the second constraint
    on the removed point and without the constraint that had nothing to do
    with it. *)
Theorem delete_leaves_constraint_on_removed :
  is_entity_referenced points_scene 1 = false ∧
  get_constraint_local_indices points_scene 1 = Some [(0%nat, [0%nat; 1%nat])] ∧
  delete_entity_main points_scene 1 = Some (NoReturn, points_deleted, []) ∧
  entities_get points_deleted 1 = None ∧
  constraints_all points_deleted = [mkConstraint 1 "DISTANCE" [1; 3] (Some 0)].
Proof. split_and!; vm_compute; reflexivity. Qed.

(** C5 fails as stated: after the merge of point 1 (picked first) and
    point 2 (picked second) of [points_scene], it is point 1 that is gone
    and point 2 that remains, and the references to point 1 have become
    references to point 2. *)
Lemma merge_keeps_second_point :
  is_point_at points_scene 1 = true ∧ is_point_at points_scene 2 = true ∧
  entities_get ((add_coincident_main solved_co points_scene 1 2).2) 1 = None ∧
  entities_get ((add_coincident_main solved_co points_scene 1 2).2) 2 = Some (point 4) ∧
  map entities (constraints_all ((add_coincident_main solved_co points_scene 1 2).2))
  = [[2; 2]; [2; 3]; [2; 3]].
Proof. split_and!; vm_compute; reflexivity. Qed.

(** The merge of the points 1 and 2 of [points_scene]. *)
Lemma merge_removes_first_point_witness :
  entities_get ((add_coincident_main solved_co points_scene 1 2).2) 1 = None ∧
  is_point_at ((add_coincident_main solved_co points_scene 1 2).2) 2 = true.
Proof.
  refine (proj2 (proj2 (proj2 (proj2
            (merge_removes_first_point solved_co points_scene 1 2 _ _ _))))).
  - reflexivity.
  - reflexivity.
  - lia.
Defined.

(** The endpoint 1 of the line 10 cannot be deleted. *)
Lemma delete_referenced_refused_witness :
  delete_entity_main line_scene 1
  = Some (CANCELLED, line_scene, [Popup 1 (get_entity_deps line_scene 1); Warning 1]) ∧
  10 ∈ get_entity_deps line_scene 1.
Proof.
  apply (delete_referenced_refused line_scene 1 10 (point 0)).
  - reflexivity.
  - reflexivity.
  - decide_by_compute.
  - decide_by_compute.
Defined.


(** The crossing at x = 3: the second [get_point] returns what the first
    returned. *)
Lemma get_point_twice_witness :
  Intersection_get_point line_scene crossing = Some crossing_point ∧
  Intersection_get_point crossing_point.1.2 crossing_point.2 = Some crossing_point.
Proof.
  split; [vm_compute; reflexivity|].
  refine (proj1 (get_point_twice line_scene crossing crossing_point.1.1
                   crossing_point.1.2 crossing_point.2 _)).
  vm_compute. reflexivity.
Defined.

(** C9 fails as stated: the first intersection [__init__] puts in the
    segment holder of the line of [line_scene] is an endpoint and an entity
    intersection at once. *)
Lemma endpoint_also_entity :
  TrimSegment_init line_scene 10 5 = Some line_init ∧
  _intersections line_init !! 0%nat = Some endpoint0 ∧
  Intersection_is_endpoint endpoint0 = true ∧
  Intersection_is_entity endpoint0 = true.
Proof. split_and!; vm_compute; reflexivity. Qed.

(** The first endpoint of the crossed line, in the segment holder [fini]
    fills. *)
Lemma endpoint_is_entity_intersection_witness :
  Intersection_is_endpoint endpoint0 = true ∧
  Intersection_is_entity endpoint0 = true ∧
  Intersection_is_constraint endpoint0 = false.
Proof.
  split; [reflexivity|].
  refine (proj2 (endpoint_is_entity_intersection line_scene 10 5 line_init
                   [(ElEntity 21, 7); (ElEntity 20, 3)] endpoint0 _ _) _).
  - vm_compute. reflexivity.
  - apply (list_elem_of_lookup_2 _ 0%nat). reflexivity.
  - reflexivity.
Defined.

(** In a batch the referenced endpoint 1 is passed over without a report,
    and the point 7 is deleted. *)
Example batch_skips_referenced :
  selected_entities batch_scene = [7; 1] ∧
  is_entity_referenced batch_scene 1 = true ∧
  ∃ sc', delete_entity_execute batch_scene (-1) = Some (FINISHED, sc', []) ∧
         entities_get sc' 1 = entities_get batch_scene 1 ∧
         entities_get sc' 7 = None.
Proof.
  split_and!; [vm_compute; reflexivity|vm_compute; reflexivity|].
  exists (default batch_scene (delete_batch batch_scene [7; 1])).
  split_and!; vm_compute; reflexivity.
Qed.

(** With the endpoint 1 alone selected, [execute] refuses to delete it. *)
Lemma execute_single_selection_witness :
  selected_entities selected_scene = [1] ∧
  delete_entity_execute selected_scene (-1)
  = Some (FINISHED, selected_scene,
          [Popup 1 (get_entity_deps selected_scene 1); Warning 1]).
Proof.
  split; [vm_compute; reflexivity|].
  refine (proj1 (proj2 (proj2 (execute_single_selection selected_scene 1 _)))
            (set_selected true (point 0)) _ _ _).
  - vm_compute. reflexivity.
  - reflexivity.
  - reflexivity.
  - vm_compute. reflexivity.
Defined.

Lemma dist_lt_strict_weak_order : strict_weak_order dist_lt.
Proof.
  unfold dist_lt. split.
  - intros a b H. apply Z.ltb_lt in H. apply Z.ltb_ge. lia.
  - intros a b c H1 H2. apply Z.ltb_ge in H1, H2. apply Z.ltb_ge. lia.
Qed.

(** On the crossed line, seen from x = 5: the crossing at x = 7 comes
    first, the endpoint at x = 10 second. *)
Lemma get_intersections_ordered_witness :
  dist_lt (distance_of distance_along_segment line_scene line_trim endpoint10)
          (distance_of distance_along_segment line_scene line_trim crossing7) = false ∧
  (dist_lt (distance_of distance_along_segment line_scene line_trim crossing7)
           (distance_of distance_along_segment line_scene line_trim endpoint10) = true ∨
   (2 < 1)%nat) ∧
  _intersections (TrimSegment_get_intersections dist_lt distance_along_segment
                    line_scene line_trim).2 !! 2%nat
  = Some (set_index 0 crossing7) ∧
  _intersections (TrimSegment_get_intersections dist_lt distance_along_segment
                    line_scene line_trim).2 !! 1%nat
  = Some (set_index 1 endpoint10).
Proof.
  apply (get_intersections_ordered dist_lt distance_along_segment line_scene line_trim
           0 1 2 1 crossing7 endpoint10).
  - apply dist_lt_strict_weak_order.
  - lia.
  - reflexivity.
  - reflexivity.
  - reflexivity.
  - reflexivity.
Defined.

(** The crossed line has four intersections to classify. *)
Lemma relevant_intersections_classified_witness :
  ∃ relevant ts',
    TrimSegment_relevant_intersections dist_lt distance_along_segment line_scene line_trim
    = Some (relevant, ts') ∧
    TrimSegment__sorted dist_lt distance_along_segment line_scene line_trim ≡ₚ seq 0 4.
Proof.
  destruct (relevant_intersections_classified dist_lt distance_along_segment
              line_scene line_trim) as (relevant & ts' & H & Hp & _).
  - discriminate.
  - exists relevant, ts'. split; [exact H|exact Hp].
Defined.

(** The crossed line, asked twice. *)
Lemma relevant_intersections_repeatable_witness :
  TrimSegment_relevant_intersections dist_lt distance_along_segment
    line_scene line_relevant.2 = Some (line_relevant.1, line_relevant.2) ∧
  TrimSegment_check dist_lt distance_along_segment line_scene line_relevant.2
  = TrimSegment_check dist_lt distance_along_segment line_scene line_trim.
Proof.
  apply (relevant_intersections_repeatable dist_lt distance_along_segment
           line_scene line_trim line_relevant.1 line_relevant.2).
  vm_compute. reflexivity.
Defined.

(** The crossed line: [ensure_points] creates the points of the two
    crossings. *)
Lemma ensure_points_materializes_witness :
  ∃ relevant ts0,
    TrimSegment_relevant_intersections dist_lt distance_along_segment line_scene line_trim
    = Some (relevant, ts0) ∧
    scene_extends line_scene line_ensured.1 ∧
    (∀ r, r ∈ relevant →
          ∃ p, get_point_at line_ensured.1 line_ensured.2 r
               = Some (p, line_ensured.1, line_ensured.2)) ∧
    (size (sc_entities line_ensured.1) ≤ size (sc_entities line_scene) + length relevant)%nat ∧
    (length (constraints_all line_ensured.1)
     ≤ length (constraints_all line_scene) + length relevant)%nat.
Proof.
  apply (ensure_points_materializes dist_lt distance_along_segment line_scene line_trim
           line_ensured.1 line_ensured.2).
  vm_compute. reflexivity.
Defined.

(** Point 1 of [points_scene]: two of the three constraints depend on it,
    and one constraint is left. *)
Lemma delete_removes_entity_and_count_witness :
  sc_entities points_deleted = delete 1 (sc_entities points_scene) ∧
  active_sketch_i points_deleted = active_sketch_i points_scene ∧
  constraints_all points_deleted `sublist_of` constraints_all points_scene ∧
  (length (constraints_all points_deleted)
   + length (filter (λ c, 1%Z ∈ Constraint_dependencies c) (constraints_all points_scene))
   = length (constraints_all points_scene))%nat.
Proof.
  apply (delete_removes_entity_and_count points_scene 1 points_deleted).
  vm_compute. reflexivity.
Defined.

(** Deleting the sketch of [line_scene] empties the scene. *)
Lemma delete_sketch_cascades_witness :
  NoReturn = NoReturn ∧ @nil (@Report) = [] ∧ active_sketch_i sketch_deleted = -1 ∧
  (∀ j, entities_get sketch_deleted j
        = if bool_decide (j = 0 ∨ (entities_get line_scene j ≫= sketch_i) = Some 0)
          then None else entities_get line_scene j) ∧
  constraints_all sketch_deleted `sublist_of` constraints_all line_scene.
Proof.
  apply (delete_sketch_cascades line_scene 0 sketch0 NoReturn sketch_deleted []).
  - reflexivity.
  - reflexivity.
  - vm_compute. reflexivity.
Defined.

(** Point 1 of [points_scene], which no entity depends on. *)
Lemma delete_unreferenced_keeps_dependencies_witness :
  NoReturn = NoReturn ∧ @nil (@Report) = [] ∧ entities_get points_deleted 1 = None ∧
  (∀ b x, x ∈ get_flat_deps points_deleted b ↔ b ≠ 1 ∧ x ∈ get_flat_deps points_scene b) ∧
  (∀ b, 1 ∉ get_flat_deps points_deleted b) ∧
  (∀ b, is_entity_referenced points_deleted b = true →
        is_entity_referenced points_scene b = true).
Proof.
  apply (delete_unreferenced_keeps_dependencies points_scene 1 (point 0) NoReturn
           points_deleted []).
  - reflexivity.
  - reflexivity.
  - vm_compute. reflexivity.
  - vm_compute. reflexivity.
Defined.

(** The batch of [batch_scene]: the point 7 goes, the endpoint 1 stays. *)
Lemma batch_delete_only_selected_witness :
  FINISHED = FINISHED ∧ @nil (@Report) = [] ∧
  (∀ j, entities_get batch_deleted j = entities_get batch_scene j ∨
        (entity_selected batch_scene j = true ∧ entities_get batch_deleted j = None)) ∧
  constraints_all batch_deleted `sublist_of` constraints_all batch_scene ∧
  (deps_live batch_scene → deps_live batch_deleted).
Proof.
  apply (batch_delete_only_selected batch_scene FINISHED batch_deleted []).
  - vm_compute. lia.
  - vm_compute. reflexivity.
Defined.

(** The horizontal constraint of the line 10 is copied to the line 20. *)
Lemma copied_constraints_are_new_witness :
  sc_entities line_copied.1 = sc_entities line_scene ∧
  scene_extends line_scene line_copied.1 ∧
  ∀ c, c ∈ constraints_all line_copied.1 →
       c ∈ constraints_all line_scene ∨
       ((type c ∉ ["RATIO"; "COINCIDENT"; "MIDPOINT"; "TANGENT"]) ∧
        20 ∈ entities c ∧
        ∀ c0, c0 ∈ constraints_all line_scene → uid c0 ≠ uid c).
Proof.
  apply (copied_constraints_are_new line_scene 1 10 20 (collect_constrs line_scene 10)
           line_copied.1 line_copied.2).
  - lia.
  - vm_compute. reflexivity.
Defined.

(** The crossed line: two endpoints and two crossings. *)
Lemma trim_collects_crossings_and_constraints_witness :
  segment line_trim = 10 ∧ pos line_trim = 5 ∧
  obsolete_intersections line_trim = [] ∧ reuse_segment line_trim = false ∧
  ∀ intr, intr ∈ _intersections line_trim ↔ trim_collected intersect line_scene 10 intr.
Proof.
  apply (trim_collects_crossings_and_constraints intersect line_scene 10 5 line_trim).
  vm_compute. reflexivity.
Defined.

(** The line 10 of [line_scene]: one constraint depends on it. *)
Lemma delete_exact_for_single_dependents_witness :
  ∃ sc',
    delete_entity_delete line_scene 10 = Some sc' ∧
    sc_constraints sc' = without_dependents 10 <$> sc_constraints line_scene ∧
    sc_entities sc' = delete 10 (sc_entities line_scene) ∧
    active_sketch_i sc' = active_sketch_i line_scene.
Proof.
  apply (delete_exact_for_single_dependents line_scene 10).
  - unfold constraints_wf. split_and!; decide_by_compute.
  - exists (line 1 2). reflexivity.
  - unfold single_dependents. decide_by_compute.
Defined.

(** The diameter constraint of the circle 30 moves to the entity 31. *)
Lemma first_new_segment_takes_constraints_witness :
  ∃ sc',
    copy_constraints circle_scene 0 30 31 (collect_constrs circle_scene 30)
    = Some (sc', collect_constrs circle_scene 30) ∧
    sc_entities sc' = sc_entities circle_scene ∧
    constraints_all sc'
    = (λ c, if bool_decide ((uid c, entities c) ∈ collect_constrs circle_scene 30)
            then retarget 30 31 c else c) <$> constraints_all circle_scene.
Proof.
  apply (first_new_segment_takes_constraints circle_scene 30 31
           (collect_constrs circle_scene 30)).
  - decide_by_compute.
  - reflexivity.
Defined.

(** The crossed line: the point 3 of the crossing line 20 after the trim. *)
Lemma replace_keeps_other_entities_witness :
  entities_get line_replaced.1 3 = None ∨
  ∃ v, entities_get line_replaced.1 3 = Some (set_co v (point 3)).
Proof.
  apply (replace_keeps_other_entities dist_lt distance_along_segment solved_co
           line_scene line_trim line_replaced.1 line_replaced.2 3 (point 3)).
  - vm_compute. reflexivity.
  - simpl. lia.
  - reflexivity.
Defined.

(** No intersection of the crossed line stands on the point 3: it is still
    there after the trim. *)
Lemma replace_keeps_unrelated_entities_witness :
  ∃ v, entities_get line_replaced.1 3 = Some (set_co v (point 3)).
Proof.
  apply (replace_keeps_unrelated_entities dist_lt distance_along_segment solved_co
           line_scene line_trim line_replaced.1 line_replaced.2 3 (point 3)).
  - vm_compute. reflexivity.
  - intros e He. simpl in He.
    repeat (apply elem_of_cons in He as [He|He];
            [injection He as ->; split_and!; [lia|lia|];
             intros ent Hent; vm_compute in Hent; injection Hent as <-; reflexivity|]).
    by apply elem_of_nil in He.
  - intros ent Hent. vm_compute in Hent. injection Hent as <-. reflexivity.
  - simpl. lia.
  - reflexivity.
Defined.

(** Point 1 of [points_scene], picked twice: the distance constraints on
    it stay. *)
Lemma merge_point_with_itself_witness :
  (add_coincident_main solved_co points_scene 1 1).1 = true ∧
  entities_get (add_coincident_main solved_co points_scene 1 1).2 1 = None ∧
  sc_constraints (add_coincident_main solved_co points_scene 1 1).2
  = sc_constraints points_scene ∧
  ∀ i ent, i ≠ 1 → entities_get points_scene i = Some ent →
           ∃ v, entities_get (add_coincident_main solved_co points_scene 1 1).2 i
                = Some (set_co v ent).
Proof.
  apply (merge_point_with_itself solved_co points_scene 1).
  reflexivity.
Defined.

(** Point 1 of [points_scene]: the positions 0 and 1 of the one
    collection. *)
Lemma constraint_local_indices_are_positions_witness :
  ∃ ret_list,
    get_constraint_local_indices points_scene 1 = Some ret_list ∧
    length ret_list = length (sc_constraints points_scene) ∧
    ∀ k p, sc_constraints points_scene !! k = Some p →
      ∃ indices,
        ret_list !! k = Some (k, indices) ∧
        StronglySorted lt indices ∧
        ∀ j, j ∈ indices ↔
             ∃ c, p.2 !! j = Some c ∧ 1 ∈ Constraint_dependencies c.
Proof.
  apply (constraint_local_indices_are_positions points_scene 1).
  unfold constraints_wf. split_and!; decide_by_compute.
Defined.

End Examples.
